(** * The polling, diff and persistence engine of the analytics server

    A shallow embedding of the server script (src/unnamed/part_002):
    the SQLite tables for messages and events, the per-group caches kept in
    [monitoredGroups], one observation pass ([checkMessages]), one scheduler
    tick ([checkAllGroups]), the add-group handler, the callbacks of the
    store, the search endpoint and the passes that execute at the same time;
    then start-up ([initializeGroups]), the removal of a group, logout, the
    paginated lists of messages and events, and the statistics.

    Conventions of the embedding.
    - JavaScript strings are [string]; the empty string stands for every
      falsy string value ([undefined], [null], ['']).
    - A JS [Set] is a duplicate-free list in insertion order, a JS [Map] an
      association list in insertion order.
    - SQLite executes the statements in the order in which they are
      issued.  The engine runs the save of an event to completion at the
      place where its [DELETE] is issued: the [DELETE], then the [INSERT]
      that the callback of the [DELETE] issues.  [Deferred] keeps the
      callbacks apart, as the event loop does; what is stated of stored
      events is stated of saves that run to completion one after the other,
      or of the runs of [Deferred].
    - Calls to the chat client are inputs: a value of type [option] is [None]
      when the call rejects. *)

From Stdlib Require Import List String Ascii ZArith Bool Arith Lia.
From Stdlib Require Import Sorting.Sorted DecimalString.
Import ListNotations.
Local Open Scope string_scope.
Local Open Scope list_scope.

(** ** JavaScript string primitives *)

Module JS.

(** [a || b] on strings. *)
Definition or (a b : string) : string := if a =? "" then b else a.

Definition truthy (a : string) : bool := negb (a =? "").

Definition lowerChar (c : ascii) : ascii :=
  let n := nat_of_ascii c in
  if ((65 <=? n) && (n <=? 90))%nat then ascii_of_nat (n + 32) else c.

(** The strings of ASCII characters.  On them [toLowerCase] and [trim]
    below are those of JavaScript; on other characters JavaScript follows
    the Unicode case mapping and trims every Unicode space, which the
    embedding leaves out.  The statements that rest on the outcome of a
    comparison of names are stated for names of ASCII characters. *)
Definition isAscii (s : string) : bool :=
  forallb (fun c => (nat_of_ascii c <? 128)%nat) (list_ascii_of_string s).

(** [s.toLowerCase()], on the ASCII letters. *)
Fixpoint toLowerCase (s : string) : string :=
  match s with
  | EmptyString => EmptyString
  | String c s' => String (lowerChar c) (toLowerCase s')
  end.

(** [s.includes(sub)]. *)
Fixpoint includes (s sub : string) : bool :=
  String.prefix sub s ||
  match s with
  | EmptyString => false
  | String _ s' => includes s' sub
  end.

Definition isSpace (c : ascii) : bool :=
  let n := nat_of_ascii c in
  ((n =? 32) || ((9 <=? n) && (n <=? 13)))%nat.

Fixpoint trimStart (l : list ascii) : list ascii :=
  match l with
  | c :: l' => if isSpace c then trimStart l' else l
  | [] => []
  end.

(** [s.trim()], on the ASCII white space. *)
Definition trim (s : string) : string :=
  string_of_list_ascii
    (rev (trimStart (rev (trimStart (list_ascii_of_string s))))).

(** [s.split('@')[0]]. *)
Fixpoint beforeAt (s : string) : string :=
  match s with
  | EmptyString => EmptyString
  | String c s' => if Ascii.eqb c "@" then EmptyString else String c (beforeAt s')
  end.

(** [s.substring(0, 10)]. *)
Definition first10 (s : string) : string := String.substring 0 10 s.

(** [arr.slice(-n)]: the last [n] elements. *)
Definition sliceLast {A} (n : nat) (l : list A) : list A :=
  skipn (List.length l - n) l.

End JS.

(** ** [Date.prototype.toISOString] *)

Module JSDate.
Local Open Scope Z_scope.

Fixpoint pad (width : nat) (z : Z) : string :=
  match width with
  | O => EmptyString
  | S w =>
      (pad w (z / 10) ++
       String (ascii_of_nat (48 + Z.to_nat (z mod 10))) EmptyString)%string
  end.

(** Proleptic Gregorian date of a day count relative to 1970-01-01. *)
Definition civil (days : Z) : Z * Z * Z :=
  let z := days + 719468 in
  let era := z / 146097 in
  let doe := z - era * 146097 in
  let yoe := (doe - doe / 1460 + doe / 36524 - doe / 146096) / 365 in
  let doy := doe - (365 * yoe + yoe / 4 - yoe / 100) in
  let mp := (5 * doy + 2) / 153 in
  let d := doy - (153 * mp + 2) / 5 + 1 in
  let m := if mp <? 10 then mp + 3 else mp - 9 in
  let y := yoe + era * 400 + (if m <=? 2 then 1 else 0) in
  (y, m, d).

Definition year (y : Z) : string :=
  if (0 <=? y) && (y <=? 9999) then pad 4 y
  else if y <? 0 then ("-" ++ pad 6 (- y))%string
  else ("+" ++ pad 6 y)%string.

(** The text of a time value given in milliseconds since the epoch. *)
Definition isoString (ms : Z) : string :=
  let '(y, m, d) := civil (ms / 86400000) in
  let r := ms mod 86400000 in
  (year y ++ "-" ++ pad 2 m ++ "-" ++ pad 2 d ++ "T" ++
   pad 2 (r / 3600000) ++ ":" ++ pad 2 (r / 60000 mod 60) ++ ":" ++
   pad 2 (r / 1000 mod 60) ++ "." ++ pad 3 (r mod 1000) ++ "Z")%string.

Definition validTime (ms : Z) : bool :=
  (-8640000000000000 <=? ms) && (ms <=? 8640000000000000).

(** [new Date(ms).toISOString()]; [None] when it throws a RangeError. *)
Definition toISOString (ms : Z) : option string :=
  if validTime ms then Some (isoString ms) else None.

End JSDate.

(** ** JS [Set] and [Map] *)

Module JSSet.

Definition t := list string.

Definition has (x : string) (s : t) : bool :=
  existsb (String.eqb x) s.

Definition add (x : string) (s : t) : t :=
  if has x s then s else s ++ [x].

(** [new Set(arr)]. *)
Definition of_list (l : list string) : t :=
  fold_left (fun s x => add x s) l [].

Definition size (s : t) : nat := List.length s.

End JSSet.

Module JSMap.

Definition t (V : Type) := list (string * V).

Fixpoint get {V} (k : string) (m : t V) : option V :=
  match m with
  | [] => None
  | (k', v) :: m' => if (k =? k')%string then Some v else get k m'
  end.

(** [m.set(k, v)]: an existing key keeps its place. *)
Fixpoint set {V} (k : string) (v : V) (m : t V) : t V :=
  match m with
  | [] => [(k, v)]
  | (k', v') :: m' =>
      if (k =? k')%string then (k, v) :: m' else (k', v') :: set k v m'
  end.

(** Assignment to a field of the object stored under [k]: the entry is
    rewritten in place, and nothing happens when [k] is not a key. *)
Fixpoint mutate {V} (k : string) (f : V -> V) (m : t V) : t V :=
  match m with
  | [] => []
  | (k', v) :: m' =>
      if (k =? k')%string then (k', f v) :: m' else (k', v) :: mutate k f m'
  end.

Definition keys {V} (m : t V) : list string := map fst m.
Definition values {V} (m : t V) : list V := map snd m.

(** [m.delete(k)]. *)
Definition delete {V} (k : string) (m : t V) : t V :=
  filter (fun e => negb (k =? fst e)%string) m.

End JSMap.

(** ** The SQLite tables *)

Inductive EventType : Type := JOIN | LEAVE | CERTIFICATE.

Definition EventType_eqb (a b : EventType) : bool :=
  match a, b with
  | JOIN, JOIN | LEAVE, LEAVE | CERTIFICATE, CERTIFICATE => true
  | _, _ => false
  end.

(** A row of [messages]; [id] is the primary key. *)
Module Msg.
Record row : Type := {
  id : string;
  group_id : string;
  group_name : string;
  sender : string;
  sender_id : string;
  message : string;
  timestamp : string }.
End Msg.

(** A row of [events] (without the autoincrement key and [created_at]). *)
Module Evt.
Record row : Type := {
  group_id : string;
  group_name : string;
  member_id : string;
  member_name : string;
  type : EventType;
  timestamp : string;
  date : string }.

(** The dedup key (groupId, memberId, type, date). *)
Definition key : Type := string * string * EventType * string.

Definition key_of (r : row) : key :=
  (group_id r, member_id r, type r, date r).

Definition key_eqb (a b : key) : bool :=
  let '(g1, m1, t1, d1) := a in
  let '(g2, m2, t2, d2) := b in
  (g1 =? g2)%string && (m1 =? m2)%string && EventType_eqb t1 t2 &&
  (d1 =? d2)%string.
End Evt.

Module Store.

(** [INSERT OR REPLACE INTO messages ...]: the row in conflict on the
    primary key is deleted, then the new row is inserted. *)
Definition insertOrReplace (r : Msg.row) (t : list Msg.row) : list Msg.row :=
  filter (fun x => negb (Msg.id x =? Msg.id r)%string) t ++ [r].

(** [DELETE FROM events WHERE group_id = ? AND member_id = ? AND type = ?]. *)
Definition deleteMemberType (g m : string) (ty : EventType)
    (t : list Evt.row) : list Evt.row :=
  filter (fun x => negb ((Evt.group_id x =? g)%string &&
                         (Evt.member_id x =? m)%string &&
                         EventType_eqb (Evt.type x) ty)) t.

(** [DELETE FROM events WHERE group_id = ? AND member_id = ?
    AND type = 'CERTIFICATE' AND date = ?]. *)
Definition deleteCertificate (g m d : string)
    (t : list Evt.row) : list Evt.row :=
  filter (fun x => negb ((Evt.group_id x =? g)%string &&
                         (Evt.member_id x =? m)%string &&
                         EventType_eqb (Evt.type x) CERTIFICATE &&
                         (Evt.date x =? d)%string)) t.

(** [INSERT INTO events ...]. *)
Definition insertEvent (r : Evt.row) (t : list Evt.row) : list Evt.row :=
  t ++ [r].

(** The [DELETE] issued for the event whose row is [r]: JOIN and LEAVE
    delete by (group, member, type), CERTIFICATE by (group, member, type,
    date). *)
Definition deleteFor (r : Evt.row) (t : list Evt.row) : list Evt.row :=
  match Evt.type r with
  | CERTIFICATE =>
      deleteCertificate (Evt.group_id r) (Evt.member_id r) (Evt.date r) t
  | ty => deleteMemberType (Evt.group_id r) (Evt.member_id r) ty t
  end.

(** A save run to completion: the [DELETE] issued for an event and the
    [INSERT] that the callback of the [DELETE] issues, with no other
    statement on [events] between the two. *)
Definition saveEvent (r : Evt.row) (t : list Evt.row) : list Evt.row :=
  match Evt.type r with
  | CERTIFICATE =>
      insertEvent r
        (deleteCertificate (Evt.group_id r) (Evt.member_id r) (Evt.date r) t)
  | ty =>
      insertEvent r (deleteMemberType (Evt.group_id r) (Evt.member_id r) ty t)
  end.

Definition rowsOfKey (k : Evt.key) (t : list Evt.row) : list Evt.row :=
  filter (fun x => Evt.key_eqb (Evt.key_of x) k) t.

End Store.

(** ** The chat client (whatsapp-web.js), as far as the engine reads it *)

Module WA.

Record Contact : Type := {
  user : string;            (* contact.id.user *)
  number : string;
  pushname : string;
  name : string;
  verifiedName : string }.

Record Message : Type := {
  msg_id : string;          (* msg.id._serialized *)
  msg_timestamp : Z;        (* seconds since the epoch *)
  author : string;
  body : string;
  hasMedia : bool;
  msg_type : string;
  subtype : string;
  recipientIds : list string;
  getContact : option Contact }.

Record Chat : Type := {
  chat_id : string;         (* chat.id._serialized *)
  chat_name : string;
  isGroup : bool;
  participants : option (list string);   (* p.id._serialized of each *)
  fetchMessages : nat -> option (list Message) }.

Record Client : Type := {
  getChats : option (list Chat);
  getContactById : string -> option Contact }.

End WA.

(** ** Server state *)

Record Config : Type := {
  MESSAGE_LIMIT : nat;
  DETECT_JOINS_LEAVES : bool }.

(** The defaults written to a fresh config.json. *)
Definition defaultConfig : Config :=
  {| MESSAGE_LIMIT := 15; DETECT_JOINS_LEAVES := true |}.

(** A value of [monitoredGroups]. *)
Record GroupData : Type := {
  gd_name : string;
  gd_id : string;
  previousMessageIds : JSSet.t;
  previousMembers : JSSet.t;
  isFirstRun : bool }.

(** A value of [groupInfoStore]. *)
Record GroupInfo : Type := {
  gi_id : string;
  gi_name : string;
  memberCount : nat }.

(** The object built by [createEvent], also the payload of an event
    envelope. *)
Record Event : Type := {
  ev_timestamp : string;
  ev_type : EventType;
  ev_memberName : string;
  ev_memberId : string;
  ev_groupId : string;
  ev_groupName : string }.

(** The object returned by [processMessage]. *)
Record Processed : Type := {
  pm_id : string;
  pm_timestamp : string;
  pm_sender : string;
  pm_senderId : string;
  pm_message : string;
  pm_type : string;
  pm_hasMedia : bool;
  pm_groupId : string;
  pm_groupName : string }.

(** What [broadcast] is called with. *)
Inductive Envelope : Type :=
| EnvEvent (event : Event)
| EnvMessage (message : Processed)
| EnvGroupAdded (group : GroupInfo).

Record World : Type := {
  monitoredGroups : JSMap.t GroupData;
  groupInfoStore : JSMap.t GroupInfo;
  messagesTable : list Msg.row;
  eventsTable : list Evt.row;
  configGroups : list string;          (* [groups] of config.json *)
  isClientReady : bool;
  outbox : list Envelope }.            (* the calls of [broadcast], in order *)

Definition with_monitoredGroups (f : JSMap.t GroupData -> JSMap.t GroupData)
    (w : World) : World :=
  {| monitoredGroups := f (monitoredGroups w);
     groupInfoStore := groupInfoStore w;
     messagesTable := messagesTable w;
     eventsTable := eventsTable w;
     configGroups := configGroups w;
     isClientReady := isClientReady w;
     outbox := outbox w |}.

Definition with_groupInfoStore (f : JSMap.t GroupInfo -> JSMap.t GroupInfo)
    (w : World) : World :=
  {| monitoredGroups := monitoredGroups w;
     groupInfoStore := f (groupInfoStore w);
     messagesTable := messagesTable w;
     eventsTable := eventsTable w;
     configGroups := configGroups w;
     isClientReady := isClientReady w;
     outbox := outbox w |}.

Definition with_messagesTable (f : list Msg.row -> list Msg.row)
    (w : World) : World :=
  {| monitoredGroups := monitoredGroups w;
     groupInfoStore := groupInfoStore w;
     messagesTable := f (messagesTable w);
     eventsTable := eventsTable w;
     configGroups := configGroups w;
     isClientReady := isClientReady w;
     outbox := outbox w |}.

Definition with_eventsTable (f : list Evt.row -> list Evt.row)
    (w : World) : World :=
  {| monitoredGroups := monitoredGroups w;
     groupInfoStore := groupInfoStore w;
     messagesTable := messagesTable w;
     eventsTable := f (eventsTable w);
     configGroups := configGroups w;
     isClientReady := isClientReady w;
     outbox := outbox w |}.

Definition with_configGroups (f : list string -> list string)
    (w : World) : World :=
  {| monitoredGroups := monitoredGroups w;
     groupInfoStore := groupInfoStore w;
     messagesTable := messagesTable w;
     eventsTable := eventsTable w;
     configGroups := f (configGroups w);
     isClientReady := isClientReady w;
     outbox := outbox w |}.

(** [broadcast(data)]. *)
Definition broadcast (data : Envelope) (w : World) : World :=
  {| monitoredGroups := monitoredGroups w;
     groupInfoStore := groupInfoStore w;
     messagesTable := messagesTable w;
     eventsTable := eventsTable w;
     configGroups := configGroups w;
     isClientReady := isClientReady w;
     outbox := outbox w ++ [data] |}.

(** The server right after the WhatsApp client became ready, with no group
    monitored and empty tables. *)
Definition initialWorld : World :=
  {| monitoredGroups := [];
     groupInfoStore := [];
     messagesTable := [];
     eventsTable := [];
     configGroups := [];
     isClientReady := true;
     outbox := [] |}.

(** ** Events and messages built from what the chat client returns *)

Section Engine.

Variable cfg : Config.

(** [(contact.id && contact.id.user) ? contact.id.user
     : (contact.number || fallback)]. *)
Definition contactPhone (c : WA.Contact) (fallback : string) : string :=
  if JS.truthy (WA.user c) then WA.user c else JS.or (WA.number c) fallback.

(** [contact.pushname || contact.name || contact.verifiedName || phone]. *)
Definition contactName (c : WA.Contact) (phone : string) : string :=
  JS.or (WA.pushname c) (JS.or (WA.name c) (JS.or (WA.verifiedName c) phone)).

(** [createEvent]: never null; a contact lookup that rejects gives the
    member name 'Unknown'.  [now] is the clock read by [new Date()]. *)
Definition createEvent (client : WA.Client) (now : Z)
    (memberId : string) (eventType : EventType)
    (groupName groupId : string) : Event :=
  {| ev_timestamp := JSDate.isoString now;
     ev_type := eventType;
     ev_memberName :=
       match WA.getContactById client memberId with
       | Some contact =>
           contactName contact (contactPhone contact (JS.beforeAt memberId))
       | None => "Unknown"
       end;
     ev_memberId := memberId;
     ev_groupId := groupId;
     ev_groupName := groupName |}.

(** The row written for an event: [date] is the first ten characters of
    its timestamp. *)
Definition eventRow (e : Event) : Evt.row :=
  {| Evt.group_id := ev_groupId e;
     Evt.group_name := ev_groupName e;
     Evt.member_id := ev_memberId e;
     Evt.member_name := ev_memberName e;
     Evt.type := ev_type e;
     Evt.timestamp := ev_timestamp e;
     Evt.date := JS.first10 (ev_timestamp e) |}.

(** An event is emitted, its save run to completion: the [DELETE], the
    [INSERT] of its callback, and the broadcast, which [processMessage]
    makes from that callback and the other callers right after issuing the
    [DELETE]. *)
Definition emitEvent (e : Event) (w : World) : World :=
  broadcast (EnvEvent e)
    (with_eventsTable (Store.saveEvent (eventRow e)) w).

Definition isNotification (t : string) : bool :=
  ((t =? "notification") || (t =? "notification_template") ||
   (t =? "group_notification"))%string.

(** Join or leave, from the subtype of a notification message. *)
Definition notificationEventType (subtype : string) : option EventType :=
  if ((subtype =? "add") || (subtype =? "invite") ||
      (subtype =? "group_invite_link"))%string then Some JOIN
  else if ((subtype =? "remove") || (subtype =? "leave"))%string
       then Some LEAVE
       else None.

(** Name of the first recipient of a notification. *)
Definition recipientName (client : WA.Client) (memberId : string) : string :=
  match WA.getContactById client memberId with
  | Some contact =>
      contactName contact (contactPhone contact (JS.beforeAt memberId))
  | None => JS.beforeAt memberId
  end.

(** The JOIN or LEAVE event that [processMessage] derives from a
    notification message of the fetched history, if any. *)
Definition notificationEvent (client : WA.Client) (msg : WA.Message)
    (iso groupName groupId : string) : option Event :=
  match WA.recipientIds msg with
  | [] => None
  | memberId :: _ =>
      match notificationEventType (WA.subtype msg) with
      | Some eventType =>
          if JS.truthy memberId then
            Some {| ev_timestamp := iso;
                    ev_type := eventType;
                    ev_memberName := recipientName client memberId;
                    ev_memberId := memberId;
                    ev_groupId := groupId;
                    ev_groupName := groupName |}
          else None
      | None => None
      end
  end.

Definition notificationMessage (client : WA.Client) (msg : WA.Message)
    : string :=
  let fromBody := JS.or (WA.body msg) "Group notification" in
  match WA.recipientIds msg with
  | [] => fromBody
  | memberId :: _ =>
      let memberName := recipientName client memberId in
      let blank := (JS.trim (WA.body msg) =? "")%string in
      match notificationEventType (WA.subtype msg) with
      | Some JOIN =>
          if blank then
            if (WA.subtype msg =? "group_invite_link")%string
            then (memberName ++ " joined via group link")%string
            else (memberName ++ " joined")%string
          else fromBody
      | Some _ => if blank then (memberName ++ " left")%string else fromBody
      | None => fromBody
      end
  end.

Definition senderPhone (msg : WA.Message) : string :=
  if JS.truthy (WA.author msg) then
    match WA.getContact msg with
    | Some contact => contactPhone contact (JS.beforeAt (WA.author msg))
    | None => JS.beforeAt (WA.author msg)
    end
  else "Unknown".

Definition senderName (msg : WA.Message) : string :=
  if JS.truthy (WA.author msg) then
    match WA.getContact msg with
    | Some contact => contactName contact (senderPhone msg)
    | None => senderPhone msg
    end
  else "Unknown".

Definition isVoice (t : string) : bool :=
  ((t =? "ptt") || (t =? "audio"))%string.

(** The CERTIFICATE event of a voice recording; its member id is the
    sender's phone number, or the author id when there is none. *)
Definition certificateEvent (msg : WA.Message)
    (iso groupName groupId : string) : option Event :=
  if isVoice (WA.msg_type msg) then
    Some {| ev_timestamp := iso;
            ev_type := CERTIFICATE;
            ev_memberName := senderName msg;
            ev_memberId := JS.or (senderPhone msg) (WA.author msg);
            ev_groupId := groupId;
            ev_groupName := groupName |}
  else None.

Definition messageBody (msg : WA.Message) : string :=
  if WA.hasMedia msg
  then JS.or (WA.body msg) ("<" ++ WA.msg_type msg ++ ">")%string
  else WA.body msg.

Definition senderDisplay (msg : WA.Message) : string :=
  let phone := senderPhone msg in
  let name := senderName msg in
  if JS.truthy phone && negb (name =? phone)%string
  then (name ++ " (" ++ phone ++ ")")%string
  else if JS.truthy phone then phone else name.

(** The event (at most one) that processing [msg] emits. *)
Definition messageEvent (client : WA.Client) (msg : WA.Message)
    (groupName groupId : string) : option Event :=
  match JSDate.toISOString (WA.msg_timestamp msg * 1000) with
  | None => None
  | Some iso =>
      if isNotification (WA.msg_type msg)
      then notificationEvent client msg iso groupName groupId
      else certificateEvent msg iso groupName groupId
  end.

(** The value [processMessage] returns; [None] is [null], returned when
    formatting the timestamp throws. *)
Definition processed (client : WA.Client) (msg : WA.Message)
    (groupName groupId : string) : option Processed :=
  match JSDate.toISOString (WA.msg_timestamp msg * 1000) with
  | None => None
  | Some iso =>
      if isNotification (WA.msg_type msg) then
        Some {| pm_id := WA.msg_id msg;
                pm_timestamp := iso;
                pm_sender := "System";
                pm_senderId := "";
                pm_message :=
                  JS.or (notificationMessage client msg) "Group notification";
                pm_type := WA.msg_type msg;
                pm_hasMedia := false;
                pm_groupId := groupId;
                pm_groupName := groupName |}
      else
        Some {| pm_id := WA.msg_id msg;
                pm_timestamp := iso;
                pm_sender := senderDisplay msg;
                pm_senderId := WA.author msg;
                pm_message := messageBody msg;
                pm_type := WA.msg_type msg;
                pm_hasMedia := WA.hasMedia msg;
                pm_groupId := groupId;
                pm_groupName := groupName |}
  end.

(** [processMessage]: the state after its database writes and broadcasts,
    the save run to completion, and its return value.  The timestamp is
    formatted before the first effect on every path, so a RangeError leaves
    the state as it was.  [processMessageEffects] below has the same effects
    with the callback apart. *)
Definition processMessage (client : WA.Client) (msg : WA.Message)
    (groupName groupId : string) (w : World) : World * option Processed :=
  (match messageEvent client msg groupName groupId with
   | Some e => emitEvent e w
   | None => w
   end,
   processed client msg groupName groupId).

(** ** One observation pass: [checkMessages] *)

(** The loop "Detect joins". *)
Definition detectJoins (client : WA.Client) (now : Z) (groupId : string)
    (groupInfo : GroupData) (currentMembers : JSSet.t) (w : World) : World :=
  fold_left
    (fun w memberId =>
       if negb (JSSet.has memberId (previousMembers groupInfo)) &&
          negb (isFirstRun groupInfo)
       then emitEvent
              (createEvent client now memberId JOIN (gd_name groupInfo) groupId) w
       else w)
    currentMembers w.

(** The loop "Detect leaves". *)
Definition detectLeaves (client : WA.Client) (now : Z) (groupId : string)
    (groupInfo : GroupData) (currentMembers : JSSet.t) (w : World) : World :=
  fold_left
    (fun w memberId =>
       if negb (JSSet.has memberId currentMembers) &&
          negb (isFirstRun groupInfo)
       then emitEvent
              (createEvent client now memberId LEAVE (gd_name groupInfo) groupId) w
       else w)
    (previousMembers groupInfo) w.

Definition setMemberCount (n : nat) (g : GroupInfo) : GroupInfo :=
  {| gi_id := gi_id g; gi_name := gi_name g; memberCount := n |}.

(** "Update member count": only when [groupInfoStore] has the group. *)
Definition updateMemberCount (groupId : string) (n : nat) (w : World) : World :=
  with_groupInfoStore (JSMap.mutate groupId (setMemberCount n)) w.

Definition setPreviousMembers (s : JSSet.t) (g : GroupData) : GroupData :=
  {| gd_name := gd_name g; gd_id := gd_id g;
     previousMessageIds := previousMessageIds g;
     previousMembers := s;
     isFirstRun := isFirstRun g |}.

Definition setMessageState (ids : JSSet.t) (first : bool) (g : GroupData)
    : GroupData :=
  {| gd_name := gd_name g; gd_id := gd_id g;
     previousMessageIds := ids;
     previousMembers := previousMembers g;
     isFirstRun := first |}.

(** "Check for member changes", lines 1331-1388: the state after it and the
    group object as the pass holds it. *)
Definition checkMembers (client : WA.Client) (now : Z) (groupId : string)
    (groupInfo : GroupData) (group : WA.Chat) (w : World)
    : World * GroupData :=
  match WA.participants group with
  | Some ps =>
      if DETECT_JOINS_LEAVES cfg then
        let currentMembers := JSSet.of_list ps in
        let w1 := detectJoins client now groupId groupInfo currentMembers w in
        let w2 := detectLeaves client now groupId groupInfo currentMembers w1 in
        let w3 := updateMemberCount groupId (JSSet.size currentMembers) w2 in
        (w3, setPreviousMembers currentMembers groupInfo)
      else (w, groupInfo)
  | None => (w, groupInfo)
  end.

(** "Detect new messages": the new messages in fetch order and the window
    with their ids added. *)
Definition detectNew (messages : list WA.Message) (ids : JSSet.t)
    : list WA.Message * JSSet.t :=
  fold_left
    (fun acc msg =>
       if JSSet.has (WA.msg_id msg) (snd acc) then acc
       else (fst acc ++ [msg], snd acc ++ [WA.msg_id msg]))
    messages ([], ids).

(** The loop that fills [processedMessages]. *)
Definition processAll (client : WA.Client) (messages : list WA.Message)
    (groupName groupId : string) (w : World) : World * list Processed :=
  fold_left
    (fun acc msg =>
       let '(w', p) := processMessage client msg groupName groupId (fst acc) in
       match p with
       | Some p => (w', snd acc ++ [p])
       | None => (w', snd acc)
       end)
    messages (w, []).

Definition messageRow (p : Processed) : Msg.row :=
  {| Msg.id := pm_id p;
     Msg.group_id := pm_groupId p;
     Msg.group_name := pm_groupName p;
     Msg.sender := pm_sender p;
     Msg.sender_id := pm_senderId p;
     Msg.message := pm_message p;
     Msg.timestamp := pm_timestamp p |}.

(** "Save messages to SQLite database". *)
Definition saveMessages (ps : list Processed) (w : World) : World :=
  with_messagesTable
    (fun t => fold_left (fun t p => Store.insertOrReplace (messageRow p) t) ps t)
    w.

(** "Broadcast new messages to WebSocket clients": each new message is
    processed a second time. *)
Definition broadcastNew (client : WA.Client) (newMessages : list WA.Message)
    (groupName groupId : string) (w : World) : World :=
  fold_left
    (fun w msg =>
       let '(w', p) := processMessage client msg groupName groupId w in
       match p with
       | Some p => broadcast (EnvMessage p) w'
       | None => w'
       end)
    newMessages w.

(** "Clean up old message IDs". *)
Definition cleanUp (ids : JSSet.t) : JSSet.t :=
  if (100 <? JSSet.size ids)%nat then JS.sliceLast 100 ids else ids.

(** The part of the pass after [fetchMessages] returned [messages]. *)
Definition checkFetched (client : WA.Client) (groupId : string)
    (groupInfo : GroupData) (messages : list WA.Message) (w : World)
    : World * GroupData :=
  let '(newMessages, ids) := detectNew messages (previousMessageIds groupInfo) in
  if (0 <? List.length newMessages)%nat || isFirstRun groupInfo then
    let '(w1, processedMessages) :=
      processAll client messages (gd_name groupInfo) groupId w in
    let w2 := saveMessages processedMessages w1 in
    let w3 :=
      if negb (isFirstRun groupInfo)
      then broadcastNew client newMessages (gd_name groupInfo) groupId w2
      else w2 in
    (w3, setMessageState (cleanUp ids) false groupInfo)
  else
    (w, setMessageState (cleanUp ids) (isFirstRun groupInfo) groupInfo).

(** The group object of the pass is the one stored in [monitoredGroups]:
    what the pass assigned to its fields is what the map holds. *)
Definition commit (groupId : string) (groupInfo : GroupData) (w : World)
    : World :=
  with_monitoredGroups (JSMap.mutate groupId (fun _ => groupInfo)) w.

(** [checkMessages(groupId, groupInfo)].  A rejected [getChats] or
    [fetchMessages] lands in the [catch] of the pass, which only logs. *)
Definition checkMessages (client : WA.Client) (now : Z) (groupId : string)
    (groupInfo : GroupData) (w : World) : World :=
  match WA.getChats client with
  | None => w
  | Some chats =>
      match find (fun chat => (WA.chat_id chat =? groupId)%string) chats with
      | None => w
      | Some group =>
          let '(w1, groupInfo1) :=
            checkMembers client now groupId groupInfo group w in
          match WA.fetchMessages group (MESSAGE_LIMIT cfg) with
          | None => commit groupId groupInfo1 w1
          | Some messages =>
              let '(w2, groupInfo2) :=
                checkFetched client groupId groupInfo1 messages w1 in
              commit groupId groupInfo2 w2
          end
      end
  end.

(** What the server finds outside itself during one pass or one request:
    the answers of the chat client, the clock, and [configOk], which is
    false when [POST /api/groups] cannot read or parse config.json or open
    it for writing. *)
Record PassInput : Type := {
  client : WA.Client;
  now : Z;
  configOk : bool }.

(** The pass for the group stored under [groupId], if there is one. *)
Definition pass (inp : PassInput) (groupId : string) (w : World) : World :=
  match JSMap.get groupId (monitoredGroups w) with
  | Some groupInfo => checkMessages (client inp) (now inp) groupId groupInfo w
  | None => w
  end.

(** [checkAllGroups]: one pass per entry of [monitoredGroups], one after
    the other. *)
Definition checkAllGroups (inputs : string -> PassInput) (w : World) : World :=
  fold_left (fun w groupId => pass (inputs groupId) groupId w)
    (JSMap.keys (monitoredGroups w)) w.

(** The handlers of the client's [group_join] and [group_leave] events, which
    differ in the event type only: one event per recipient of the
    notification, when the chat is a monitored group. *)
Definition onGroupNotification (eventType : EventType) (inp : PassInput)
    (chatId : string) (recipientIds : list string) (w : World) : World :=
  match JSMap.get chatId (monitoredGroups w) with
  | Some groupInfo =>
      if DETECT_JOINS_LEAVES cfg then
        fold_left
          (fun w participant =>
             emitEvent
               (createEvent (client inp) (now inp) participant eventType
                  (gd_name groupInfo) chatId) w)
          recipientIds w
      else w
  | None => w
  end.

(** ** [POST /api/groups] *)

Inductive AddGroupResponse : Type :=
| NameRequired                       (* 400 *)
| ClientNotReady                     (* 503 *)
| AlreadyMonitored                   (* 409 *)
| GroupNotFound                      (* 404 *)
| AddFailed                          (* 500 *)
| GroupAdded (group : GroupInfo).    (* 200 *)

(** The handler.  Its [catch] answers 500 for whatever is thrown: a
    rejected [getChats], before anything is written, and a config.json that
    cannot be read, parsed or opened for writing, after the group was put
    in both registries; the file is then as it was, no pass is run and
    nothing is broadcast. *)
Definition addGroup (inp : PassInput) (name : string) (w : World)
    : World * AddGroupResponse :=
  if (JS.trim name =? "")%string then (w, NameRequired)
  else
    let groupName := JS.trim name in
    if negb (isClientReady w) then (w, ClientNotReady)
    else
      match find (fun g => (JS.toLowerCase (gi_name g) =?
                            JS.toLowerCase groupName)%string)
                 (JSMap.values (groupInfoStore w)) with
      | Some existingGroup => (w, AlreadyMonitored)
      | None =>
          match WA.getChats (client inp) with
          | None => (w, AddFailed)
          | Some chats =>
              match find (fun chat =>
                            WA.isGroup chat && JS.truthy (WA.chat_name chat) &&
                            JS.includes (JS.toLowerCase (WA.chat_name chat))
                                        (JS.toLowerCase groupName)) chats with
              | None => (w, GroupNotFound)
              | Some group =>
                  let groupId := WA.chat_id group in
                  let members :=
                    match WA.participants group with
                    | Some ps => ps
                    | None => []
                    end in
                  let groupInfo :=
                    {| gi_id := groupId; gi_name := WA.chat_name group;
                       memberCount := List.length members |} in
                  let groupData :=
                    {| gd_name := WA.chat_name group; gd_id := groupId;
                       previousMessageIds := [];
                       previousMembers := JSSet.of_list members;
                       isFirstRun := true |} in
                  let w1 := with_groupInfoStore (JSMap.set groupId groupInfo) w in
                  let w2 := with_monitoredGroups (JSMap.set groupId groupData) w1 in
                  if negb (configOk inp) then (w2, AddFailed) else
                  let w3 :=
                    with_configGroups
                      (fun gs =>
                         if existsb (String.eqb (WA.chat_name group)) gs
                         then gs else gs ++ [WA.chat_name group]) w2 in
                  let w4 :=
                    checkMessages (client inp) (now inp) groupId groupData w3 in
                  let groupInfo' :=
                    match JSMap.get groupId (groupInfoStore w4) with
                    | Some g => g
                    | None => groupInfo
                    end in
                  (broadcast (EnvGroupAdded groupInfo') w4, GroupAdded groupInfo')
              end
          end
      end.

End Engine.

(** ** The callbacks of the store

    [db.run(sql, params, callback)] hands the statement to the store and
    returns; the callback runs in a later turn of the event loop, so not
    before the code that issued the statement gives up control.  An [async]
    function of the server gives up control where it awaits the chat client;
    an [await] on a function of the server that has itself awaited nothing
    resumes within the same turn.  Every save of an event is a [DELETE]
    whose callback issues the [INSERT], and in [processMessage] the callback
    also broadcasts the event.

    The engine above runs each save to completion at the place where its
    [DELETE] is issued ([Store.saveEvent], [emitEvent]).  This module keeps
    the callbacks apart: the effects of a piece of code are listed in the
    order of the source, and a run says how many of the waiting callbacks
    the event loop serves at each [await]. *)

Module Deferred.

(** The callback of a [DELETE] that was issued: the row it inserts and
    the event it broadcasts, if it broadcasts. *)
Record Callback : Type := {
  row : Evt.row;
  announce : option Event }.

Record State : Type := {
  world : World;
  waiting : list Callback }.      (* in the order in which they were issued *)

Inductive Effect : Type :=
| Await                                        (* an [await] on the chat
                                                  client *)
| Delete (r : Evt.row) (a : option Event)      (* [db.run(DELETE ..., cb)] for
                                                  the event whose row is [r] *)
| Insert (r : Msg.row)                         (* [insertStmt.run(...)] *)
| Send (d : Envelope).                         (* [broadcast(d)] *)

(** The effect takes place: a statement is executed in its turn, a
    callback is put behind those that wait. *)
Definition issue (x : Effect) (s : State) : State :=
  match x with
  | Await => s
  | Delete r a =>
      {| world := with_eventsTable (Store.deleteFor r) (world s);
         waiting := waiting s ++ [{| row := r; announce := a |}] |}
  | Insert r =>
      {| world := with_messagesTable (Store.insertOrReplace r) (world s);
         waiting := waiting s |}
  | Send d => {| world := broadcast d (world s); waiting := waiting s |}
  end.

(** What a callback does. *)
Definition call (c : Callback) (w : World) : World :=
  let w' := with_eventsTable (Store.insertEvent (row c)) w in
  match announce c with
  | Some e => broadcast (EnvEvent e) w'
  | None => w'
  end.

(** The event loop serves the callback that has waited longest. *)
Definition serve (s : State) : State :=
  match waiting s with
  | [] => s
  | c :: rest => {| world := call c (world s); waiting := rest |}
  end.

Fixpoint serveN (n : nat) (s : State) : State :=
  match n with
  | O => s
  | S n' => serveN n' (serve s)
  end.

(** A run of [effects]; [turns] has, for each [Await] in order, the number
    of callbacks served while the code waits. *)
Fixpoint exec (effects : list Effect) (turns : list nat) (s : State) : State :=
  match effects with
  | [] => s
  | Await :: rest =>
      match turns with
      | n :: turns' => exec rest turns' (serveN n s)
      | [] => exec rest [] s
      end
  | x :: rest => exec rest turns (issue x s)
  end.

(** Once the code has finished, the callbacks that still wait are served. *)
Definition settle (s : State) : State :=
  serveN (List.length (waiting s)) s.

Definition start (w : World) : State :=
  {| world := w; waiting := [] |}.

(** The run in which every callback is served as soon as its [DELETE] is
    issued: each save runs to completion. *)
Definition complete (effects : list Effect) (w : World) : World :=
  fold_left
    (fun w x =>
       match x with
       | Await => w
       | Delete r a =>
           call {| row := r; announce := a |}
             (with_eventsTable (Store.deleteFor r) w)
       | Insert r => with_messagesTable (Store.insertOrReplace r) w
       | Send d => broadcast d w
       end)
    effects w.

End Deferred.

(** [processMessage] awaits the chat client once, for the contact of the
    first recipient of a notification or of the author of another message,
    when there is one. *)
Definition awaitsContact (msg : WA.Message) : bool :=
  if isNotification (WA.msg_type msg)
  then match WA.recipientIds msg with [] => false | _ :: _ => true end
  else JS.truthy (WA.author msg).

(** The effects of [processMessage]: the contact is awaited before the
    [DELETE], whose callback inserts the row and broadcasts the event. *)
Definition processMessageEffects (client : WA.Client) (msg : WA.Message)
    (groupName groupId : string) : list Deferred.Effect :=
  (if awaitsContact msg then [Deferred.Await] else []) ++
  match messageEvent client msg groupName groupId with
  | Some e => [Deferred.Delete (eventRow e) (Some e)]
  | None => []
  end.

(** The effects of the part of the pass after [fetchMessages]: every
    fetched message is processed, the processed messages are inserted, and
    when the pass is not the first every new message is processed again
    and broadcast. *)
Definition checkFetchedEffects (client : WA.Client) (groupId : string)
    (groupInfo : GroupData) (messages : list WA.Message)
    : list Deferred.Effect :=
  let '(newMessages, ids) := detectNew messages (previousMessageIds groupInfo) in
  if (0 <? List.length newMessages)%nat || isFirstRun groupInfo then
    flat_map
      (fun msg => processMessageEffects client msg (gd_name groupInfo) groupId)
      messages ++
    flat_map
      (fun msg =>
         match processed client msg (gd_name groupInfo) groupId with
         | Some p => [Deferred.Insert (messageRow p)]
         | None => []
         end) messages ++
    (if negb (isFirstRun groupInfo) then
       flat_map
         (fun msg =>
            processMessageEffects client msg (gd_name groupInfo) groupId ++
            match processed client msg (gd_name groupInfo) groupId with
            | Some p => [Deferred.Send (EnvMessage p)]
            | None => []
            end) newMessages
     else [])
  else [].

(** ** [GET /api/search] *)

Module Search.

(** SQLite's [LIKE]: [%] matches any run of characters, [_] any single
    character, and ASCII letters match without regard to case. *)
Fixpoint like (p s : list ascii) : bool :=
  match p with
  | [] => match s with [] => true | _ => false end
  | c :: p' =>
      if Ascii.eqb c "%" then
        (fix star (s : list ascii) : bool :=
           like p' s || match s with [] => false | _ :: s' => star s' end) s
      else
        match s with
        | [] => false
        | d :: s' =>
            (Ascii.eqb c "_" || Ascii.eqb (JS.lowerChar c) (JS.lowerChar d))
            && like p' s'
        end
  end.

Definition LIKE (value pattern : string) : bool :=
  like (list_ascii_of_string pattern) (list_ascii_of_string value).

(** [ORDER BY timestamp DESC] on the text column: rows with the greater
    timestamp first, rows with equal timestamps in table order. *)
Fixpoint insertDesc (r : Msg.row) (l : list Msg.row) : list Msg.row :=
  match l with
  | [] => [r]
  | x :: l' =>
      if String.leb (Msg.timestamp x) (Msg.timestamp r)
      then r :: l
      else x :: insertDesc r l'
  end.

Definition orderByTimestampDesc (l : list Msg.row) : list Msg.row :=
  fold_right insertDesc [] l.

(** [LIMIT n]: a negative [n] is no limit in SQLite. *)
Definition sqlLimit {A} (n : Z) (l : list A) : list A :=
  if (n <? 0)%Z then l else firstn (Z.to_nat n) l.

(** The [WHERE] clause of either query; a falsy [groupId] searches all
    groups. *)
Definition matches (query groupId : string) (r : Msg.row) : bool :=
  let searchPattern := ("%" ++ query ++ "%")%string in
  (if JS.truthy groupId then (Msg.group_id r =? groupId)%string else true) &&
  (LIKE (Msg.message r) searchPattern || LIKE (Msg.sender r) searchPattern).

Inductive Response : Type :=
| QueryRequired                                     (* 400 *)
| SearchFailed                                      (* 500 *)
| Results (results : list Msg.row) (total : nat) (hasMore : bool).

(** [parseInt(req.query.limit) || 100].  [None] is NaN and [Some n] the
    number [n]; an infinite result (a parameter of more than 308 digits)
    is any [n] beyond the 64-bit range, which the store treats alike. *)
Definition limitOf (parsed : option Z) : Z :=
  match parsed with
  | Some n => if (n =? 0)%Z then 100%Z else n
  | None => 100%Z
  end.

(** What SQLite accepts for the parameter of [LIMIT ?] or [OFFSET ?].  The
    driver binds a number outside the 32-bit range as a double, and SQLite
    takes a double for an integer only strictly between -2^63 and 2^63;
    otherwise the statement fails (SQLITE_MISMATCH) and the callback gets
    the error. *)
Definition integral (n : Z) : bool :=
  ((- 2 ^ 63 <? n) && (n <? 2 ^ 63))%Z.

Definition select (query groupId : string) (limit : Z) (t : list Msg.row)
    : list Msg.row :=
  sqlLimit limit (orderByTimestampDesc (filter (matches query groupId) t)).

Definition search (q groupId : string) (parsedLimit : option Z)
    (t : list Msg.row) : Response :=
  let limit := limitOf parsedLimit in
  if negb (JS.truthy q) then QueryRequired
  else if negb (integral limit) then SearchFailed
  else
    let rows := select q groupId limit t in
    Results rows (List.length rows) (Z.of_nat (List.length rows) =? limit)%Z.

End Search.

(** ** The poll timer and the passes that are executing

    [checkMessages] is called from two places.  One is the loop of
    [checkAllGroups], which the 'ready' handler calls once without awaiting
    it and which [setInterval(checkAllGroups, CHECK_INTERVAL)], installed by
    the same handler when a group is monitored and never cleared, calls on
    every tick.  The other is [POST /api/groups], for the group it has just
    recorded.  A call runs until its first [await] and is then suspended: a
    timer can fire and a request can be served while it is.  The loop
    iterates over [monitoredGroups] itself, so that an entry added while
    the loop is suspended is visited and a deleted one is skipped. *)

Module Scheduler.

(** A call of [checkMessages] that is executing: the group it is for and,
    when the loop of [checkAllGroups] made it, the position in
    [monitoredGroups] of the entry the loop is at; [None] is the pass made
    by [POST /api/groups]. *)
Record Task : Type := {
  current : string;
  cursor : option nat }.

Record State : Type := {
  entries : list (option string);  (* the keys of [monitoredGroups] in the
                                       order of insertion, [None] for an
                                       entry that was deleted *)
  timers : nat;                    (* the intervals installed *)
  tasks : list Task }.

Inductive Action : Type :=
| Register (g : string)          (* [monitoredGroups.set(g, ...)], no pass *)
| Ready                          (* the 'ready' handler, after
                                    [initializeGroups] *)
| Tick                           (* an installed timer fires *)
| PassDone (i : nat)             (* the pass task [i] is in finishes *)
| AddGroup (g : string)          (* [POST /api/groups] records [g] and starts
                                    its pass *)
| RemoveGroup (g : string)       (* [monitoredGroups.delete(g)] *)
| Logout.                        (* [monitoredGroups.clear()] *)

(** What the iterator of the map yields from position [i] on: the first
    entry there or later that is not deleted, with its position. *)
Fixpoint seekFrom (pos i : nat) (es : list (option string))
    : option (nat * string) :=
  match es with
  | [] => None
  | e :: es' =>
      match e with
      | Some g =>
          if (i <=? pos)%nat then Some (pos, g) else seekFrom (S pos) i es'
      | None => seekFrom (S pos) i es'
      end
  end.

Definition seek (i : nat) (es : list (option string)) : option (nat * string) :=
  seekFrom 0 i es.

(** The loop of [checkAllGroups] entering its next iteration, the iterator
    being at position [i]. *)
Definition next (i : nat) (es : list (option string)) : list Task :=
  match seek i es with
  | Some (j, g) => [{| current := g; cursor := Some j |}]
  | None => []
  end.

Definition holds (g : string) (e : option string) : bool :=
  match e with
  | Some g' => (g' =? g)%string
  | None => false
  end.

(** [m.set(g, ...)] on the keys: a new key is appended, a present one keeps
    its place. *)
Definition set (g : string) (es : list (option string))
    : list (option string) :=
  if existsb (holds g) es then es else es ++ [Some g].

(** [m.delete(g)]: the entry is emptied and keeps its position. *)
Definition delete (g : string) (es : list (option string))
    : list (option string) :=
  map (fun e => if holds g e then None else e) es.

(** [m.clear()]. *)
Definition clear (es : list (option string)) : list (option string) :=
  map (fun _ => None) es.

(** [m.size]. *)
Definition size (es : list (option string)) : nat :=
  List.length (filter (fun e => match e with Some _ => true | None => false end)
                 es).

Definition step (a : Action) (s : State) : State :=
  match a with
  | Register g =>
      {| entries := set g (entries s); timers := timers s; tasks := tasks s |}
  | Ready =>
      if (size (entries s) =? 0)%nat then s
      else {| entries := entries s; timers := S (timers s);
              tasks := tasks s ++ next 0 (entries s) |}
  | Tick =>
      if (timers s =? 0)%nat then s
      else {| entries := entries s; timers := timers s;
              tasks := tasks s ++ next 0 (entries s) |}
  | PassDone i =>
      match nth_error (tasks s) i with
      | Some t =>
          {| entries := entries s; timers := timers s;
             tasks := firstn i (tasks s) ++
                      match cursor t with
                      | Some j => next (S j) (entries s)
                      | None => []
                      end ++
                      skipn (S i) (tasks s) |}
      | None => s
      end
  | AddGroup g =>
      {| entries := set g (entries s); timers := timers s;
         tasks := tasks s ++ [{| current := g; cursor := None |}] |}
  | RemoveGroup g =>
      {| entries := delete g (entries s); timers := timers s;
         tasks := tasks s |}
  | Logout =>
      {| entries := clear (entries s); timers := timers s; tasks := tasks s |}
  end.

Definition run (actions : list Action) (s : State) : State :=
  fold_left (fun s a => step a s) actions s.

(** The server when it is started: no group, no timer, no pass. *)
Definition boot : State :=
  {| entries := []; timers := 0; tasks := [] |}.

(** How many passes for [g] are executing. *)
Definition inFlight (g : string) (s : State) : nat :=
  List.length (filter (fun t => (current t =? g)%string) (tasks s)).

(** The actions that call [checkAllGroups]. *)
Definition startsRun (a : Action) : bool :=
  match a with Ready | Tick => true | _ => false end.

Definition runs (actions : list Action) : nat :=
  List.length (filter startsRun actions).

(** The add-group requests for [g]. *)
Definition adds (g : string) (a : Action) : bool :=
  match a with AddGroup g' => (g' =? g)%string | _ => false end.

Definition added (g : string) (actions : list Action) : nat :=
  List.length (filter (adds g) actions).

(** The actions that may start a pass. *)
Definition starts (a : Action) : bool :=
  match a with Ready | Tick | AddGroup _ => true | _ => false end.

(** A schedule in which a pass is only started when none is executing. *)
Fixpoint timely (actions : list Action) (s : State) : bool :=
  match actions with
  | [] => true
  | a :: rest =>
      (if starts a then match tasks s with [] => true | _ :: _ => false end
       else true) && timely rest (step a s)
  end.

End Scheduler.

(** ** Runs of the server *)

Section Runs.

Variable cfg : Config.

(** What reaches the engine: a timer tick, a request to add a group, or a
    join or leave notification pushed by the chat client. *)
Inductive Request : Type :=
| ReqTick (inputs : string -> PassInput)
| ReqAddGroup (inp : PassInput) (name : string)
| ReqGroupJoin (inp : PassInput) (chatId : string) (recipientIds : list string)
| ReqGroupLeave (inp : PassInput) (chatId : string) (recipientIds : list string).

Definition serve (r : Request) (w : World) : World :=
  match r with
  | ReqTick inputs => checkAllGroups cfg inputs w
  | ReqAddGroup inp name => fst (addGroup cfg inp name w)
  | ReqGroupJoin inp chatId recipientIds =>
      onGroupNotification cfg JOIN inp chatId recipientIds w
  | ReqGroupLeave inp chatId recipientIds =>
      onGroupNotification cfg LEAVE inp chatId recipientIds w
  end.

Definition runServer (rs : list Request) (w : World) : World :=
  fold_left (fun w r => serve r w) rs w.

(** Successive passes for one group. *)
Definition runPasses (inps : list PassInput) (groupId : string) (w : World)
    : World :=
  fold_left (fun w inp => pass cfg inp groupId w) inps w.

(** The messages the pass for [groupId] gets from [fetchMessages], if it
    gets that far. *)
Definition fetched (client : WA.Client) (groupId : string)
    : option (list WA.Message) :=
  match WA.getChats client with
  | None => None
  | Some chats =>
      match find (fun chat => (WA.chat_id chat =? groupId)%string) chats with
      | None => None
      | Some group => WA.fetchMessages group (MESSAGE_LIMIT cfg)
      end
  end.

End Runs.

(** ** Start-up, removal and logout *)

(** [initializeGroups]: every configured name is resolved to the first group
    chat whose name contains it, letter case apart, and that chat is put in
    both registries as a group on its first run.  [cacheGroupMembers], called
    for each group found, fills a cache that [processMessage] only logs; it
    has no part in the state.  A rejected [getChats] ends the function
    before any group is recorded. *)
Definition initializeGroups (client : WA.Client) (GROUP_NAMES : list string)
    (w : World) : World :=
  match WA.getChats client with
  | None => w
  | Some chats =>
      fold_left
        (fun w groupName =>
           match find (fun chat =>
                         WA.isGroup chat && JS.truthy (WA.chat_name chat) &&
                         JS.includes (JS.toLowerCase (WA.chat_name chat))
                                     (JS.toLowerCase groupName)) chats with
           | Some group =>
               let members :=
                 match WA.participants group with
                 | Some ps => ps
                 | None => []
                 end in
               with_monitoredGroups
                 (JSMap.set (WA.chat_id group)
                    {| gd_name := WA.chat_name group;
                       gd_id := WA.chat_id group;
                       previousMessageIds := [];
                       previousMembers := JSSet.of_list members;
                       isFirstRun := true |})
                 (with_groupInfoStore
                    (JSMap.set (WA.chat_id group)
                       {| gi_id := WA.chat_id group;
                          gi_name := WA.chat_name group;
                          memberCount := List.length members |}) w)
           | None => w
           end)
        GROUP_NAMES w
  end.

(** [DELETE /api/groups/:groupId], with a config.json that can be read and
    rewritten. *)
Inductive RemoveGroupResponse : Type :=
| NotMonitored                       (* 404 *)
| GroupRemoved (groupId : string).   (* 200 *)

Definition removeGroup (groupId : string) (w : World)
    : World * RemoveGroupResponse :=
  match JSMap.get groupId (groupInfoStore w) with
  | None => (w, NotMonitored)
  | Some groupData =>
      let groupName := gi_name groupData in
      let w1 := with_monitoredGroups (JSMap.delete groupId) w in
      let w2 := with_groupInfoStore (JSMap.delete groupId) w1 in
      (with_configGroups
         (filter (fun g => negb (g =? groupName)%string)) w2,
       GroupRemoved groupId)
  end.

(** [POST /api/auth/logout]: both tables and both registries are emptied,
    config.json lists no group, and the chat client is gone. *)
Definition logout (w : World) : World :=
  {| monitoredGroups := [];
     groupInfoStore := [];
     messagesTable := [];
     eventsTable := [];
     configGroups := [];
     isClientReady := false;
     outbox := outbox w |}.

(** Everything that changes the state of the server. *)
Inductive Operation : Type :=
| OpRequest (r : Request)
| OpInitialize (client : WA.Client) (GROUP_NAMES : list string)
| OpRemoveGroup (groupId : string)
| OpLogout.

Definition perform (cfg : Config) (o : Operation) (w : World) : World :=
  match o with
  | OpRequest r => serve cfg r w
  | OpInitialize client GROUP_NAMES => initializeGroups client GROUP_NAMES w
  | OpRemoveGroup groupId => fst (removeGroup groupId w)
  | OpLogout => logout w
  end.

Definition runOps (cfg : Config) (os : list Operation) (w : World) : World :=
  fold_left (fun w o => perform cfg o w) os w.

(** ** The paginated lists *)

Module Query.

(** [ORDER BY timestamp DESC] on the text column [ts] of any table: rows
    with the greater timestamp first, rows with equal timestamps in table
    order. *)
Fixpoint insertDesc {A} (ts : A -> string) (r : A) (l : list A) : list A :=
  match l with
  | [] => [r]
  | x :: l' =>
      if String.leb (ts x) (ts r) then r :: l else x :: insertDesc ts r l'
  end.

Definition orderDesc {A} (ts : A -> string) (l : list A) : list A :=
  fold_right (insertDesc ts) [] l.

(** [OFFSET n]: a negative [n] skips nothing. *)
Definition sqlOffset {A} (n : Z) (l : list A) : list A :=
  if (n <? 0)%Z then l else skipn (Z.to_nat n) l.

(** [parseInt(req.query.offset) || 0], [None] being NaN. *)
Definition offsetOf (parsed : option Z) : Z :=
  match parsed with
  | Some n => n
  | None => 0%Z
  end.

(** The body of a list response. *)
Record Page (A : Type) : Type := {
  rows : list A;
  total : nat;
  limit : Z;
  offset : Z;
  hasMore : bool }.

Arguments rows {A}.
Arguments total {A}.
Arguments limit {A}.
Arguments offset {A}.
Arguments hasMore {A}.

(** The count query and the [LIMIT ? OFFSET ?] query over the rows
    [selected] by the [WHERE] clause, when both succeed ([answer] below has
    the case in which the second fails). *)
Definition paginate {A} (ts : A -> string) (parsedLimit parsedOffset : option Z)
    (selected : list A) : Page A :=
  let limit := Search.limitOf parsedLimit in
  let offset := offsetOf parsedOffset in
  {| rows := Search.sqlLimit limit (sqlOffset offset (orderDesc ts selected));
     total := List.length selected;
     limit := limit;
     offset := offset;
     hasMore := (offset + limit <? Z.of_nat (List.length selected))%Z |}.

(** What a list endpoint answers.  The count query always succeeds; the
    query of the rows fails when SQLite does not take the limit or the
    offset for an integer, and the error is answered with status 500. *)
Inductive Answer (B : Type) : Type :=
| Failed                 (* 500 *)
| Listed (body : B).     (* 200 *)

Arguments Failed {B}.
Arguments Listed {B} body.

Definition accepted (parsedLimit parsedOffset : option Z) : bool :=
  Search.integral (Search.limitOf parsedLimit) &&
  Search.integral (offsetOf parsedOffset).

Definition answer {B} (parsedLimit parsedOffset : option Z) (body : B)
    : Answer B :=
  if accepted parsedLimit parsedOffset then Listed body else Failed.

(** [s.split(sep)]. *)
Fixpoint split (sep : ascii) (s : string) : list string :=
  match s with
  | EmptyString => [EmptyString]
  | String c s' =>
      if Ascii.eqb c sep then EmptyString :: split sep s'
      else
        match split sep s' with
        | piece :: pieces => String c piece :: pieces
        | [] => [String c EmptyString]
        end
  end.

(** The condition on [date] of [GET /api/events]: a range when the
    parameter holds a comma, one day otherwise. *)
Definition dateCondition (date : string) (r : Evt.row) : bool :=
  if JS.includes date "," then
    let pieces := split "," date in
    let startDate := nth 0 pieces "" in
    let endDate := nth 1 pieces "" in
    String.leb startDate (Evt.date r) && String.leb (Evt.date r) endDate
  else (Evt.date r =? date)%string.

(** The [WHERE] clause built by [GET /api/events]; a falsy parameter adds
    no condition. *)
Definition whereEvents (date memberId : string) (r : Evt.row) : bool :=
  (if JS.truthy date then dateCondition date r else true) &&
  (if JS.truthy memberId then (Evt.member_id r =? memberId)%string else true).

End Query.

(** [groupInfo?.name || 'Unknown']. *)
Definition groupNameOf (groupId : string) (w : World) : string :=
  match JSMap.get groupId (groupInfoStore w) with
  | Some groupInfo => JS.or (gi_name groupInfo) "Unknown"
  | None => "Unknown"
  end.

(** [GET /api/messages]: the page of the answer, when the queries
    succeed. *)
Definition getMessages (parsedLimit parsedOffset : option Z) (w : World)
    : Query.Page Msg.row :=
  Query.paginate Msg.timestamp parsedLimit parsedOffset (messagesTable w).

(** [GET /api/messages/:groupId]: the group name and the page. *)
Definition getGroupMessages (groupId : string)
    (parsedLimit parsedOffset : option Z) (w : World)
    : string * Query.Page Msg.row :=
  (groupNameOf groupId w,
   Query.paginate Msg.timestamp parsedLimit parsedOffset
     (filter (fun r => (Msg.group_id r =? groupId)%string) (messagesTable w))).

(** [GET /api/events]: the page of the answer. *)
Definition getEvents (date memberId : string)
    (parsedLimit parsedOffset : option Z) (w : World) : Query.Page Evt.row :=
  Query.paginate Evt.timestamp parsedLimit parsedOffset
    (filter (Query.whereEvents date memberId) (eventsTable w)).

(** [GET /api/events/:groupId]. *)
Definition getGroupEvents (groupId : string)
    (parsedLimit parsedOffset : option Z) (w : World)
    : string * Query.Page Evt.row :=
  (groupNameOf groupId w,
   Query.paginate Evt.timestamp parsedLimit parsedOffset
     (filter (fun r => (Evt.group_id r =? groupId)%string) (eventsTable w))).

(** The answers of the four list endpoints; that of [GET /api/events]
    has the page and [filters], the two filters as they were sent. *)
Definition messagesResponse (parsedLimit parsedOffset : option Z) (w : World)
    : Query.Answer (Query.Page Msg.row) :=
  Query.answer parsedLimit parsedOffset
    (getMessages parsedLimit parsedOffset w).

Definition groupMessagesResponse (groupId : string)
    (parsedLimit parsedOffset : option Z) (w : World)
    : Query.Answer (string * Query.Page Msg.row) :=
  Query.answer parsedLimit parsedOffset
    (getGroupMessages groupId parsedLimit parsedOffset w).

Definition eventsResponse (date memberId : string)
    (parsedLimit parsedOffset : option Z) (w : World)
    : Query.Answer (Query.Page Evt.row * (string * string)) :=
  Query.answer parsedLimit parsedOffset
    (getEvents date memberId parsedLimit parsedOffset w, (date, memberId)).

Definition groupEventsResponse (groupId : string)
    (parsedLimit parsedOffset : option Z) (w : World)
    : Query.Answer (string * Query.Page Evt.row) :=
  Query.answer parsedLimit parsedOffset
    (getGroupEvents groupId parsedLimit parsedOffset w).

(** [GET /api/groups]: the groups and their count. *)
Definition getGroups (w : World) : list GroupInfo * nat :=
  (JSMap.values (groupInfoStore w), List.length (JSMap.values (groupInfoStore w))).

(** ** [GET /api/stats] *)

Module Stats.

Record SenderCount : Type := {
  name : string;
  count : nat }.

Definition countOf (sender : string) (rows : list Msg.row) : nat :=
  List.length (filter (fun r => (Msg.sender r =? sender)%string) rows).

(** [GROUP BY sender] with [COUNT( * )]: one row per sender. *)
Definition groupBySender (rows : list Msg.row) : list SenderCount :=
  map (fun s => {| name := s; count := countOf s rows |})
    (JSSet.of_list (map Msg.sender rows)).

(** [ORDER BY count DESC]. *)
Fixpoint insertByCount (x : SenderCount) (l : list SenderCount)
    : list SenderCount :=
  match l with
  | [] => [x]
  | y :: l' =>
      if (count y <=? count x)%nat then x :: l else y :: insertByCount x l'
  end.

Definition orderByCountDesc (l : list SenderCount) : list SenderCount :=
  fold_right insertByCount [] l.

(** The top-senders query of one group. *)
Definition topSenders (groupId : string) (t : list Msg.row)
    : list SenderCount :=
  firstn 5
    (orderByCountDesc
       (groupBySender
          (filter (fun r => (Msg.group_id r =? groupId)%string) t))).

Record GroupStats : Type := {
  gs_id : string;
  gs_name : string;
  gs_messageCount : nat;
  gs_eventCount : nat;
  gs_memberCount : nat;
  gs_topSenders : list SenderCount }.

Record Response : Type := {
  groups : list GroupStats;
  totalMessages : nat;
  totalEvents : nat }.

(** The entry pushed for one group of [groupInfoStore]. *)
Definition groupStats (w : World) (entry : string * GroupInfo) : GroupStats :=
  let '(groupId, groupInfo) := entry in
  {| gs_id := groupId;
     gs_name := gi_name groupInfo;
     gs_messageCount :=
       List.length
         (filter (fun r => (Msg.group_id r =? groupId)%string) (messagesTable w));
     gs_eventCount :=
       List.length
         (filter (fun r => (Evt.group_id r =? groupId)%string) (eventsTable w));
     gs_memberCount := memberCount groupInfo;
     gs_topSenders := topSenders groupId (messagesTable w) |}.

(** The [stats] object; the entries of the groups are listed in the order
    of [groupInfoStore]. *)
Definition stats (w : World) : Response :=
  {| groups := map (groupStats w) (groupInfoStore w);
     totalMessages := List.length (messagesTable w);
     totalEvents := List.length (eventsTable w) |}.

End Stats.

(** ** Vocabulary of the statements *)

(** What was broadcast between two states of which the second extends the
    outbox of the first. *)
Definition emitted (w w' : World) : list Envelope :=
  skipn (List.length (outbox w)) (outbox w').

Definition eventsOf (l : list Envelope) : list Event :=
  flat_map (fun d => match d with EnvEvent e => [e] | _ => [] end) l.

Definition isEventFor (ty : EventType) (memberId : string) (e : Event) : bool :=
  EventType_eqb (ev_type e) ty && (ev_memberId e =? memberId)%string.

(** Number of events of type [ty] for [memberId] among [l]. *)
Definition countEvents (ty : EventType) (memberId : string) (l : list Event)
    : nat :=
  List.length (filter (isEventFor ty memberId) l).

Definition isMembershipEvent (e : Event) : bool :=
  match ev_type e with CERTIFICATE => false | _ => true end.

(** The values [processMessage] returns over a list of messages. *)
Definition processedList (client : WA.Client) (messages : list WA.Message)
    (groupName groupId : string) : list Processed :=
  flat_map (fun msg => match processed client msg groupName groupId with
                       | Some p => [p]
                       | None => []
                       end) messages.

(** The events [processMessage] emits over a list of messages. *)
Definition messageEvents (client : WA.Client) (messages : list WA.Message)
    (groupName groupId : string) : list Event :=
  flat_map (fun msg => match messageEvent client msg groupName groupId with
                       | Some e => [e]
                       | None => []
                       end) messages.

(** The JOIN events of the membership diff, in the order of the loop. *)
Definition joinEvents (client : WA.Client) (now : Z) (groupId : string)
    (groupInfo : GroupData) (currentMembers : JSSet.t) : list Event :=
  map (fun memberId =>
         createEvent client now memberId JOIN (gd_name groupInfo) groupId)
    (filter (fun memberId =>
               negb (JSSet.has memberId (previousMembers groupInfo)) &&
               negb (isFirstRun groupInfo)) currentMembers).

(** The LEAVE events of the membership diff, in the order of the loop. *)
Definition leaveEvents (client : WA.Client) (now : Z) (groupId : string)
    (groupInfo : GroupData) (currentMembers : JSSet.t) : list Event :=
  map (fun memberId =>
         createEvent client now memberId LEAVE (gd_name groupInfo) groupId)
    (filter (fun memberId =>
               negb (JSSet.has memberId currentMembers) &&
               negb (isFirstRun groupInfo)) (previousMembers groupInfo)).

(** What the second processing of the new messages broadcasts. *)
Definition newEnvelopes (client : WA.Client) (newMessages : list WA.Message)
    (groupName groupId : string) : list Envelope :=
  flat_map
    (fun msg =>
       match messageEvent client msg groupName groupId with
       | Some e => [EnvEvent e]
       | None => []
       end ++
       match processed client msg groupName groupId with
       | Some p => [EnvMessage p]
       | None => []
       end) newMessages.

(** The state after the effects of [processMessage] over a list of
    messages. *)
Definition processEffects (client : WA.Client) (messages : list WA.Message)
    (groupName groupId : string) (w : World) : World :=
  fold_left (fun w msg => fst (processMessage client msg groupName groupId w))
    messages w.

(** The events of the membership diff of a pass that found [group]. *)
Definition diffEvents (cfg : Config) (client : WA.Client) (now : Z)
    (groupId : string) (groupInfo : GroupData) (group : WA.Chat) : list Event :=
  match WA.participants group with
  | Some ps =>
      if DETECT_JOINS_LEAVES cfg then
        joinEvents client now groupId groupInfo (JSSet.of_list ps) ++
        leaveEvents client now groupId groupInfo (JSSet.of_list ps)
      else []
  | None => []
  end.

(** What the message stage broadcasts once [messages] are fetched. *)
Definition fetchedEnvelopes (client : WA.Client) (groupId : string)
    (groupInfo : GroupData) (messages : list WA.Message) : list Envelope :=
  let newMessages := fst (detectNew messages (previousMessageIds groupInfo)) in
  if (0 <? List.length newMessages)%nat || isFirstRun groupInfo then
    map EnvEvent (messageEvents client messages (gd_name groupInfo) groupId) ++
    (if negb (isFirstRun groupInfo)
     then newEnvelopes client newMessages (gd_name groupInfo) groupId
     else [])
  else [].

(** The group object as the pass for it leaves it. *)
Definition groupAfter (cfg : Config) (client : WA.Client) (groupId : string)
    (groupInfo : GroupData) : GroupData :=
  match WA.getChats client with
  | None => groupInfo
  | Some chats =>
      match find (fun chat => (WA.chat_id chat =? groupId)%string) chats with
      | None => groupInfo
      | Some group =>
          let g1 :=
            match WA.participants group with
            | Some ps =>
                if DETECT_JOINS_LEAVES cfg
                then setPreviousMembers (JSSet.of_list ps) groupInfo
                else groupInfo
            | None => groupInfo
            end in
          match WA.fetchMessages group (MESSAGE_LIMIT cfg) with
          | None => g1
          | Some messages =>
              setMessageState
                (cleanUp (snd (detectNew messages (previousMessageIds g1))))
                false g1
          end
      end
  end.

(** [a] may stand before [b] in a result sorted by timestamp descending. *)
Definition newerFirst (a b : Msg.row) : Prop :=
  String.leb (Msg.timestamp b) (Msg.timestamp a) = true.

(** The ids of a fetch, in order. *)
Definition idsOf (messages : list WA.Message) : list string :=
  map WA.msg_id messages.

(** The window and the insertion log over successive fetches: the log
    records every id at the time it is added to the window. *)
Definition windowStep (acc : JSSet.t * list string)
    (messages : list WA.Message) : JSSet.t * list string :=
  let '(newMessages, ids) := detectNew messages (fst acc) in
  (cleanUp ids, snd acc ++ idsOf newMessages).

Definition windowRun (fetches : list (list WA.Message))
    (acc : JSSet.t * list string) : JSSet.t * list string :=
  fold_left windowStep fetches acc.

(** The fetches of successive passes for one group, failed passes left
    out. *)
Definition fetchesOf (cfg : Config) (inps : list PassInput) (groupId : string)
    : list (list WA.Message) :=
  flat_map (fun inp => match fetched cfg (client inp) groupId with
                       | Some messages => [messages]
                       | None => []
                       end) inps.

(** All ids fetched, in order, with repetitions. *)
Definition observed (fetches : list (list WA.Message)) : list string :=
  List.concat (map idsOf fetches).

(** Distinct ids in the order of their first observation. *)
Definition firstObserved (ids : list string) : list string :=
  JSSet.of_list ids.


(** The passes made by a loop of [checkAllGroups], and the passes made for
    [g] by an add-group request. *)
Definition byLoop (t : Scheduler.Task) : bool :=
  match Scheduler.cursor t with Some _ => true | None => false end.

Definition byRequest (g : string) (t : Scheduler.Task) : bool :=
  negb (byLoop t) && (Scheduler.current t =? g)%string.

(** The [DELETE] issued for the event row [e] removes the row [x]. *)
Definition removes (e x : Evt.row) : bool :=
  (Evt.group_id x =? Evt.group_id e)%string &&
  (Evt.member_id x =? Evt.member_id e)%string &&
  EventType_eqb (Evt.type x) (Evt.type e) &&
  match Evt.type e with
  | CERTIFICATE => (Evt.date x =? Evt.date e)%string
  | _ => true
  end.


Definition descending {A} (ts : A -> string) (a b : A) : Prop :=
  String.leb (ts b) (ts a) = true.

(** The entries recorded for a chat that has just been resolved. *)
Definition membersOf (group : WA.Chat) : list string :=
  match WA.participants group with
  | Some ps => ps
  | None => []
  end.

Definition freshData (group : WA.Chat) : GroupData :=
  {| gd_name := WA.chat_name group; gd_id := WA.chat_id group;
     previousMessageIds := [];
     previousMembers := JSSet.of_list (membersOf group);
     isFirstRun := true |}.

Definition freshInfo (group : WA.Chat) : GroupInfo :=
  {| gi_id := WA.chat_id group; gi_name := WA.chat_name group;
     memberCount := List.length (membersOf group) |}.

(** The chat a name resolves to. *)
Definition resolve (groupName : string) (chats : list WA.Chat)
    : option WA.Chat :=
  find (fun chat =>
          WA.isGroup chat && JS.truthy (WA.chat_name chat) &&
          JS.includes (JS.toLowerCase (WA.chat_name chat))
                      (JS.toLowerCase groupName)) chats.

(** Every chat the client lists has a name of ASCII characters. *)
Definition asciiChats (client : WA.Client) : Prop :=
  forall chats chat,
    WA.getChats client = Some chats -> In chat chats ->
    JS.isAscii (WA.chat_name chat) = true.

(** Every monitored group has a name of ASCII characters. *)
Definition asciiGroups (w : World) : Prop :=
  forall g, In g (JSMap.values (groupInfoStore w)) ->
            JS.isAscii (gi_name g) = true.

(** The state of [POST /api/groups] right before the immediate pass. *)
Definition recorded (group : WA.Chat) (w : World) : World :=
  with_configGroups
    (fun gs =>
       if existsb (String.eqb (WA.chat_name group)) gs
       then gs else gs ++ [WA.chat_name group])
    (with_monitoredGroups (JSMap.set (WA.chat_id group) (freshData group))
       (with_groupInfoStore (JSMap.set (WA.chat_id group) (freshInfo group)) w)).

(** Two entries of the registries that describe the same group. *)
Definition sameGroup (a : string * GroupData) (b : string * GroupInfo) : Prop :=
  fst a = fst b /\ gd_id (snd a) = fst a /\ gi_id (snd b) = fst a /\
  gd_name (snd a) = gi_name (snd b).

Definition RegistriesAgree (w : World) : Prop :=
  Forall2 sameGroup (monitoredGroups w) (groupInfoStore w) /\
  NoDup (JSMap.keys (monitoredGroups w)).

(** One iteration of the loop of [initializeGroups]. *)
Definition initializeOne (chats : list WA.Chat) (w : World) (groupName : string)
    : World :=
  match resolve groupName chats with
  | Some group =>
      with_monitoredGroups (JSMap.set (WA.chat_id group) (freshData group))
        (with_groupInfoStore (JSMap.set (WA.chat_id group) (freshInfo group)) w)
  | None => w
  end.

(** The rows of one member of one group with one event type, whatever
    their date. *)
Definition membershipRows (g m : string) (ty : EventType) (t : list Evt.row)
    : list Evt.row :=
  filter (fun x => (Evt.group_id x =? g)%string &&
                   (Evt.member_id x =? m)%string &&
                   EventType_eqb (Evt.type x) ty) t.

(** At most one JOIN row and one LEAVE row per member of a group. *)
Definition MembershipUnique (t : list Evt.row) : Prop :=
  forall g m ty, ty <> CERTIFICATE ->
                 List.length (membershipRows g m ty t) <= 1.

(** [a] may stand before [b] in a result sorted by count descending. *)
Definition moreFirst (a b : Stats.SenderCount) : Prop :=
  Stats.count b <= Stats.count a.

(** A query without the wildcards of [LIKE]. *)
Definition plainQuery (q : string) : Prop :=
  forall c, In c (list_ascii_of_string q) -> c <> "%"%char /\ c <> "_"%char.

(** ** Sample data *)

Module Sample.

Definition noContact : string -> option WA.Contact := fun _ => None.

(** A text message. *)
Definition text (id : string) (seconds : Z) (author body : string)
    : WA.Message :=
  {| WA.msg_id := id; WA.msg_timestamp := seconds; WA.author := author;
     WA.body := body; WA.hasMedia := false; WA.msg_type := "chat";
     WA.subtype := ""; WA.recipientIds := []; WA.getContact := None |}.

(** A voice recording. *)
Definition voiceNote (id : string) (seconds : Z) (author : string)
    : WA.Message :=
  {| WA.msg_id := id; WA.msg_timestamp := seconds; WA.author := author;
     WA.body := ""; WA.hasMedia := true; WA.msg_type := "ptt";
     WA.subtype := ""; WA.recipientIds := []; WA.getContact := None |}.

(** The notification WhatsApp puts in the chat when [member] is added. *)
Definition addNotice (id : string) (seconds : Z) (member : string)
    : WA.Message :=
  {| WA.msg_id := id; WA.msg_timestamp := seconds; WA.author := "";
     WA.body := ""; WA.hasMedia := false; WA.msg_type := "notification";
     WA.subtype := "add"; WA.recipientIds := [member];
     WA.getContact := None |}.

Definition groupId : string := "1203630@g.us".

(** The group "Cairo Team" with the given members and chat history;
    [fetchMessages] returns the most recent messages. *)
Definition cairoTeam (members : list string) (history : list WA.Message)
    : WA.Chat :=
  {| WA.chat_id := groupId; WA.chat_name := "Cairo Team"; WA.isGroup := true;
     WA.participants := Some members;
     WA.fetchMessages := fun limit => Some (JS.sliceLast limit history) |}.

Definition clock : Z := 1700000000000%Z.

Definition input (members : list string) (history : list WA.Message)
    : PassInput :=
  {| client := {| WA.getChats := Some [cairoTeam members history];
                  WA.getContactById := noContact |};
     now := clock; configOk := true |}.


(** The same answers when config.json cannot be read. *)
Definition inputConfigFails (members : list string)
    (history : list WA.Message) : PassInput :=
  {| client := client (input members history); now := clock;
     configOk := false |}.

(** The same group when [fetchMessages] rejects. *)
Definition inputFetchFails (members : list string) : PassInput :=
  {| client :=
       {| WA.getChats :=
            Some [{| WA.chat_id := groupId; WA.chat_name := "Cairo Team";
                     WA.isGroup := true; WA.participants := Some members;
                     WA.fetchMessages := fun _ => None |}];
          WA.getContactById := noContact |};
     now := clock; configOk := true |}.

Definition A : string := "201000000001@c.us".
Definition B : string := "201000000002@c.us".
Definition C : string := "201000000003@c.us".
Definition D : string := "201000000004@c.us".

(** The group as [POST /api/groups] records it, before its first pass. *)
Definition newGroup (members : list string) : GroupData :=
  {| gd_name := "Cairo Team"; gd_id := groupId;
     previousMessageIds := [];
     previousMembers := JSSet.of_list members;
     isFirstRun := true |}.

(** The group in steady state. *)
Definition steadyGroup (members window : list string) : GroupData :=
  {| gd_name := "Cairo Team"; gd_id := groupId;
     previousMessageIds := window;
     previousMembers := JSSet.of_list members;
     isFirstRun := false |}.

(** A server that monitors this one group, with empty tables. *)
Definition monitoring (g : GroupData) : World :=
  {| monitoredGroups := [(groupId, g)];
     groupInfoStore :=
       [(groupId, {| gi_id := groupId; gi_name := "Cairo Team";
                     memberCount := List.length (previousMembers g) |})];
     messagesTable := [];
     eventsTable := [];
     configGroups := ["Cairo Team"];
     isClientReady := true;
     outbox := [] |}.

(** A second group, and a tick during which the chat client fails for
    the first group and answers for the second. *)
Definition otherId : string := "1203631@g.us".

Definition gizaRunners (history : list WA.Message) : WA.Chat :=
  {| WA.chat_id := otherId; WA.chat_name := "Giza Runners";
     WA.isGroup := true; WA.participants := Some [A];
     WA.fetchMessages := fun limit => Some (JS.sliceLast limit history) |}.

Definition offline : PassInput :=
  {| client := {| WA.getChats := None; WA.getContactById := noContact |};
     now := clock; configOk := true |}.

Definition tickInputs (history : list WA.Message) (g : string) : PassInput :=
  if (g =? otherId)%string
  then {| client := {| WA.getChats := Some [gizaRunners history];
                       WA.getContactById := noContact |};
          now := clock; configOk := true |}
  else offline.

Definition otherGroup (window : list string) : GroupData :=
  {| gd_name := "Giza Runners"; gd_id := otherId;
     previousMessageIds := window;
     previousMembers := [A];
     isFirstRun := false |}.

Definition twoGroups : World :=
  {| monitoredGroups :=
       [(groupId, steadyGroup [A; B; C] []); (otherId, otherGroup ["3EB0B1"])];
     groupInfoStore :=
       [(groupId, {| gi_id := groupId; gi_name := "Cairo Team";
                     memberCount := 3 |});
        (otherId, {| gi_id := otherId; gi_name := "Giza Runners";
                     memberCount := 1 |})];
     messagesTable := [];
     eventsTable := [];
     configGroups := ["Cairo Team"; "Giza Runners"];
     isClientReady := true;
     outbox := [] |}.

(** Numbered messages, one a minute. *)
Definition idOf (n : nat) : string :=
  ("3EB0" ++ NilEmpty.string_of_uint (Nat.to_uint n))%string.

Definition numbered (n : nat) : WA.Message :=
  text (idOf n) (1699990000 + 60 * Z.of_nat n) A "on my way".

Definition historyTo (n : nat) : list WA.Message := map numbered (seq 1 n).

(** A configuration that fetches the last 120 messages on every pass. *)
Definition wideConfig : Config :=
  {| MESSAGE_LIMIT := 120; DETECT_JOINS_LEAVES := true |}.

Definition joinRow (timestamp : string) : Evt.row :=
  {| Evt.group_id := groupId; Evt.group_name := "Cairo Team";
     Evt.member_id := D; Evt.member_name := "Dina"; Evt.type := JOIN;
     Evt.timestamp := timestamp; Evt.date := JS.first10 timestamp |}.

Definition messageRow (id body timestamp : string) : Msg.row :=
  {| Msg.id := id; Msg.group_id := groupId; Msg.group_name := "Cairo Team";
     Msg.sender := "Dina"; Msg.sender_id := D; Msg.message := body;
     Msg.timestamp := timestamp |}.

(** Three stored messages for the search examples. *)
Definition stored : list Msg.row :=
  [messageRow "3EB0A1" "on my way" "2025-03-01T08:00:00.000Z";
   messageRow "3EB0A2" "see you at the gate" "2025-03-01T08:05:00.000Z";
   messageRow "3EB0A3" "on the bus" "2025-03-01T08:10:00.000Z"].

Definition leaveRow (timestamp : string) : Evt.row :=
  {| Evt.group_id := groupId; Evt.group_name := "Cairo Team";
     Evt.member_id := B; Evt.member_name := "Basma"; Evt.type := LEAVE;
     Evt.timestamp := timestamp; Evt.date := JS.first10 timestamp |}.

(** A server that has been running: the three stored messages and two
    events of the monitored group. *)
Definition archive : World :=
  {| monitoredGroups := [(groupId, steadyGroup [A; C; D] ["3EB0A3"])];
     groupInfoStore :=
       [(groupId, {| gi_id := groupId; gi_name := "Cairo Team";
                     memberCount := 3 |})];
     messagesTable := stored;
     eventsTable := [joinRow "2025-03-01T08:00:00.000Z";
                     leaveRow "2025-03-05T09:30:00.000Z"];
     configGroups := ["Cairo Team"];
     isClientReady := true;
     outbox := [] |}.

End Sample.

(** * Verification *)

(** ** Sets, maps and tables *)

Lemma EventType_eqb_eq (a b : EventType) : EventType_eqb a b = true <-> a = b.
Proof. destruct a, b; simpl; split; congruence. Qed.

Lemma key_eqb_eq (a b : Evt.key) : Evt.key_eqb a b = true <-> a = b.
Proof.
  destruct a as [[[g1 m1] t1] d1], b as [[[g2 m2] t2] d2]; simpl.
  rewrite !andb_true_iff, !String.eqb_eq, EventType_eqb_eq.
  split.
  - intros [[[-> ->] ->] ->]; reflexivity.
  - intros H; inversion H; auto.
Qed.

Lemma has_In (x : string) (s : JSSet.t) : JSSet.has x s = true <-> In x s.
Proof.
  unfold JSSet.has. rewrite existsb_exists. split.
  - intros (y & Hy & E). apply String.eqb_eq in E. now subst.
  - intros H. exists x. split; [assumption | apply String.eqb_refl].
Qed.

Lemma has_notIn (x : string) (s : JSSet.t) : JSSet.has x s = false <-> ~ In x s.
Proof.
  rewrite <- has_In. destruct (JSSet.has x s); split; congruence.
Qed.

Lemma add_In (x y : string) (s : JSSet.t) :
  In y (JSSet.add x s) <-> In y s \/ y = x.
Proof.
  unfold JSSet.add. destruct (JSSet.has x s) eqn:E.
  - apply has_In in E. split; [auto | intros [H | ->]; assumption].
  - rewrite in_app_iff. simpl. intuition.
Qed.

Lemma add_NoDup (x : string) (s : JSSet.t) : NoDup s -> NoDup (JSSet.add x s).
Proof.
  intros H. unfold JSSet.add. destruct (JSSet.has x s) eqn:E; [assumption|].
  apply has_notIn in E.
  apply NoDup_app; [assumption | repeat constructor; intros [] | ].
  intros y Hy [<- | []]. contradiction.
Qed.

Lemma of_list_acc (l : list string) (acc : JSSet.t) :
  NoDup acc ->
  NoDup (fold_left (fun s x => JSSet.add x s) l acc) /\
  forall y, In y (fold_left (fun s x => JSSet.add x s) l acc) <-> In y acc \/ In y l.
Proof.
  revert acc. induction l as [|x l IH]; intros acc Hacc; simpl.
  - split; [assumption | intuition].
  - destruct (IH (JSSet.add x acc) (add_NoDup x acc Hacc)) as [Hnd Hin].
    split; [assumption|]. intros y. rewrite Hin, add_In. intuition.
Qed.

Lemma of_list_NoDup (l : list string) : NoDup (JSSet.of_list l).
Proof. apply (of_list_acc l []). constructor. Qed.

Lemma of_list_In (l : list string) (y : string) :
  In y (JSSet.of_list l) <-> In y l.
Proof.
  unfold JSSet.of_list.
  destruct (of_list_acc l [] (NoDup_nil _)) as [_ H]. rewrite H. simpl. intuition.
Qed.

Lemma filter_length_sub {A} (f g : A -> bool) (l : list A) :
  List.length (filter f (filter g l)) <= List.length (filter f l).
Proof.
  induction l as [|a l IH]; simpl; [lia|].
  destruct (g a); simpl; destruct (f a); simpl; lia.
Qed.

Lemma rowsOfKey_app (k : Evt.key) (t u : list Evt.row) :
  Store.rowsOfKey k (t ++ u) = Store.rowsOfKey k t ++ Store.rowsOfKey k u.
Proof. apply filter_app. Qed.

Lemma filter_none {A} (f : A -> bool) (l : list A) :
  (forall x, In x l -> f x = false) -> filter f l = [].
Proof.
  induction l as [|a l IH]; simpl; intros H; [reflexivity|].
  rewrite (H a (or_introl eq_refl)). apply IH. intros x Hx. apply H. now right.
Qed.

(** Both deletions remove every row that has the key of the new row. *)
Lemma delete_clears_key (r : Evt.row) (t : list Evt.row) :
  Store.rowsOfKey (Evt.key_of r)
    (match Evt.type r with
     | CERTIFICATE =>
         Store.deleteCertificate (Evt.group_id r) (Evt.member_id r) (Evt.date r) t
     | ty => Store.deleteMemberType (Evt.group_id r) (Evt.member_id r) ty t
     end) = [].
Proof.
  apply filter_none. intros x Hx.
  destruct (Evt.key_eqb (Evt.key_of x) (Evt.key_of r)) eqn:E; [|reflexivity].
  exfalso. apply key_eqb_eq in E. unfold Evt.key_of in E. inversion E as [[Hg Hm Ht Hd]].
  destruct (Evt.type r) eqn:Ty;
    unfold Store.deleteMemberType, Store.deleteCertificate in Hx;
    apply filter_In in Hx; destruct Hx as [_ Hx];
    rewrite Hg, Hm, Ht, ?Hd, !String.eqb_refl in Hx; simpl in Hx; discriminate.
Qed.

Lemma saveEvent_unfold (r : Evt.row) (t : list Evt.row) :
  Store.saveEvent r t =
  (match Evt.type r with
   | CERTIFICATE =>
       Store.deleteCertificate (Evt.group_id r) (Evt.member_id r) (Evt.date r) t
   | ty => Store.deleteMemberType (Evt.group_id r) (Evt.member_id r) ty t
   end) ++ [r].
Proof. unfold Store.saveEvent, Store.insertEvent. now destruct (Evt.type r). Qed.

Lemma saveEvent_own_key (r : Evt.row) (t : list Evt.row) :
  Store.rowsOfKey (Evt.key_of r) (Store.saveEvent r t) = [r].
Proof.
  assert (Hk : Evt.key_eqb (Evt.key_of r) (Evt.key_of r) = true)
    by now apply key_eqb_eq.
  rewrite saveEvent_unfold, rowsOfKey_app, delete_clears_key.
  unfold Store.rowsOfKey. cbn [filter app]. now rewrite Hk.
Qed.




(** [INSERT OR REPLACE] leaves exactly the new row under its id. *)
Lemma insertOrReplace_own_id (r : Msg.row) (t : list Msg.row) :
  filter (fun x => (Msg.id x =? Msg.id r)%string) (Store.insertOrReplace r t) = [r].
Proof.
  unfold Store.insertOrReplace. rewrite filter_app. simpl.
  rewrite String.eqb_refl.
  rewrite filter_none; [reflexivity|].
  intros x Hx. apply filter_In in Hx. destruct Hx as [_ Hx].
  now destruct (Msg.id x =? Msg.id r)%string.
Qed.

Lemma NoDup_map_filter {X Y} (key : X -> Y) (keep : X -> bool) (rows : list X) :
  NoDup (map key rows) -> NoDup (map key (filter keep rows)).
Proof.
  induction rows as [|a rows IH]; simpl; intros H; [constructor|].
  inversion H as [|? ? Hn Hl]; subst.
  destruct (keep a); simpl; [|now apply IH].
  constructor; [|now apply IH].
  intros Hin. apply Hn. apply in_map_iff in Hin. destruct Hin as (x & E & Hx).
  apply filter_In in Hx. apply in_map_iff. exists x. tauto.
Qed.

Lemma insertOrReplace_NoDup (r : Msg.row) (t : list Msg.row) :
  NoDup (map Msg.id t) -> NoDup (map Msg.id (Store.insertOrReplace r t)).
Proof.
  intros H. unfold Store.insertOrReplace. rewrite map_app. simpl.
  apply NoDup_app.
  - now apply NoDup_map_filter.
  - repeat constructor. intros [].
  - intros i Hi [<- | []]. apply in_map_iff in Hi. destruct Hi as (x & E & Hx).
    apply filter_In in Hx. destruct Hx as [_ Hx].
    rewrite E, String.eqb_refl in Hx. discriminate.
Qed.

(** Replacing a stored id keeps the number of rows. *)
Lemma insertOrReplace_length (r : Msg.row) (t : list Msg.row) :
  NoDup (map Msg.id t) -> In (Msg.id r) (map Msg.id t) ->
  List.length (Store.insertOrReplace r t) = List.length t.
Proof.
  unfold Store.insertOrReplace. rewrite length_app. simpl.
  induction t as [|a t IH]; simpl; intros Hnd Hin; [contradiction|].
  inversion Hnd as [|? ? Hn Hl]; subst.
  destruct (Msg.id a =? Msg.id r)%string eqn:E; simpl.
  - apply String.eqb_eq in E.
    assert (Hf : filter (fun x => negb (Msg.id x =? Msg.id r)%string) t = t).
    { apply forallb_filter_id. apply forallb_forall. intros x Hx.
      destruct (Msg.id x =? Msg.id r)%string eqn:E'; [|reflexivity].
      apply String.eqb_eq in E'. exfalso. apply Hn. rewrite E, <- E'.
      now apply in_map. }
    rewrite Hf. lia.
  - destruct Hin as [Hin | Hin].
    + apply String.eqb_neq in E. congruence.
    + specialize (IH Hl Hin). lia.
Qed.

(** ** Properties kept by every step of the engine *)

(** A step of the engine that does not touch the field a property speaks
    of: the property of the state before is the one asked of the state
    after, once the state record is opened. *)
Ltac untouched :=
  intros;
  match goal with
  | w : World |- _ => destruct w; assumption
  end.

Lemma fold_left_invariant {A B} (I : A -> Prop) (f : A -> B -> A) (l : list B) :
  (forall a b, In b l -> I a -> I (f a b)) ->
  forall a, I a -> I (fold_left f l a).
Proof.
  induction l as [|b l IH]; simpl; intros Hf a Ha; [assumption|].
  apply IH; [intros; apply Hf; auto | apply Hf; auto].
Qed.

Lemma saveMessages_fold (ps : list Processed) (w : World) :
  saveMessages ps w =
  fold_left (fun w p => with_messagesTable (Store.insertOrReplace (messageRow p)) w)
    ps w.
Proof.
  revert w. induction ps as [|p ps IH]; intros w.
  - now destruct w.
  - simpl. rewrite <- IH. now destruct w.
Qed.

Section PassPreserves.

Variable cfg : Config.
Variable P : World -> Prop.
Variable Q : string -> Prop.

Hypothesis P_save : forall r w, P w -> P (with_eventsTable (Store.saveEvent r) w).
Hypothesis P_broadcast : forall d w, P w -> P (broadcast d w).
Hypothesis P_insert :
  forall r w, P w -> P (with_messagesTable (Store.insertOrReplace r) w).
Hypothesis P_group :
  forall g f w, Q g -> P w -> P (with_monitoredGroups (JSMap.mutate g f) w).
Hypothesis P_info :
  forall g f w, Q g -> P w -> P (with_groupInfoStore (JSMap.mutate g f) w).

Lemma emitEvent_preserves e w : P w -> P (emitEvent e w).
Proof. intros H. unfold emitEvent. auto. Qed.

Lemma processMessage_preserves client msg groupName groupId w :
  P w -> P (fst (processMessage client msg groupName groupId w)).
Proof.
  intros H. unfold processMessage. simpl.
  destruct (messageEvent client msg groupName groupId);
    auto using emitEvent_preserves.
Qed.

Lemma detectJoins_preserves client now groupId groupInfo current w :
  P w -> P (detectJoins client now groupId groupInfo current w).
Proof.
  unfold detectJoins. apply fold_left_invariant. intros a b _ Ha.
  destruct (_ && _); auto using emitEvent_preserves.
Qed.

Lemma detectLeaves_preserves client now groupId groupInfo current w :
  P w -> P (detectLeaves client now groupId groupInfo current w).
Proof.
  unfold detectLeaves. apply fold_left_invariant. intros a b _ Ha.
  destruct (_ && _); auto using emitEvent_preserves.
Qed.

Lemma checkMembers_preserves client now groupId groupInfo group w :
  Q groupId -> P w ->
  P (fst (checkMembers cfg client now groupId groupInfo group w)).
Proof.
  intros HQ H. unfold checkMembers.
  destruct (WA.participants group); [|assumption].
  destruct (DETECT_JOINS_LEAVES cfg); [|assumption].
  simpl. unfold updateMemberCount. apply P_info; [assumption|].
  now apply detectLeaves_preserves, detectJoins_preserves.
Qed.

Lemma processAll_preserves client messages groupName groupId w :
  P w -> P (fst (processAll client messages groupName groupId w)).
Proof.
  intros H. unfold processAll.
  apply (fold_left_invariant (fun acc => P (fst acc))); [|assumption].
  intros [a ps] msg _ Ha. unfold processMessage. cbn [fst snd] in *.
  destruct (processed client msg groupName groupId); cbn [fst];
    destruct (messageEvent client msg groupName groupId);
    auto using emitEvent_preserves.
Qed.

Lemma saveMessages_preserves ps w : P w -> P (saveMessages ps w).
Proof.
  rewrite saveMessages_fold. apply fold_left_invariant. auto.
Qed.

Lemma broadcastNew_preserves client newMessages groupName groupId w :
  P w -> P (broadcastNew client newMessages groupName groupId w).
Proof.
  unfold broadcastNew. apply fold_left_invariant. intros a msg _ Ha.
  unfold processMessage.
  destruct (processed client msg groupName groupId);
    destruct (messageEvent client msg groupName groupId);
    auto using emitEvent_preserves.
Qed.

Lemma checkFetched_preserves client groupId groupInfo messages w :
  P w -> P (fst (checkFetched client groupId groupInfo messages w)).
Proof.
  intros H. unfold checkFetched.
  destruct (detectNew messages (previousMessageIds groupInfo)) as [newMessages ids].
  destruct ((0 <? List.length newMessages)%nat || isFirstRun groupInfo);
    [|assumption].
  pose proof (processAll_preserves client messages (gd_name groupInfo) groupId w H)
    as Hp.
  destruct (processAll client messages (gd_name groupInfo) groupId w)
    as [w1 processedMessages].
  simpl in *.
  destruct (negb (isFirstRun groupInfo));
    auto using saveMessages_preserves, broadcastNew_preserves.
Qed.

Lemma checkMessages_preserves client now groupId groupInfo w :
  Q groupId -> P w -> P (checkMessages cfg client now groupId groupInfo w).
Proof.
  intros HQ H. unfold checkMessages.
  destruct (WA.getChats client) as [chats|]; [|assumption].
  destruct (find _ chats) as [group|]; [|assumption].
  pose proof (checkMembers_preserves client now groupId groupInfo group w HQ H)
    as H1.
  destruct (checkMembers cfg client now groupId groupInfo group w) as [w1 g1].
  simpl in H1.
  destruct (WA.fetchMessages group (MESSAGE_LIMIT cfg)) as [messages|].
  - pose proof (checkFetched_preserves client groupId g1 messages w1 H1) as H2.
    destruct (checkFetched client groupId g1 messages w1) as [w2 g2].
    simpl in H2. unfold commit. now apply P_group.
  - unfold commit. now apply P_group.
Qed.

Lemma pass_preserves inp groupId w :
  Q groupId -> P w -> P (pass cfg inp groupId w).
Proof.
  intros HQ H. unfold pass.
  destruct (JSMap.get groupId (monitoredGroups w)); [|assumption].
  now apply checkMessages_preserves.
Qed.

Lemma passes_preserve inputs (l : list string) w :
  (forall g, In g l -> Q g) -> P w ->
  P (fold_left (fun w groupId => pass cfg (inputs groupId) groupId w) l w).
Proof.
  intros HQ. apply fold_left_invariant. intros a g Hg Ha.
  apply pass_preserves; auto.
Qed.

End PassPreserves.

Section ServerPreserves.

Variable cfg : Config.
Variable P : World -> Prop.

Hypothesis P_save : forall r w, P w -> P (with_eventsTable (Store.saveEvent r) w).
Hypothesis P_broadcast : forall d w, P w -> P (broadcast d w).
Hypothesis P_insert :
  forall r w, P w -> P (with_messagesTable (Store.insertOrReplace r) w).
Hypothesis P_groups : forall f w, P w -> P (with_monitoredGroups f w).
Hypothesis P_infos : forall f w, P w -> P (with_groupInfoStore f w).
Hypothesis P_config : forall f w, P w -> P (with_configGroups f w).

Lemma checkMessages_keeps client now groupId groupInfo w :
  P w -> P (checkMessages cfg client now groupId groupInfo w).
Proof.
  intros H.
  apply (checkMessages_preserves cfg P (fun _ => True)); auto.
Qed.

Lemma checkAllGroups_keeps inputs w : P w -> P (checkAllGroups cfg inputs w).
Proof.
  intros H. unfold checkAllGroups.
  apply (passes_preserve cfg P (fun _ => True)); auto.
Qed.

Lemma addGroup_keeps inp name w : P w -> P (fst (addGroup cfg inp name w)).
Proof.
  intros H. unfold addGroup.
  destruct (JS.trim name =? "")%string; [assumption|].
  destruct (negb (isClientReady w)); [assumption|].
  destruct (find _ (JSMap.values (groupInfoStore w))); [assumption|].
  destruct (WA.getChats (client inp)) as [chats|]; [|assumption].
  destruct (find _ chats) as [group|]; [|assumption].
  destruct (configOk inp); simpl; [|auto].
  apply P_broadcast, checkMessages_keeps. auto.
Qed.

Lemma onGroupNotification_keeps ty inp chatId recipientIds w :
  P w -> P (onGroupNotification cfg ty inp chatId recipientIds w).
Proof.
  intros H. unfold onGroupNotification.
  destruct (JSMap.get chatId (monitoredGroups w)); [|assumption].
  destruct (DETECT_JOINS_LEAVES cfg); [|assumption].
  revert H. apply fold_left_invariant. intros a participant _ Ha.
  now apply emitEvent_preserves.
Qed.

Lemma runServer_keeps rs w : P w -> P (runServer cfg rs w).
Proof.
  unfold runServer. apply fold_left_invariant. intros a r _ Ha.
  destruct r; simpl;
    auto using checkAllGroups_keeps, addGroup_keeps, onGroupNotification_keeps.
Qed.

End ServerPreserves.

(** ** The events table: latest wins per key *)


Lemma saveEvent_deleteFor (r : Evt.row) (t : list Evt.row) :
  Store.saveEvent r t = Store.insertEvent r (Store.deleteFor r t).
Proof. unfold Store.saveEvent, Store.deleteFor. now destruct (Evt.type r). Qed.



Lemma deleteFor_removes (e : Evt.row) (t : list Evt.row) :
  Store.deleteFor e t = filter (fun x => negb (removes e x)) t.
Proof.
  unfold Store.deleteFor, Store.deleteMemberType, Store.deleteCertificate,
    removes.
  destruct (Evt.type e); apply filter_ext; intros x;
    now rewrite ?andb_true_r.
Qed.


Lemma removes_key (e x y : Evt.row) :
  Evt.key_of x = Evt.key_of y -> removes e x = removes e y.
Proof.
  unfold Evt.key_of, removes. intros H. inversion H as [[Hg Hm Ht Hd]].
  now rewrite Hg, Hm, Ht, Hd.
Qed.

Lemma removes_own_key (e r : Evt.row) :
  Evt.key_of r = Evt.key_of e -> removes e r = true.
Proof.
  intros H. rewrite (removes_key e r e H). unfold removes.
  rewrite !String.eqb_refl. cbn [andb].
  assert (Ht : EventType_eqb (Evt.type e) (Evt.type e) = true)
    by now apply EventType_eqb_eq.
  rewrite Ht. now destruct (Evt.type e).
Qed.









(** ** The messages table: one row per id *)

Lemma messagesTable_NoDup (cfg : Config) (rs : list Request) :
  NoDup (map Msg.id (messagesTable (runServer cfg rs initialWorld))).
Proof.
  apply (runServer_keeps cfg (fun w => NoDup (map Msg.id (messagesTable w))));
    try untouched.
  - intros r w H. destruct w. now apply insertOrReplace_NoDup.
  - constructor.
Qed.

(** C4.  The messages table never holds two rows with the same id, after
    any sequence of ticks and add-group requests; [INSERT OR REPLACE] leaves
    exactly the new row under its id, and when the id was already stored the
    number of rows does not change. *)
Theorem message_id_unique :
  (forall cfg rs,
      NoDup (map Msg.id (messagesTable (runServer cfg rs initialWorld)))) /\
  (forall r t,
      filter (fun x => (Msg.id x =? Msg.id r)%string) (Store.insertOrReplace r t)
      = [r]) /\
  (forall r t,
      NoDup (map Msg.id t) -> In (Msg.id r) (map Msg.id t) ->
      List.length (Store.insertOrReplace r t) = List.length t /\
      NoDup (map Msg.id (Store.insertOrReplace r t))).
Proof.
  split; [exact messagesTable_NoDup|].
  split; [exact insertOrReplace_own_id|].
  intros r t Hnd Hin. split.
  - now apply insertOrReplace_length.
  - now apply insertOrReplace_NoDup.
Qed.

Lemma message_id_unique_witness :
  let t := [Sample.messageRow "3EB0A1" "hi" "2025-03-01T08:00:00.000Z";
            Sample.messageRow "3EB0A2" "there" "2025-03-01T08:01:00.000Z"] in
  let r := Sample.messageRow "3EB0A1" "hi (edited)" "2025-03-01T08:00:00.000Z" in
  List.length (Store.insertOrReplace r t) = List.length t /\
  NoDup (map Msg.id (Store.insertOrReplace r t)).
Proof.
  intros t r. apply (proj2 (proj2 message_id_unique)).
  - repeat constructor; simpl; intuition discriminate.
  - simpl. now left.
Defined.

(** ** What one pass broadcasts and writes *)

Lemma emitted_app (w w' : World) (l : list Envelope) :
  outbox w' = outbox w ++ l -> emitted w w' = l.
Proof.
  intros H. unfold emitted. rewrite H.
  rewrite skipn_app, skipn_all, Nat.sub_diag. reflexivity.
Qed.

Lemma outbox_emitEvent (e : Event) (w : World) :
  outbox (emitEvent e w) = outbox w ++ [EnvEvent e].
Proof. now destruct w. Qed.

Lemma outbox_detectJoins client now groupId groupInfo current w :
  outbox (detectJoins client now groupId groupInfo current w) =
  outbox w ++ map EnvEvent (joinEvents client now groupId groupInfo current).
Proof.
  unfold detectJoins, joinEvents. revert w.
  induction current as [|m l IH]; intros w; simpl.
  - now rewrite app_nil_r.
  - rewrite IH. destruct (_ && _); simpl; rewrite <- ?app_assoc; reflexivity.
Qed.

Lemma outbox_detectLeaves client now groupId groupInfo current w :
  outbox (detectLeaves client now groupId groupInfo current w) =
  outbox w ++ map EnvEvent (leaveEvents client now groupId groupInfo current).
Proof.
  unfold detectLeaves, leaveEvents. revert w.
  induction (previousMembers groupInfo) as [|m l IH]; intros w; simpl.
  - now rewrite app_nil_r.
  - rewrite IH. destruct (_ && _); simpl; rewrite <- ?app_assoc; reflexivity.
Qed.

(** The envelopes of the membership diff. *)
Lemma outbox_checkMembers cfg client now groupId groupInfo group w :
  outbox (fst (checkMembers cfg client now groupId groupInfo group w)) =
  outbox w ++ map EnvEvent (diffEvents cfg client now groupId groupInfo group).
Proof.
  unfold checkMembers, diffEvents.
  destruct (WA.participants group) as [ps|]; [|now rewrite app_nil_r].
  destruct (DETECT_JOINS_LEAVES cfg); [|now rewrite app_nil_r].
  cbn [fst]. unfold updateMemberCount.
  transitivity (outbox (detectLeaves client now groupId groupInfo (JSSet.of_list ps)
                  (detectJoins client now groupId groupInfo (JSSet.of_list ps) w))).
  - now destruct (detectLeaves _ _ _ _ _ _).
  - rewrite outbox_detectLeaves, outbox_detectJoins, map_app, app_assoc.
    reflexivity.
Qed.

Lemma processAll_acc client messages groupName groupId w acc :
  fold_left
    (fun acc msg =>
       let '(w', p) := processMessage client msg groupName groupId (fst acc) in
       match p with
       | Some p => (w', snd acc ++ [p])
       | None => (w', snd acc)
       end) messages (w, acc) =
  (processEffects client messages groupName groupId w,
   acc ++ processedList client messages groupName groupId).
Proof.
  revert w acc. induction messages as [|msg l IH]; intros w acc.
  - simpl. now rewrite app_nil_r.
  - cbn [fold_left]. unfold processMessage at 2. cbn [fst snd].
    unfold processEffects, processedList. cbn [flat_map fold_left].
    fold (processEffects client l groupName groupId).
    fold (processedList client l groupName groupId).
    unfold processMessage at 2. cbn [fst].
    destruct (processed client msg groupName groupId) as [p|];
      rewrite IH, <- ?app_assoc; reflexivity.
Qed.

Lemma processAll_eq client messages groupName groupId w :
  processAll client messages groupName groupId w =
  (processEffects client messages groupName groupId w,
   processedList client messages groupName groupId).
Proof. apply (processAll_acc client messages groupName groupId w []). Qed.

Lemma outbox_processEffects client messages groupName groupId w :
  outbox (processEffects client messages groupName groupId w) =
  outbox w ++ map EnvEvent (messageEvents client messages groupName groupId).
Proof.
  unfold processEffects, messageEvents. revert w.
  induction messages as [|msg l IH]; intros w; simpl.
  - now rewrite app_nil_r.
  - rewrite IH. destruct (messageEvent client msg groupName groupId);
      simpl; rewrite <- ?app_assoc; reflexivity.
Qed.

Lemma outbox_broadcast (d : Envelope) (w : World) :
  outbox (broadcast d w) = outbox w ++ [d].
Proof. reflexivity. Qed.

Lemma outbox_broadcastNew client newMessages groupName groupId w :
  outbox (broadcastNew client newMessages groupName groupId w) =
  outbox w ++ newEnvelopes client newMessages groupName groupId.
Proof.
  unfold broadcastNew, newEnvelopes. revert w.
  induction newMessages as [|msg l IH]; intros w.
  - simpl. now rewrite app_nil_r.
  - cbn [fold_left flat_map]. rewrite IH. unfold processMessage.
    destruct (processed client msg groupName groupId) as [p|];
      destruct (messageEvent client msg groupName groupId) as [e|];
      rewrite ?outbox_broadcast, ?outbox_emitEvent;
      rewrite <- ?app_assoc; reflexivity.
Qed.

Lemma outbox_saveMessages ps w : outbox (saveMessages ps w) = outbox w.
Proof. now destruct w. Qed.

Lemma outbox_commit groupId groupInfo w :
  outbox (commit groupId groupInfo w) = outbox w.
Proof. now destruct w. Qed.

(** The envelopes of the message stage. *)
Lemma outbox_checkFetched client groupId groupInfo messages w :
  outbox (fst (checkFetched client groupId groupInfo messages w)) =
  outbox w ++ fetchedEnvelopes client groupId groupInfo messages.
Proof.
  unfold checkFetched, fetchedEnvelopes.
  destruct (detectNew messages (previousMessageIds groupInfo)) as [newMessages ids].
  cbn [fst].
  destruct ((0 <? List.length newMessages)%nat || isFirstRun groupInfo);
    [|now rewrite app_nil_r].
  rewrite processAll_eq.
  destruct (negb (isFirstRun groupInfo)); cbn [fst].
  - now rewrite outbox_broadcastNew, outbox_saveMessages,
      outbox_processEffects, app_assoc.
  - now rewrite outbox_saveMessages, outbox_processEffects, app_nil_r.
Qed.

(** The group object after the membership diff: only the snapshot moves. *)
Lemma checkMembers_group cfg client now groupId groupInfo group w :
  let g1 := snd (checkMembers cfg client now groupId groupInfo group w) in
  gd_name g1 = gd_name groupInfo /\
  previousMessageIds g1 = previousMessageIds groupInfo /\
  isFirstRun g1 = isFirstRun groupInfo /\
  previousMembers g1 =
    match WA.participants group with
    | Some ps =>
        if DETECT_JOINS_LEAVES cfg then JSSet.of_list ps
        else previousMembers groupInfo
    | None => previousMembers groupInfo
    end.
Proof.
  unfold checkMembers.
  destruct (WA.participants group); [|simpl; auto].
  destruct (DETECT_JOINS_LEAVES cfg); simpl; auto.
Qed.

Lemma fetchedEnvelopes_ext client groupId g g' messages :
  gd_name g' = gd_name g ->
  previousMessageIds g' = previousMessageIds g ->
  isFirstRun g' = isFirstRun g ->
  fetchedEnvelopes client groupId g' messages =
  fetchedEnvelopes client groupId g messages.
Proof. intros Hn Hi Hf. unfold fetchedEnvelopes. now rewrite Hn, Hi, Hf. Qed.

(** Everything one pass broadcasts. *)
Lemma outbox_checkMessages cfg client now groupId groupInfo w chats group :
  WA.getChats client = Some chats ->
  find (fun chat => (WA.chat_id chat =? groupId)%string) chats = Some group ->
  outbox (checkMessages cfg client now groupId groupInfo w) =
  outbox w ++
  map EnvEvent (diffEvents cfg client now groupId groupInfo group) ++
  match WA.fetchMessages group (MESSAGE_LIMIT cfg) with
  | Some messages => fetchedEnvelopes client groupId groupInfo messages
  | None => []
  end.
Proof.
  intros Hc Hf. unfold checkMessages. rewrite Hc, Hf.
  pose proof (outbox_checkMembers cfg client now groupId groupInfo group w) as Hm.
  destruct (checkMembers_group cfg client now groupId groupInfo group w)
    as (Hn & Hi & Hr & _).
  destruct (checkMembers cfg client now groupId groupInfo group w) as [w1 g1].
  cbn [fst snd] in *.
  destruct (WA.fetchMessages group (MESSAGE_LIMIT cfg)) as [messages|].
  - pose proof (outbox_checkFetched client groupId g1 messages w1) as Hx.
    destruct (checkFetched client groupId g1 messages w1) as [w2 g2].
    cbn [fst] in Hx.
    rewrite outbox_commit, Hx, Hm, <- app_assoc.
    now rewrite (fetchedEnvelopes_ext client groupId groupInfo g1 messages Hn Hi Hr).
  - now rewrite outbox_commit, Hm, app_nil_r.
Qed.

(** A pass that does not reach the group broadcasts nothing. *)
Lemma checkMessages_no_chats cfg client now groupId groupInfo w :
  WA.getChats client = None ->
  checkMessages cfg client now groupId groupInfo w = w.
Proof. intros H. unfold checkMessages. now rewrite H. Qed.

Lemma checkMessages_no_group cfg client now groupId groupInfo w chats :
  WA.getChats client = Some chats ->
  find (fun chat => (WA.chat_id chat =? groupId)%string) chats = None ->
  checkMessages cfg client now groupId groupInfo w = w.
Proof. intros H H'. unfold checkMessages. now rewrite H, H'. Qed.

Lemma eventsOf_app (l l' : list Envelope) :
  eventsOf (l ++ l') = eventsOf l ++ eventsOf l'.
Proof. apply flat_map_app. Qed.

Lemma eventsOf_events (l : list Event) : eventsOf (map EnvEvent l) = l.
Proof.
  induction l as [|e l IH]; simpl; [reflexivity|]. f_equal. exact IH.
Qed.

Lemma emitted_same (w : World) : emitted w w = [].
Proof. unfold emitted. apply skipn_all. Qed.

(** ** Counting the events of the membership diff *)

Lemma filter_eq_filter (cond : string -> bool) (x : string) (l : list string) :
  filter (fun m => (m =? x)%string) (filter cond l) =
  if cond x then filter (fun m => (m =? x)%string) l else [].
Proof.
  induction l as [|m l IH]; simpl.
  - now destruct (cond x).
  - destruct (m =? x)%string eqn:E.
    + apply String.eqb_eq in E. subst m.
      destruct (cond x); simpl; [|exact IH].
      rewrite String.eqb_refl. now rewrite IH.
    + destruct (cond m); simpl; [rewrite E|]; exact IH.
Qed.

Lemma count_NoDup (x : string) (l : list string) :
  NoDup l ->
  List.length (filter (fun m => (m =? x)%string) l) =
  if JSSet.has x l then 1 else 0.
Proof.
  induction l as [|m l IH]; intros H; simpl; [reflexivity|].
  inversion H as [|? ? Hn Hl]; subst.
  rewrite (String.eqb_sym x m).
  destruct (m =? x)%string eqn:E; simpl.
  - apply String.eqb_eq in E. subst m.
    rewrite (IH Hl). apply has_notIn in Hn. now rewrite Hn.
  - now apply IH.
Qed.

Lemma countEvents_created client now groupId groupName ty ty' x l :
  countEvents ty x
    (map (fun memberId => createEvent client now memberId ty' groupName groupId) l) =
  if EventType_eqb ty' ty
  then List.length (filter (fun m => (m =? x)%string) l)
  else 0.
Proof.
  unfold countEvents. induction l as [|m l IH]; simpl.
  - now destruct (EventType_eqb ty' ty).
  - unfold isEventFor at 1. simpl.
    destruct (EventType_eqb ty' ty); simpl; [|exact IH].
    destruct (m =? x)%string; simpl; now rewrite IH.
Qed.

Lemma countEvents_app ty x l l' :
  countEvents ty x (l ++ l') = countEvents ty x l + countEvents ty x l'.
Proof. unfold countEvents. now rewrite filter_app, length_app. Qed.

Lemma countEvents_joinEvents client now groupId groupInfo current ty x :
  NoDup current ->
  countEvents ty x (joinEvents client now groupId groupInfo current) =
  if EventType_eqb JOIN ty && JSSet.has x current &&
     negb (JSSet.has x (previousMembers groupInfo)) && negb (isFirstRun groupInfo)
  then 1 else 0.
Proof.
  intros H. unfold joinEvents.
  rewrite countEvents_created, filter_eq_filter.
  destruct (EventType_eqb JOIN ty), (JSSet.has x (previousMembers groupInfo)),
    (isFirstRun groupInfo); simpl; rewrite ?andb_false_r; try reflexivity.
  rewrite count_NoDup by assumption. now destruct (JSSet.has x current).
Qed.

Lemma countEvents_leaveEvents client now groupId groupInfo current ty x :
  NoDup (previousMembers groupInfo) ->
  countEvents ty x (leaveEvents client now groupId groupInfo current) =
  if EventType_eqb LEAVE ty && JSSet.has x (previousMembers groupInfo) &&
     negb (JSSet.has x current) && negb (isFirstRun groupInfo)
  then 1 else 0.
Proof.
  intros H. unfold leaveEvents.
  rewrite countEvents_created, filter_eq_filter.
  destruct (EventType_eqb LEAVE ty), (JSSet.has x current),
    (isFirstRun groupInfo); simpl; rewrite ?andb_false_r; try reflexivity.
  rewrite count_NoDup by assumption.
  now destruct (JSSet.has x (previousMembers groupInfo)).
Qed.

(** On the first run the guards of both loops are false. *)
Lemma diffEvents_firstRun cfg client now groupId groupInfo group :
  isFirstRun groupInfo = true ->
  diffEvents cfg client now groupId groupInfo group = [].
Proof.
  intros H. unfold diffEvents, joinEvents, leaveEvents.
  destruct (WA.participants group); [|reflexivity].
  destruct (DETECT_JOINS_LEAVES cfg); [|reflexivity].
  rewrite H. simpl.
  rewrite !filter_none; [reflexivity | |]; intros; apply andb_false_r.
Qed.

(** ** The baseline pass *)

Lemma detectJoins_firstRun client now groupId groupInfo current w :
  isFirstRun groupInfo = true ->
  detectJoins client now groupId groupInfo current w = w.
Proof.
  intros H. unfold detectJoins. rewrite H.
  induction current as [|m l IH]; simpl; [reflexivity|].
  now rewrite andb_false_r.
Qed.

Lemma detectLeaves_firstRun client now groupId groupInfo current w :
  isFirstRun groupInfo = true ->
  detectLeaves client now groupId groupInfo current w = w.
Proof.
  intros H. unfold detectLeaves. rewrite H.
  induction (previousMembers groupInfo) as [|m l IH]; simpl; [reflexivity|].
  now rewrite andb_false_r.
Qed.

Lemma eventsTable_checkMembers_firstRun cfg client now groupId groupInfo group w :
  isFirstRun groupInfo = true ->
  eventsTable (fst (checkMembers cfg client now groupId groupInfo group w)) =
  eventsTable w.
Proof.
  intros H. unfold checkMembers.
  destruct (WA.participants group); [|reflexivity].
  destruct (DETECT_JOINS_LEAVES cfg); [|reflexivity].
  cbn [fst]. rewrite detectJoins_firstRun, detectLeaves_firstRun by assumption.
  now destruct w.
Qed.

Lemma messageEvent_plain client msg groupName groupId e :
  isNotification (WA.msg_type msg) = false ->
  messageEvent client msg groupName groupId = Some e ->
  ev_type e = CERTIFICATE.
Proof.
  intros Hn. unfold messageEvent, certificateEvent.
  destruct (JSDate.toISOString _); [|discriminate].
  rewrite Hn. destruct (isVoice _); [|discriminate].
  intros [= <-]. reflexivity.
Qed.

Lemma messageEvents_plain client messages groupName groupId :
  (forall msg, In msg messages -> isNotification (WA.msg_type msg) = false) ->
  filter isMembershipEvent (messageEvents client messages groupName groupId) = [].
Proof.
  intros H. apply filter_none. intros e He.
  unfold messageEvents in He. apply in_flat_map in He.
  destruct He as (msg & Hm & He).
  destruct (messageEvent client msg groupName groupId) as [e'|] eqn:E;
    [|contradiction].
  destruct He as [<- | []].
  unfold isMembershipEvent.
  now rewrite (messageEvent_plain client msg groupName groupId e' (H msg Hm) E).
Qed.

Lemma fetchedEnvelopes_firstRun client groupId groupInfo messages :
  isFirstRun groupInfo = true ->
  fetchedEnvelopes client groupId groupInfo messages =
  map EnvEvent (messageEvents client messages (gd_name groupInfo) groupId).
Proof.
  intros H. unfold fetchedEnvelopes. rewrite H, orb_true_r. simpl.
  apply app_nil_r.
Qed.

Lemma baseline_pass_outbox cfg client now groupId groupInfo w :
  isFirstRun groupInfo = true ->
  eventsOf (emitted w (checkMessages cfg client now groupId groupInfo w)) =
  match fetched cfg client groupId with
  | Some messages => messageEvents client messages (gd_name groupInfo) groupId
  | None => []
  end /\
  emitted w (checkMessages cfg client now groupId groupInfo w) =
  map EnvEvent (eventsOf (emitted w (checkMessages cfg client now groupId groupInfo w))).
Proof.
  intros H. unfold fetched.
  destruct (WA.getChats client) as [chats|] eqn:Hc;
    [|rewrite checkMessages_no_chats, emitted_same by assumption; now split].
  destruct (find (fun chat => (WA.chat_id chat =? groupId)%string) chats)
    as [group|] eqn:Hf;
    [|rewrite (checkMessages_no_group _ _ _ _ _ _ chats), emitted_same
        by assumption; now split].
  rewrite (emitted_app _ _ _
             (outbox_checkMessages cfg client now groupId groupInfo w chats group
                Hc Hf)).
  rewrite diffEvents_firstRun by assumption. simpl.
  destruct (WA.fetchMessages group (MESSAGE_LIMIT cfg)) as [messages|];
    [|now split].
  rewrite fetchedEnvelopes_firstRun by assumption.
  now rewrite eventsOf_events.
Qed.

(** C6, as amended.  On a baseline pass the membership diff emits no event
    and writes no event row whatever the two member sets are, and (with
    join/leave detection on and a participant list present) the fetched
    member set becomes the snapshot.  The pass as a whole broadcasts nothing
    but the events that [processMessage] derives from the fetched messages;
    so it emits no JOIN and no LEAVE event when none of the fetched messages
    is a notification message, and nothing at all when it does not get to
    fetch. *)
Theorem baseline_pass_events :
  forall cfg client now groupId groupInfo w,
    isFirstRun groupInfo = true ->
    (forall group,
        let r := checkMembers cfg client now groupId groupInfo group w in
        emitted w (fst r) = [] /\
        eventsTable (fst r) = eventsTable w /\
        (forall ps,
            WA.participants group = Some ps ->
            DETECT_JOINS_LEAVES cfg = true ->
            previousMembers (snd r) = JSSet.of_list ps)) /\
    eventsOf (emitted w (checkMessages cfg client now groupId groupInfo w)) =
      match fetched cfg client groupId with
      | Some messages => messageEvents client messages (gd_name groupInfo) groupId
      | None => []
      end /\
    (forall messages,
        fetched cfg client groupId = Some messages ->
        (forall msg, In msg messages -> isNotification (WA.msg_type msg) = false) ->
        filter isMembershipEvent
          (eventsOf (emitted w (checkMessages cfg client now groupId groupInfo w)))
        = []).
Proof.
  intros cfg client now groupId groupInfo w H.
  split; [|split].
  - intros group r. subst r. split; [|split].
    + apply emitted_app. rewrite outbox_checkMembers, diffEvents_firstRun
        by assumption. reflexivity.
    + now apply eventsTable_checkMembers_firstRun.
    + intros ps Hp Hd.
      destruct (checkMembers_group cfg client now groupId groupInfo group w)
        as (_ & _ & _ & Hm).
      now rewrite Hm, Hp, Hd.
  - now apply baseline_pass_outbox.
  - intros messages Hfetch Hplain.
    rewrite (proj1 (baseline_pass_outbox cfg client now groupId groupInfo w H)),
      Hfetch.
    now apply messageEvents_plain.
Qed.

Lemma baseline_pass_events_witness :
  let g := Sample.newGroup [Sample.A; Sample.B; Sample.C] in
  let inp := Sample.input [Sample.A; Sample.B; Sample.C]
               [Sample.text "3EB0A1" 1699999000 Sample.A "hello"] in
  filter isMembershipEvent
    (eventsOf (emitted (Sample.monitoring g)
       (checkMessages defaultConfig (client inp) (now inp) Sample.groupId g
          (Sample.monitoring g)))) = [].
Proof.
  intros g inp.
  apply (proj2 (proj2 (baseline_pass_events defaultConfig (client inp) (now inp)
                         Sample.groupId g (Sample.monitoring g) eq_refl))
           [Sample.text "3EB0A1" 1699999000 Sample.A "hello"]).
  - reflexivity.
  - intros msg [<- | []]. reflexivity.
Defined.

(** Counterexample to C6 as stated: the first pass for a group whose recent
    messages contain the notification of a member having been added emits a
    JOIN event for that member, as a broadcast and as a row of [events]. *)
Lemma baseline_pass_emits_join :
  let g := Sample.newGroup [Sample.A; Sample.B; Sample.C; Sample.D] in
  let inp := Sample.input [Sample.A; Sample.B; Sample.C; Sample.D]
               [Sample.text "3EB0A1" 1699999000 Sample.A "hello";
                Sample.addNotice "3EB0A2" 1699999500 Sample.D] in
  let w' := checkMessages defaultConfig (client inp) (now inp) Sample.groupId g
              (Sample.monitoring g) in
  isFirstRun g = true /\
  countEvents JOIN Sample.D (eventsOf (emitted (Sample.monitoring g) w')) = 1 /\
  map Evt.key_of (eventsTable w') =
    [(Sample.groupId, Sample.D, JOIN, "2023-11-14")].
Proof. vm_compute. auto. Qed.

(** ** The membership diff of a later pass *)

Lemma get_mutate_same {V} (k : string) (f : V -> V) (m : JSMap.t V) :
  JSMap.get k (JSMap.mutate k f m) = option_map f (JSMap.get k m).
Proof.
  induction m as [|[k' v] m IH]; simpl; [reflexivity|].
  destruct (k =? k')%string eqn:E; simpl; rewrite E; [reflexivity | exact IH].
Qed.

Lemma get_mutate_other {V} (k k' : string) (f : V -> V) (m : JSMap.t V) :
  k' <> k -> JSMap.get k' (JSMap.mutate k f m) = JSMap.get k' m.
Proof.
  intros Hk. induction m as [|[k0 v] m IH]; simpl; [reflexivity|].
  destruct (k =? k0)%string eqn:E; simpl.
  - apply String.eqb_eq in E. subst k0.
    apply String.eqb_neq in Hk. now rewrite Hk.
  - now rewrite IH.
Qed.

Lemma groupInfoStore_checkMembers cfg client now groupId groupInfo group w :
  groupInfoStore (fst (checkMembers cfg client now groupId groupInfo group w)) =
  match WA.participants group with
  | Some ps =>
      if DETECT_JOINS_LEAVES cfg
      then JSMap.mutate groupId (setMemberCount (JSSet.size (JSSet.of_list ps)))
             (groupInfoStore w)
      else groupInfoStore w
  | None => groupInfoStore w
  end.
Proof.
  unfold checkMembers.
  destruct (WA.participants group) as [ps|]; [|reflexivity].
  destruct (DETECT_JOINS_LEAVES cfg); [|reflexivity].
  cbn [fst]. unfold updateMemberCount.
  assert (H : groupInfoStore
                (detectLeaves client now groupId groupInfo (JSSet.of_list ps)
                   (detectJoins client now groupId groupInfo (JSSet.of_list ps) w))
              = groupInfoStore w).
  { apply (detectLeaves_preserves (fun w' => groupInfoStore w' = groupInfoStore w));
      [intros r w0 H0; now destruct w0 | intros d w0 H0; now destruct w0 |].
    apply (detectJoins_preserves (fun w' => groupInfoStore w' = groupInfoStore w));
      [intros r w0 H0; now destruct w0 | intros d w0 H0; now destruct w0 |].
    reflexivity. }
  destruct (detectLeaves _ _ _ _ _ _). simpl in *. now rewrite H.
Qed.

Lemma detectNew_acc (messages : list WA.Message) (acc : list WA.Message)
    (ids : JSSet.t) :
  fold_left
    (fun acc msg =>
       if JSSet.has (WA.msg_id msg) (snd acc) then acc
       else (fst acc ++ [msg], snd acc ++ [WA.msg_id msg]))
    messages (acc, ids) =
  (acc ++ fst (detectNew messages ids),
   ids ++ idsOf (fst (detectNew messages ids))).
Proof.
  unfold detectNew. revert acc ids.
  induction messages as [|msg l IH]; intros acc ids.
  - simpl. now rewrite !app_nil_r.
  - cbn [fold_left fst snd].
    destruct (JSSet.has (WA.msg_id msg) ids) eqn:E.
    + apply IH.
    + rewrite (IH (acc ++ [msg])), (IH ([] ++ [msg])). cbn [fst snd].
      unfold idsOf. rewrite map_app, <- !app_assoc. reflexivity.
Qed.

(** The window after classification is the old one followed by the ids of
    the new messages. *)
Lemma detectNew_window (messages : list WA.Message) (ids : JSSet.t) :
  snd (detectNew messages ids) = ids ++ idsOf (fst (detectNew messages ids)).
Proof.
  unfold detectNew at 1. now rewrite (detectNew_acc messages [] ids).
Qed.

Lemma detectNew_cons (msg : WA.Message) (l : list WA.Message) (ids : JSSet.t) :
  fst (detectNew (msg :: l) ids) =
  if JSSet.has (WA.msg_id msg) ids then fst (detectNew l ids)
  else msg :: fst (detectNew l (ids ++ [WA.msg_id msg])).
Proof.
  unfold detectNew at 1. cbn [fold_left fst snd].
  destruct (JSSet.has (WA.msg_id msg) ids).
  - reflexivity.
  - now rewrite (detectNew_acc l ([] ++ [msg])).
Qed.

Lemma detectNew_incl (messages : list WA.Message) (ids : JSSet.t) (msg : WA.Message) :
  In msg (fst (detectNew messages ids)) -> In msg messages.
Proof.
  revert ids. induction messages as [|m l IH]; intros ids.
  - simpl. auto.
  - rewrite detectNew_cons. destruct (JSSet.has (WA.msg_id m) ids).
    + intros H. right. now apply (IH ids).
    + intros [<- | H]; [now left | right; now apply (IH _ H)].
Qed.

Lemma eventsOf_newEnvelopes client newMessages groupName groupId :
  eventsOf (newEnvelopes client newMessages groupName groupId) =
  messageEvents client newMessages groupName groupId.
Proof.
  unfold newEnvelopes, messageEvents.
  induction newMessages as [|msg l IH]; [reflexivity|].
  cbn [flat_map]. rewrite eventsOf_app, IH. f_equal.
  destruct (messageEvent client msg groupName groupId);
    destruct (processed client msg groupName groupId); reflexivity.
Qed.

Lemma messageEvents_none client messages groupName groupId :
  (forall msg, In msg messages ->
               messageEvent client msg groupName groupId = None) ->
  messageEvents client messages groupName groupId = [].
Proof.
  intros H. unfold messageEvents.
  induction messages as [|msg l IH]; [reflexivity|].
  cbn [flat_map]. rewrite (H msg (or_introl eq_refl)). simpl.
  apply IH. intros m Hm. apply H. now right.
Qed.

Lemma eventsOf_fetchedEnvelopes_none client groupId groupInfo messages :
  (forall msg, In msg messages ->
               messageEvent client msg (gd_name groupInfo) groupId = None) ->
  eventsOf (fetchedEnvelopes client groupId groupInfo messages) = [].
Proof.
  intros H. unfold fetchedEnvelopes.
  destruct (_ || _); [|reflexivity].
  rewrite eventsOf_app, eventsOf_events, messageEvents_none by assumption.
  destruct (negb (isFirstRun groupInfo)); [|reflexivity].
  rewrite eventsOf_newEnvelopes. apply messageEvents_none.
  intros msg Hm. apply H. now apply detectNew_incl in Hm.
Qed.

(** C7, as amended.  In a pass that is not the first, with join/leave
    detection on and a participant list [ps] present, the membership diff
    emits exactly one JOIN event for each id of the current members that is
    not a previous member and none for any other id, exactly one LEAVE event
    for each previous member that is not a current member and none for any
    other id, and no other event; it makes the current members the snapshot
    and sets the member count of the group to their number.  The events of
    the whole pass are these followed by the events that the message stage
    derives from the fetched messages; there are none of the latter when no
    fetched message yields an event. *)
Theorem steady_pass_membership_diff :
  forall cfg client now groupId groupInfo group ps w,
    isFirstRun groupInfo = false ->
    DETECT_JOINS_LEAVES cfg = true ->
    WA.participants group = Some ps ->
    NoDup (previousMembers groupInfo) ->
    let r := checkMembers cfg client now groupId groupInfo group w in
    let E := eventsOf (emitted w (fst r)) in
    (forall x,
        countEvents JOIN x E =
        if JSSet.has x (JSSet.of_list ps) &&
           negb (JSSet.has x (previousMembers groupInfo)) then 1 else 0) /\
    (forall x,
        countEvents LEAVE x E =
        if JSSet.has x (previousMembers groupInfo) &&
           negb (JSSet.has x (JSSet.of_list ps)) then 1 else 0) /\
    (forall x, countEvents CERTIFICATE x E = 0) /\
    previousMembers (snd r) = JSSet.of_list ps /\
    (forall gi,
        JSMap.get groupId (groupInfoStore w) = Some gi ->
        JSMap.get groupId (groupInfoStore (fst r)) =
        Some (setMemberCount (JSSet.size (JSSet.of_list ps)) gi)) /\
    (forall chats,
        WA.getChats client = Some chats ->
        find (fun chat => (WA.chat_id chat =? groupId)%string) chats = Some group ->
        eventsOf (emitted w (checkMessages cfg client now groupId groupInfo w)) =
        E ++ match WA.fetchMessages group (MESSAGE_LIMIT cfg) with
             | Some messages =>
                 eventsOf (fetchedEnvelopes client groupId groupInfo messages)
             | None => []
             end) /\
    (forall chats messages,
        WA.getChats client = Some chats ->
        find (fun chat => (WA.chat_id chat =? groupId)%string) chats = Some group ->
        WA.fetchMessages group (MESSAGE_LIMIT cfg) = Some messages ->
        (forall msg, In msg messages ->
                     messageEvent client msg (gd_name groupInfo) groupId = None) ->
        eventsOf (emitted w (checkMessages cfg client now groupId groupInfo w)) = E).
Proof.
  intros cfg client now groupId groupInfo group ps w Hfirst Hdet Hps Hnd r E.
  assert (HE : E = joinEvents client now groupId groupInfo (JSSet.of_list ps) ++
                   leaveEvents client now groupId groupInfo (JSSet.of_list ps)).
  { subst E r.
    rewrite (emitted_app _ _ _
               (outbox_checkMembers cfg client now groupId groupInfo group w)).
    unfold diffEvents. now rewrite Hps, Hdet, eventsOf_events. }
  assert (Hpass : forall chats,
             WA.getChats client = Some chats ->
             find (fun chat => (WA.chat_id chat =? groupId)%string) chats
               = Some group ->
             eventsOf (emitted w (checkMessages cfg client now groupId groupInfo w)) =
             E ++ match WA.fetchMessages group (MESSAGE_LIMIT cfg) with
                  | Some messages =>
                      eventsOf (fetchedEnvelopes client groupId groupInfo messages)
                  | None => []
                  end).
  { intros chats Hc Hf.
    rewrite (emitted_app _ _ _
               (outbox_checkMessages cfg client now groupId groupInfo w chats group
                  Hc Hf)).
    rewrite eventsOf_app, eventsOf_events. unfold diffEvents.
    rewrite Hps, Hdet, <- HE. f_equal.
    now destruct (WA.fetchMessages group (MESSAGE_LIMIT cfg)). }
  pose proof (of_list_NoDup ps) as Hcur.
  repeat split.
  - intros x. rewrite HE, countEvents_app, countEvents_joinEvents,
      countEvents_leaveEvents, Hfirst by assumption. simpl.
    rewrite andb_true_r. destruct (_ && _); reflexivity.
  - intros x. rewrite HE, countEvents_app, countEvents_joinEvents,
      countEvents_leaveEvents, Hfirst by assumption. simpl.
    rewrite andb_true_r. destruct (_ && _); reflexivity.
  - intros x. rewrite HE, countEvents_app, countEvents_joinEvents,
      countEvents_leaveEvents by assumption. reflexivity.
  - subst r.
    destruct (checkMembers_group cfg client now groupId groupInfo group w)
      as (_ & _ & _ & Hm).
    now rewrite Hm, Hps, Hdet.
  - intros gi Hgi. subst r.
    rewrite groupInfoStore_checkMembers, Hps, Hdet, get_mutate_same, Hgi.
    reflexivity.
  - exact Hpass.
  - intros chats messages Hc Hf Hm Hnone.
    rewrite (Hpass chats Hc Hf), Hm,
      eventsOf_fetchedEnvelopes_none by assumption.
    apply app_nil_r.
Qed.

Lemma steady_pass_membership_diff_witness :
  let g := Sample.steadyGroup [Sample.A; Sample.B; Sample.C] [] in
  let inp := Sample.input [Sample.A; Sample.C; Sample.D] [] in
  let r := checkMembers defaultConfig (client inp) (now inp) Sample.groupId g
             (Sample.cairoTeam [Sample.A; Sample.C; Sample.D] [])
             (Sample.monitoring g) in
  let E := eventsOf (emitted (Sample.monitoring g) (fst r)) in
  (countEvents JOIN Sample.D E = 1 /\ countEvents LEAVE Sample.B E = 1) /\
  (countEvents JOIN Sample.A E = 0 /\ countEvents LEAVE Sample.A E = 0) /\
  List.length E = 2 /\
  option_map memberCount
    (JSMap.get Sample.groupId (groupInfoStore (fst r))) = Some 3.
Proof.
  intros g inp r E.
  destruct (steady_pass_membership_diff defaultConfig (client inp) (now inp)
              Sample.groupId g
              (Sample.cairoTeam [Sample.A; Sample.C; Sample.D] [])
              [Sample.A; Sample.C; Sample.D] (Sample.monitoring g)
              eq_refl eq_refl eq_refl
              (of_list_NoDup [Sample.A; Sample.B; Sample.C]))
    as (HJ & HL & _ & _ & HM & _).
  split; [split; [exact (HJ Sample.D) | exact (HL Sample.B)]|].
  split; [split; [exact (HJ Sample.A) | exact (HL Sample.A)]|].
  split; [reflexivity|].
  subst r. now rewrite (HM _ eq_refl).
Defined.

(** Counterexample to C7 as stated: D joins; the pass sees D among the
    participants and also fetches the notification of D having been added,
    which is new.  The diff emits one JOIN event for D, and the message
    stage two more, one each time it processes the notification. *)
Lemma steady_pass_emits_three_joins :
  let g := Sample.steadyGroup [Sample.A; Sample.B; Sample.C] ["3EB0A1"] in
  let inp := Sample.input [Sample.A; Sample.C; Sample.D]
               [Sample.text "3EB0A1" 1699999000 Sample.A "hello";
                Sample.addNotice "3EB0A2" 1699999500 Sample.D] in
  let w' := checkMessages defaultConfig (client inp) (now inp) Sample.groupId g
              (Sample.monitoring g) in
  isFirstRun g = false /\
  JSSet.has Sample.D (JSSet.of_list [Sample.A; Sample.C; Sample.D]) = true /\
  JSSet.has Sample.D (previousMembers g) = false /\
  countEvents JOIN Sample.D (eventsOf (emitted (Sample.monitoring g) w')) = 3.
Proof. vm_compute. auto. Qed.

(** ** What a pass persists *)

Lemma messagesTable_commit groupId groupInfo w :
  messagesTable (commit groupId groupInfo w) = messagesTable w.
Proof. now destruct w. Qed.

Lemma messagesTable_saveMessages ps w :
  messagesTable (saveMessages ps w) =
  fold_left (fun t p => Store.insertOrReplace (messageRow p) t) ps
    (messagesTable w).
Proof. now destruct w. Qed.

Lemma messagesTable_checkMembers cfg client now groupId groupInfo group w :
  messagesTable (fst (checkMembers cfg client now groupId groupInfo group w)) =
  messagesTable w.
Proof.
  apply (checkMembers_preserves cfg
           (fun w' => messagesTable w' = messagesTable w) (fun _ => True));
    try untouched; auto.
Qed.

Lemma messagesTable_processEffects client messages groupName groupId w :
  messagesTable (processEffects client messages groupName groupId w) =
  messagesTable w.
Proof.
  unfold processEffects.
  apply (fold_left_invariant (fun w' => messagesTable w' = messagesTable w));
    [|reflexivity].
  intros a msg _ Ha.
  apply (processMessage_preserves (fun w' => messagesTable w' = messagesTable w));
    try untouched; auto.
Qed.

Lemma messagesTable_broadcastNew client newMessages groupName groupId w :
  messagesTable (broadcastNew client newMessages groupName groupId w) =
  messagesTable w.
Proof.
  apply (broadcastNew_preserves (fun w' => messagesTable w' = messagesTable w));
    try untouched; auto.
Qed.

Lemma messagesTable_checkFetched client groupId groupInfo messages w :
  messagesTable (fst (checkFetched client groupId groupInfo messages w)) =
  if (0 <? List.length (fst (detectNew messages (previousMessageIds groupInfo))))%nat
     || isFirstRun groupInfo
  then fold_left (fun t p => Store.insertOrReplace (messageRow p) t)
         (processedList client messages (gd_name groupInfo) groupId)
         (messagesTable w)
  else messagesTable w.
Proof.
  unfold checkFetched.
  destruct (detectNew messages (previousMessageIds groupInfo)) as [newMessages ids].
  cbn [fst].
  destruct ((0 <? List.length newMessages)%nat || isFirstRun groupInfo);
    [|reflexivity].
  rewrite processAll_eq.
  destruct (negb (isFirstRun groupInfo)); cbn [fst];
    rewrite ?messagesTable_broadcastNew, messagesTable_saveMessages,
      messagesTable_processEffects; reflexivity.
Qed.

Lemma fetched_inv cfg client groupId messages :
  fetched cfg client groupId = Some messages ->
  exists chats group,
    WA.getChats client = Some chats /\
    find (fun chat => (WA.chat_id chat =? groupId)%string) chats = Some group /\
    WA.fetchMessages group (MESSAGE_LIMIT cfg) = Some messages.
Proof.
  unfold fetched. destruct (WA.getChats client) as [chats|]; [|discriminate].
  destruct (find _ chats) as [group|] eqn:E; [|discriminate].
  intros H. now exists chats, group.
Qed.

Lemma messagesTable_checkMessages cfg client now groupId groupInfo w messages :
  fetched cfg client groupId = Some messages ->
  messagesTable (checkMessages cfg client now groupId groupInfo w) =
  if (0 <? List.length (fst (detectNew messages (previousMessageIds groupInfo))))%nat
     || isFirstRun groupInfo
  then fold_left (fun t p => Store.insertOrReplace (messageRow p) t)
         (processedList client messages (gd_name groupInfo) groupId)
         (messagesTable w)
  else messagesTable w.
Proof.
  intros H. destruct (fetched_inv _ _ _ _ H) as (chats & group & Hc & Hf & Hm).
  unfold checkMessages. rewrite Hc, Hf.
  pose proof (messagesTable_checkMembers cfg client now groupId groupInfo group w)
    as Ht.
  destruct (checkMembers_group cfg client now groupId groupInfo group w)
    as (Hn & Hi & Hr & _).
  destruct (checkMembers cfg client now groupId groupInfo group w) as [w1 g1].
  cbn [fst snd] in *. rewrite Hm.
  pose proof (messagesTable_checkFetched client groupId g1 messages w1) as Hx.
  destruct (checkFetched client groupId g1 messages w1) as [w2 g2].
  cbn [fst] in Hx.
  now rewrite messagesTable_commit, Hx, Hn, Hi, Hr, Ht.
Qed.

Lemma insertOrReplace_keeps (r r' : Msg.row) (t : list Msg.row) :
  In r t -> Msg.id r <> Msg.id r' -> In r (Store.insertOrReplace r' t).
Proof.
  intros Hin Hne. unfold Store.insertOrReplace. apply in_or_app. left.
  apply filter_In. split; [assumption|].
  apply String.eqb_neq in Hne. now rewrite Hne.
Qed.

Lemma insertOrReplace_new (r : Msg.row) (t : list Msg.row) :
  In r (Store.insertOrReplace r t).
Proof. unfold Store.insertOrReplace. apply in_or_app. right. now left. Qed.

Lemma upsert_all_In (ps : list Processed) (t : list Msg.row) (p : Processed) :
  NoDup (map pm_id ps) -> In p ps ->
  In (messageRow p)
    (fold_left (fun t p => Store.insertOrReplace (messageRow p) t) ps t).
Proof.
  revert t. induction ps as [|q ps IH]; intros t Hnd Hin; [contradiction|].
  simpl in Hnd. inversion Hnd as [|? ? Hq Hps]; subst.
  destruct Hin as [-> | Hin]; simpl; [|now apply IH].
  clear IH Hnd.
  assert (H : In (messageRow p) (Store.insertOrReplace (messageRow p) t))
    by apply insertOrReplace_new.
  revert H. generalize (Store.insertOrReplace (messageRow p) t) as u.
  induction ps as [|q ps IH]; intros u Hu; [assumption|].
  simpl. inversion Hps as [|? ? Hq' Hps']; subst.
  apply IH; [| assumption |].
  - intros Hc. apply Hq. now right.
  - apply insertOrReplace_keeps; [assumption|].
    simpl. intros E. apply Hq. left. now symmetry.
Qed.

Lemma processed_id client msg groupName groupId p :
  processed client msg groupName groupId = Some p -> pm_id p = WA.msg_id msg.
Proof.
  unfold processed. destruct (JSDate.toISOString _); [|discriminate].
  destruct (isNotification _); intros [= <-]; reflexivity.
Qed.

Lemma processedList_ids client messages groupName groupId :
  NoDup (idsOf messages) ->
  NoDup (map pm_id (processedList client messages groupName groupId)).
Proof.
  unfold processedList, idsOf.
  induction messages as [|msg l IH]; simpl; intros H; [constructor|].
  inversion H as [|? ? Hn Hl]; subst.
  destruct (processed client msg groupName groupId) as [p|] eqn:E;
    simpl; [|now apply IH].
  constructor; [|now apply IH].
  rewrite (processed_id _ _ _ _ _ E). intros Hin. apply Hn.
  apply in_map_iff in Hin. destruct Hin as (q & Hq & Hin).
  apply in_flat_map in Hin. destruct Hin as (m & Hm & Hin).
  destruct (processed client m groupName groupId) as [q'|] eqn:E';
    [|contradiction].
  destruct Hin as [-> | []].
  rewrite (processed_id _ _ _ _ _ E') in Hq. rewrite <- Hq. now apply in_map.
Qed.

(** C5, as amended.  A pass that fetched [messages] writes to the messages
    table only when at least one fetched message is new or the pass is the
    first one of the group: it then upserts every fetched message for which
    [processMessage] returns a value, those already in the window included
    (so with distinct ids each of their rows is in the table afterwards);
    otherwise it leaves the table as it was. *)
Theorem persist_when_new_or_first :
  forall cfg client now groupId groupInfo w messages,
    fetched cfg client groupId = Some messages ->
    let newMessages := fst (detectNew messages (previousMessageIds groupInfo)) in
    let w' := checkMessages cfg client now groupId groupInfo w in
    messagesTable w' =
      (if (0 <? List.length newMessages)%nat || isFirstRun groupInfo
       then fold_left (fun t p => Store.insertOrReplace (messageRow p) t)
              (processedList client messages (gd_name groupInfo) groupId)
              (messagesTable w)
       else messagesTable w) /\
    ((0 <? List.length newMessages)%nat || isFirstRun groupInfo = true ->
     NoDup (idsOf messages) ->
     forall msg p,
       In msg messages ->
       processed client msg (gd_name groupInfo) groupId = Some p ->
       In (messageRow p) (messagesTable w')) /\
    ((0 <? List.length newMessages)%nat || isFirstRun groupInfo = false ->
     messagesTable w' = messagesTable w).
Proof.
  intros cfg client now groupId groupInfo w messages Hf newMessages w'.
  pose proof (messagesTable_checkMessages cfg client now groupId groupInfo w
                messages Hf) as H.
  fold newMessages in H. fold w' in H.
  split; [exact H|]. split.
  - intros Hg Hnd msg p Hm Hp. rewrite H, Hg.
    apply upsert_all_In; [now apply processedList_ids|].
    unfold processedList. apply in_flat_map. exists msg.
    split; [assumption|]. rewrite Hp. now left.
  - intros Hg. now rewrite H, Hg.
Qed.

Lemma persist_when_new_or_first_witness :
  let g := Sample.steadyGroup [Sample.A] ["3EB0A1"] in
  let seen := Sample.text "3EB0A1" 1699999000 Sample.A "hello" in
  let fresh := Sample.text "3EB0A2" 1699999100 Sample.A "anyone there?" in
  let inp := Sample.input [Sample.A] [seen; fresh] in
  match processed (client inp) seen (gd_name g) Sample.groupId with
  | Some p =>
      In (messageRow p)
        (messagesTable
           (checkMessages defaultConfig (client inp) (now inp) Sample.groupId g
              (Sample.monitoring g)))
  | None => False
  end.
Proof.
  intros g seen fresh inp.
  destruct (processed (client inp) seen (gd_name g) Sample.groupId) as [p|] eqn:E;
    [|discriminate E].
  assert (Hnd : NoDup (idsOf [seen; fresh]))
    by (repeat constructor; simpl; intuition discriminate).
  exact (proj1 (proj2 (persist_when_new_or_first defaultConfig (client inp)
                         (now inp) Sample.groupId g (Sample.monitoring g)
                         [seen; fresh] eq_refl))
           eq_refl Hnd seen p (or_introl eq_refl) E).
Defined.

(** Counterexample to C5 as stated: the first pass stores message 3EB0A1;
    the message is then edited, and the next pass fetches it again.  Its id
    is in the window, no fetched message is new, and the pass completes
    without writing: the table still holds the old text. *)
Lemma seen_message_not_persisted :
  let g := Sample.newGroup [Sample.A] in
  let first := Sample.input [Sample.A]
                 [Sample.text "3EB0A1" 1699999000 Sample.A "see you at 5"] in
  let edited := Sample.text "3EB0A1" 1699999000 Sample.A "see you at 6" in
  let second := Sample.input [Sample.A] [edited] in
  let w1 := pass defaultConfig first Sample.groupId (Sample.monitoring g) in
  let w2 := pass defaultConfig second Sample.groupId w1 in
  fetched defaultConfig (client second) Sample.groupId = Some [edited] /\
  (exists p,
      processed (client second) edited "Cairo Team" Sample.groupId = Some p /\
      ~ In (messageRow p) (messagesTable w2)) /\
  map Msg.message (messagesTable w2) = ["see you at 5"].
Proof.
  split; [reflexivity|]. split; [|reflexivity].
  eexists. split; [reflexivity|].
  vm_compute. intros [H | []]. discriminate.
Qed.

(** ** The caches after a pass, and the other groups *)

Lemma monitoredGroups_checkMembers cfg client now groupId groupInfo group w :
  monitoredGroups (fst (checkMembers cfg client now groupId groupInfo group w)) =
  monitoredGroups w.
Proof.
  apply (checkMembers_preserves cfg
           (fun w' => monitoredGroups w' = monitoredGroups w) (fun _ => True));
    try untouched; auto.
Qed.

Lemma monitoredGroups_checkFetched client groupId groupInfo messages w :
  monitoredGroups (fst (checkFetched client groupId groupInfo messages w)) =
  monitoredGroups w.
Proof.
  apply (checkFetched_preserves (fun w' => monitoredGroups w' = monitoredGroups w));
    try untouched; auto.
Qed.

Lemma checkMembers_snd cfg client now groupId groupInfo group w :
  snd (checkMembers cfg client now groupId groupInfo group w) =
  match WA.participants group with
  | Some ps =>
      if DETECT_JOINS_LEAVES cfg
      then setPreviousMembers (JSSet.of_list ps) groupInfo
      else groupInfo
  | None => groupInfo
  end.
Proof.
  unfold checkMembers. destruct (WA.participants group); [|reflexivity].
  now destruct (DETECT_JOINS_LEAVES cfg).
Qed.

Lemma checkFetched_snd client groupId groupInfo messages w :
  snd (checkFetched client groupId groupInfo messages w) =
  setMessageState (cleanUp (snd (detectNew messages (previousMessageIds groupInfo))))
    false groupInfo.
Proof.
  unfold checkFetched.
  destruct (detectNew messages (previousMessageIds groupInfo)) as [newMessages ids].
  cbn [snd].
  destruct ((0 <? List.length newMessages)%nat) eqn:E; simpl.
  - destruct (processAll _ _ _ _ _). reflexivity.
  - destruct (isFirstRun groupInfo) eqn:F.
    + destruct (processAll _ _ _ _ _). reflexivity.
    + reflexivity.
Qed.

(** The map of monitored groups after a pass: the entry of the group holds
    the group object of the pass. *)
Lemma monitoredGroups_checkMessages cfg client now groupId groupInfo w :
  JSMap.get groupId (monitoredGroups w) = Some groupInfo ->
  JSMap.get groupId (monitoredGroups (checkMessages cfg client now groupId groupInfo w))
    = Some (groupAfter cfg client groupId groupInfo) /\
  forall other,
    other <> groupId ->
    JSMap.get other (monitoredGroups (checkMessages cfg client now groupId groupInfo w))
    = JSMap.get other (monitoredGroups w).
Proof.
  intros Hg. unfold checkMessages, groupAfter.
  destruct (WA.getChats client) as [chats|]; [|now split].
  destruct (find _ chats) as [group|]; [|now split].
  pose proof (monitoredGroups_checkMembers cfg client now groupId groupInfo group w)
    as Hm.
  pose proof (checkMembers_snd cfg client now groupId groupInfo group w) as Hs.
  destruct (checkMembers cfg client now groupId groupInfo group w) as [w1 g1].
  cbn [fst snd] in *. rewrite <- Hs.
  destruct (WA.fetchMessages group (MESSAGE_LIMIT cfg)) as [messages|].
  - pose proof (monitoredGroups_checkFetched client groupId g1 messages w1) as Hx.
    pose proof (checkFetched_snd client groupId g1 messages w1) as Hy.
    destruct (checkFetched client groupId g1 messages w1) as [w2 g2].
    cbn [fst snd] in *. subst g2.
    assert (E : monitoredGroups (commit groupId
                  (setMessageState
                     (cleanUp (snd (detectNew messages (previousMessageIds g1))))
                     false g1) w2) =
                JSMap.mutate groupId (fun _ =>
                  setMessageState
                    (cleanUp (snd (detectNew messages (previousMessageIds g1))))
                    false g1) (monitoredGroups w)).
    { rewrite <- Hm, <- Hx. now destruct w2. }
    rewrite E. split.
    + now rewrite get_mutate_same, Hg.
    + intros other Ho. now apply get_mutate_other.
  - assert (E : monitoredGroups (commit groupId g1 w1) =
                JSMap.mutate groupId (fun _ => g1) (monitoredGroups w)).
    { rewrite <- Hm. now destruct w1. }
    rewrite E. split.
    + now rewrite get_mutate_same, Hg.
    + intros other Ho. now apply get_mutate_other.
Qed.

Lemma pass_other_group cfg inp groupId other w :
  other <> groupId ->
  JSMap.get other (monitoredGroups (pass cfg inp groupId w)) =
  JSMap.get other (monitoredGroups w).
Proof.
  intros Ho. unfold pass.
  destruct (JSMap.get groupId (monitoredGroups w)) as [groupInfo|] eqn:E;
    [|reflexivity].
  now apply (monitoredGroups_checkMessages cfg (client inp) (now inp) groupId
               groupInfo w E).
Qed.

Lemma passes_other_group cfg inputs (l : list string) other w :
  ~ In other l ->
  JSMap.get other
    (monitoredGroups
       (fold_left (fun w groupId => pass cfg (inputs groupId) groupId w) l w)) =
  JSMap.get other (monitoredGroups w).
Proof.
  revert w. induction l as [|g l IH]; intros w Hn; simpl; [reflexivity|].
  rewrite IH by (intros H; apply Hn; now right).
  apply pass_other_group. intros ->. apply Hn. now left.
Qed.

(** Nothing is ever taken out of the outbox. *)
Lemma outbox_grows_pass cfg inp groupId w :
  exists l, outbox (pass cfg inp groupId w) = outbox w ++ l.
Proof.
  apply (pass_preserves cfg (fun w' => exists l, outbox w' = outbox w ++ l)
           (fun _ => True)); auto.
  - intros d w0 [l H]. exists (l ++ [d]). rewrite outbox_broadcast, H.
    now rewrite app_assoc.
  - exists []. now rewrite app_nil_r.
Qed.

Lemma outbox_grows_passes cfg inputs (l : list string) w :
  exists k,
    outbox (fold_left (fun w groupId => pass cfg (inputs groupId) groupId w) l w)
    = outbox w ++ k.
Proof.
  revert w. induction l as [|g l IH]; intros w; simpl.
  - exists []. now rewrite app_nil_r.
  - destruct (IH (pass cfg (inputs g) g w)) as [k Hk].
    destruct (outbox_grows_pass cfg (inputs g) g w) as [k' Hk'].
    exists (k' ++ k). now rewrite Hk, Hk', app_assoc.
Qed.

Lemma get_In_keys {V} (k : string) (v : V) (m : JSMap.t V) :
  JSMap.get k m = Some v -> In k (JSMap.keys m).
Proof.
  induction m as [|[k' v'] m IH]; simpl; [discriminate|].
  destruct (k =? k')%string eqn:E.
  - apply String.eqb_eq in E. now left.
  - intros H. right. now apply IH.
Qed.

(** A new message of a later pass is broadcast. *)
Lemma new_message_broadcast cfg client now groupId groupInfo w messages msg p :
  isFirstRun groupInfo = false ->
  fetched cfg client groupId = Some messages ->
  In msg (fst (detectNew messages (previousMessageIds groupInfo))) ->
  processed client msg (gd_name groupInfo) groupId = Some p ->
  In (EnvMessage p) (emitted w (checkMessages cfg client now groupId groupInfo w)).
Proof.
  intros Hfirst Hf Hnew Hp.
  destruct (fetched_inv _ _ _ _ Hf) as (chats & group & Hc & Hfind & Hm).
  rewrite (emitted_app _ _ _
             (outbox_checkMessages cfg client now groupId groupInfo w chats group
                Hc Hfind)).
  rewrite Hm. apply in_or_app. right.
  unfold fetchedEnvelopes. rewrite Hfirst.
  destruct (fst (detectNew messages (previousMessageIds groupInfo)))
    as [|m0 l0] eqn:E; [contradiction|].
  cbn [List.length Nat.ltb Nat.leb orb negb].
  apply in_or_app. right. unfold newEnvelopes. apply in_flat_map.
  exists msg. split; [assumption|]. apply in_or_app. right.
  rewrite Hp. now left.
Qed.

Lemma emitted_grows (w w' : World) (l : list Envelope) (d : Envelope) :
  outbox w' = outbox w ++ l -> In d (emitted w w') -> In d l.
Proof. intros H. now rewrite (emitted_app _ _ _ H). Qed.

Lemma new_message_survives_tick cfg inputs w groupId groupInfo messages msg p :
  NoDup (JSMap.keys (monitoredGroups w)) ->
  JSMap.get groupId (monitoredGroups w) = Some groupInfo ->
  isFirstRun groupInfo = false ->
  fetched cfg (client (inputs groupId)) groupId = Some messages ->
  In msg (fst (detectNew messages (previousMessageIds groupInfo))) ->
  processed (client (inputs groupId)) msg (gd_name groupInfo) groupId = Some p ->
  In (EnvMessage p) (emitted w (checkAllGroups cfg inputs w)) /\
  JSMap.get groupId (monitoredGroups (checkAllGroups cfg inputs w)) =
    Some (groupAfter cfg (client (inputs groupId)) groupId groupInfo).
Proof.
  intros Hnd Hg Hfirst Hf Hnew Hp. unfold checkAllGroups.
  destruct (in_split _ _ (get_In_keys _ _ _ Hg)) as (l1 & l2 & Hk).
  rewrite Hk in *. apply NoDup_remove_2 in Hnd.
  assert (H1 : ~ In groupId l1) by (intros H; apply Hnd, in_or_app; now left).
  assert (H2 : ~ In groupId l2) by (intros H; apply Hnd, in_or_app; now right).
  rewrite fold_left_app. cbn [fold_left].
  set (wa := fold_left (fun w g => pass cfg (inputs g) g w) l1 w).
  assert (Ha : JSMap.get groupId (monitoredGroups wa) = Some groupInfo).
  { unfold wa. now rewrite passes_other_group. }
  destruct (outbox_grows_passes cfg inputs l1 w) as [ka Hka]. fold wa in Hka.
  set (wb := pass cfg (inputs groupId) groupId wa).
  assert (Hb : wb = checkMessages cfg (client (inputs groupId))
                      (now (inputs groupId)) groupId groupInfo wa).
  { unfold wb, pass. now rewrite Ha. }
  destruct (outbox_grows_pass cfg (inputs groupId) groupId wa) as [kb Hkb].
  fold wb in Hkb.
  assert (Hin : In (EnvMessage p) kb).
  { apply (emitted_grows wa wb kb _ Hkb). rewrite Hb.
    now apply (new_message_broadcast cfg _ _ _ _ _ messages msg). }
  destruct (outbox_grows_passes cfg inputs l2 wb) as [kc Hkc].
  split.
  - rewrite (emitted_app w _ (ka ++ kb ++ kc)).
    + apply in_or_app. right. apply in_or_app. now left.
    + now rewrite Hkc, Hkb, Hka, <- !app_assoc.
  - rewrite passes_other_group by assumption. rewrite Hb.
    now apply monitoredGroups_checkMessages.
Qed.

Lemma emitted_fetch_fails cfg client now groupId groupInfo w chats group :
  WA.getChats client = Some chats ->
  find (fun chat => (WA.chat_id chat =? groupId)%string) chats = Some group ->
  WA.fetchMessages group (MESSAGE_LIMIT cfg) = None ->
  emitted w (checkMessages cfg client now groupId groupInfo w) =
  map EnvEvent (diffEvents cfg client now groupId groupInfo group).
Proof.
  intros Hc Hf Hm. apply emitted_app.
  rewrite (outbox_checkMessages cfg client now groupId groupInfo w chats group Hc Hf).
  now rewrite Hm, app_nil_r.
Qed.

Lemma messagesTable_fetch_fails cfg client now groupId groupInfo w chats group :
  WA.getChats client = Some chats ->
  find (fun chat => (WA.chat_id chat =? groupId)%string) chats = Some group ->
  WA.fetchMessages group (MESSAGE_LIMIT cfg) = None ->
  messagesTable (checkMessages cfg client now groupId groupInfo w) =
  messagesTable w.
Proof.
  intros Hc Hf Hm. unfold checkMessages. rewrite Hc, Hf.
  pose proof (messagesTable_checkMembers cfg client now groupId groupInfo group w)
    as Ht.
  destruct (checkMembers cfg client now groupId groupInfo group w) as [w1 g1].
  rewrite Hm. now rewrite messagesTable_commit.
Qed.

(** [groupInfoStore] after a pass: the member count of the group is
    rewritten when the pass read the participants. *)
Lemma groupInfoStore_checkMessages cfg client now groupId groupInfo w :
  groupInfoStore (checkMessages cfg client now groupId groupInfo w) =
  match WA.getChats client with
  | Some chats =>
      match find (fun chat => (WA.chat_id chat =? groupId)%string) chats with
      | Some group =>
          match WA.participants group with
          | Some ps =>
              if DETECT_JOINS_LEAVES cfg
              then JSMap.mutate groupId
                     (setMemberCount (JSSet.size (JSSet.of_list ps)))
                     (groupInfoStore w)
              else groupInfoStore w
          | None => groupInfoStore w
          end
      | None => groupInfoStore w
      end
  | None => groupInfoStore w
  end.
Proof.
  unfold checkMessages.
  destruct (WA.getChats client) as [chats|]; [|reflexivity].
  destruct (find _ chats) as [group|]; [|reflexivity].
  pose proof (groupInfoStore_checkMembers cfg client now groupId groupInfo group w)
    as Hm.
  destruct (checkMembers cfg client now groupId groupInfo group w) as [w1 g1].
  cbn [fst] in Hm. rewrite <- Hm.
  assert (Hc : forall g0 w0, groupInfoStore (commit groupId g0 w0) =
                             groupInfoStore w0) by (intros g0 w0; now destruct w0).
  destruct (WA.fetchMessages group (MESSAGE_LIMIT cfg)) as [messages|];
    [|apply Hc].
  pose proof (checkFetched_preserves
                (fun w' => groupInfoStore w' = groupInfoStore w1)
                ltac:(untouched) ltac:(untouched) ltac:(untouched)
                client groupId g1 messages w1 eq_refl) as Hx.
  destruct (checkFetched client groupId g1 messages w1) as [w2 g2].
  cbn [fst] in Hx. now rewrite Hc.
Qed.

(** C8, as amended.  A rejected [getChats] aborts the pass with the whole
    state as it was.  A rejected [fetchMessages] aborts the pass after the
    membership diff has run: the Recent-ID Window, the first-run flag and the
    messages table are as before, but the member snapshot already is the
    current member set and the member count of the group in [groupInfoStore]
    already is the size of that set (when join/leave detection is on and a
    participant list is present), and the JOIN and LEAVE events of the diff
    have been emitted.  Whatever the chat client does during the passes of
    the other groups of a tick, the pass of a group in steady state whose
    fetch succeeds runs to completion and its new messages are broadcast. *)
Theorem failure_aborts_one_pass :
  forall cfg,
    (forall client now groupId groupInfo w,
        WA.getChats client = None ->
        checkMessages cfg client now groupId groupInfo w = w) /\
    (forall client now groupId groupInfo w chats group,
        WA.getChats client = Some chats ->
        find (fun chat => (WA.chat_id chat =? groupId)%string) chats = Some group ->
        WA.fetchMessages group (MESSAGE_LIMIT cfg) = None ->
        JSMap.get groupId (monitoredGroups w) = Some groupInfo ->
        let w' := checkMessages cfg client now groupId groupInfo w in
        exists g',
          JSMap.get groupId (monitoredGroups w') = Some g' /\
          previousMessageIds g' = previousMessageIds groupInfo /\
          isFirstRun g' = isFirstRun groupInfo /\
          previousMembers g' =
            match WA.participants group with
            | Some ps =>
                if DETECT_JOINS_LEAVES cfg then JSSet.of_list ps
                else previousMembers groupInfo
            | None => previousMembers groupInfo
            end /\
          groupInfoStore w' =
            match WA.participants group with
            | Some ps =>
                if DETECT_JOINS_LEAVES cfg
                then JSMap.mutate groupId
                       (setMemberCount (JSSet.size (JSSet.of_list ps)))
                       (groupInfoStore w)
                else groupInfoStore w
            | None => groupInfoStore w
            end /\
          messagesTable w' = messagesTable w /\
          emitted w w' =
            map EnvEvent (diffEvents cfg client now groupId groupInfo group)) /\
    (forall inputs w groupId groupInfo messages msg p,
        NoDup (JSMap.keys (monitoredGroups w)) ->
        JSMap.get groupId (monitoredGroups w) = Some groupInfo ->
        isFirstRun groupInfo = false ->
        fetched cfg (client (inputs groupId)) groupId = Some messages ->
        In msg (fst (detectNew messages (previousMessageIds groupInfo))) ->
        processed (client (inputs groupId)) msg (gd_name groupInfo) groupId
          = Some p ->
        In (EnvMessage p) (emitted w (checkAllGroups cfg inputs w)) /\
        JSMap.get groupId (monitoredGroups (checkAllGroups cfg inputs w)) =
          Some (groupAfter cfg (client (inputs groupId)) groupId groupInfo)).
Proof.
  intros cfg. split; [|split].
  - intros. now apply checkMessages_no_chats.
  - intros client now groupId groupInfo w chats group Hc Hf Hm Hg w'.
    destruct (monitoredGroups_checkMessages cfg client now groupId groupInfo w Hg)
      as [Hafter _].
    exists (groupAfter cfg client groupId groupInfo).
    split; [exact Hafter|].
    unfold groupAfter. rewrite Hc, Hf, Hm.
    repeat split.
    + destruct (WA.participants group); [|reflexivity].
      now destruct (DETECT_JOINS_LEAVES cfg).
    + destruct (WA.participants group); [|reflexivity].
      now destruct (DETECT_JOINS_LEAVES cfg).
    + destruct (WA.participants group); [|reflexivity].
      now destruct (DETECT_JOINS_LEAVES cfg).
    + unfold w'. rewrite groupInfoStore_checkMessages. now rewrite Hc, Hf.
    + now apply (messagesTable_fetch_fails cfg client now groupId groupInfo w
                   chats group).
    + now apply (emitted_fetch_fails cfg client now groupId groupInfo w chats group).
  - intros. now apply (new_message_survives_tick cfg inputs w groupId groupInfo
                         messages msg p).
Qed.

Lemma failure_aborts_one_pass_witness :
  let history := [Sample.text "3EB0B1" 1699999000 Sample.A "run at 6?";
                  Sample.text "3EB0B2" 1699999600 Sample.A "meet at the gate"] in
  let w' := checkAllGroups defaultConfig (Sample.tickInputs history)
              Sample.twoGroups in
  fetched defaultConfig (client (Sample.tickInputs history Sample.groupId))
    Sample.groupId = None /\
  In (EnvMessage
        {| pm_id := "3EB0B2"; pm_timestamp := "2023-11-14T22:06:40.000Z";
           pm_sender := "201000000001"; pm_senderId := Sample.A;
           pm_message := "meet at the gate"; pm_type := "chat";
           pm_hasMedia := false; pm_groupId := Sample.otherId;
           pm_groupName := "Giza Runners" |})
     (emitted Sample.twoGroups w').
Proof.
  intros history w'. split; [reflexivity|].
  apply (proj2 (proj2 (failure_aborts_one_pass defaultConfig))
           (Sample.tickInputs history) Sample.twoGroups Sample.otherId
           (Sample.otherGroup ["3EB0B1"]) history
           (Sample.text "3EB0B2" 1699999600 Sample.A "meet at the gate")).
  - repeat constructor; simpl; intuition discriminate.
  - reflexivity.
  - reflexivity.
  - reflexivity.
  - vm_compute. now left.
  - reflexivity.
Defined.

(** Counterexample to C8 as stated: B has left and D has joined;
    [fetchMessages] rejects.  The pass is aborted, yet the member snapshot of
    the group has been replaced and the two events have been emitted. *)
Lemma failed_pass_moves_snapshot :
  let g := Sample.steadyGroup [Sample.A; Sample.B; Sample.C] ["3EB0A1"] in
  let inp := Sample.inputFetchFails [Sample.A; Sample.C; Sample.D] in
  let w' := pass defaultConfig inp Sample.groupId (Sample.monitoring g) in
  fetched defaultConfig (client inp) Sample.groupId = None /\
  previousMembers g = [Sample.A; Sample.B; Sample.C] /\
  option_map previousMembers (JSMap.get Sample.groupId (monitoredGroups w')) =
    Some [Sample.A; Sample.C; Sample.D] /\
  map ev_type (eventsOf (emitted (Sample.monitoring g) w')) = [JOIN; LEAVE].
Proof. vm_compute. auto. Qed.

(** ** The Recent-ID Window *)

Lemma cleanUp_sliceLast (ids : JSSet.t) : cleanUp ids = JS.sliceLast 100 ids.
Proof.
  unfold cleanUp, JS.sliceLast, JSSet.size.
  destruct (100 <? List.length ids)%nat eqn:E; [reflexivity|].
  apply Nat.ltb_ge in E.
  replace (List.length ids - 100) with 0 by lia. reflexivity.
Qed.

Lemma sliceLast_length {A} (n : nat) (l : list A) :
  List.length (JS.sliceLast n l) = Nat.min n (List.length l).
Proof. unfold JS.sliceLast. rewrite length_skipn. lia. Qed.

Lemma sliceLast_app {A} (n : nat) (l k : list A) :
  JS.sliceLast n (JS.sliceLast n l ++ k) = JS.sliceLast n (l ++ k).
Proof.
  unfold JS.sliceLast. rewrite !length_app, length_skipn.
  destruct (Nat.le_gt_cases (List.length l) n) as [Hle | Hgt].
  - replace (List.length l - n) with 0 by lia. simpl.
    now rewrite Nat.sub_0_r.
  - replace (List.length l - (List.length l - n) + List.length k - n)
      with (List.length k) by lia.
    replace (List.length l + List.length k - n)
      with (List.length k + (List.length l - n)) by lia.
    rewrite <- skipn_skipn. f_equal.
    rewrite skipn_app.
    replace (List.length l - n - List.length l) with 0 by lia. reflexivity.
Qed.

Lemma sliceLast_incl {A} (n : nat) (l : list A) : incl (JS.sliceLast n l) l.
Proof.
  unfold JS.sliceLast. intros x Hx.
  rewrite <- (firstn_skipn (List.length l - n) l). apply in_or_app. now right.
Qed.

Lemma sliceLast_NoDup {A} (n : nat) (l : list A) :
  NoDup l -> NoDup (JS.sliceLast n l).
Proof.
  unfold JS.sliceLast. intros H.
  rewrite <- (firstn_skipn (List.length l - n) l) in H.
  now apply NoDup_app_remove_l in H.
Qed.

Lemma detectNew_app (l1 l2 : list WA.Message) (ids : JSSet.t) :
  detectNew (l1 ++ l2) ids =
  (fst (detectNew l1 ids) ++ fst (detectNew l2 (snd (detectNew l1 ids))),
   snd (detectNew l2 (snd (detectNew l1 ids)))).
Proof.
  unfold detectNew at 1. rewrite fold_left_app.
  fold (detectNew l1 ids).
  destruct (detectNew l1 ids) as [n1 i1]. cbn [fst snd].
  rewrite detectNew_acc. f_equal. symmetry. apply detectNew_window.
Qed.

Lemma detectNew_NoDup (messages : list WA.Message) (ids : JSSet.t) :
  NoDup ids -> NoDup (snd (detectNew messages ids)).
Proof.
  revert ids. induction messages as [|msg l IH]; intros ids H; [assumption|].
  change (msg :: l) with ([msg] ++ l). rewrite detectNew_app. cbn [snd].
  apply IH. unfold detectNew. cbn [fold_left fst snd].
  destruct (JSSet.has (WA.msg_id msg) ids) eqn:E; [assumption|].
  apply has_notIn in E. cbn [snd].
  apply NoDup_app; [assumption | repeat constructor; intros [] |].
  intros y Hy [<- | []]. contradiction.
Qed.

(** Every fetched id is in the window after classification. *)
Lemma detectNew_covers (messages : list WA.Message) (ids : JSSet.t) (x : string) :
  In x (snd (detectNew messages ids)) <-> In x ids \/ In x (idsOf messages).
Proof.
  revert ids. induction messages as [|msg l IH]; intros ids.
  - simpl. tauto.
  - change (msg :: l) with ([msg] ++ l). rewrite detectNew_app. cbn [snd].
    rewrite IH. unfold detectNew. cbn [fold_left fst snd idsOf map].
    destruct (JSSet.has (WA.msg_id msg) ids) eqn:E; cbn [snd].
    + apply has_In in E. simpl. split; [tauto|].
      intros [H | [<- | H]]; auto.
    + rewrite in_app_iff. simpl. tauto.
Qed.

Lemma windowStep_eq (win : JSSet.t) (log : list string)
    (messages : list WA.Message) :
  windowStep (win, log) messages =
  (cleanUp (snd (detectNew messages win)),
   log ++ idsOf (fst (detectNew messages win))).
Proof.
  unfold windowStep. cbn [fst snd]. now destruct (detectNew messages win).
Qed.

Lemma observed_cons (messages : list WA.Message)
    (fetches : list (list WA.Message)) :
  observed (messages :: fetches) = idsOf messages ++ observed fetches.
Proof. reflexivity. Qed.

Lemma windowRun_cons (messages : list WA.Message)
    (fetches : list (list WA.Message)) (acc : JSSet.t * list string) :
  windowRun (messages :: fetches) acc = windowRun fetches (windowStep acc messages).
Proof. reflexivity. Qed.

Lemma windowRun_inv (fetches : list (list WA.Message)) :
  forall (win : JSSet.t) (log obs : list string),
    win = JS.sliceLast 100 log -> NoDup win -> incl obs log ->
    fst (windowRun fetches (win, log)) =
      JS.sliceLast 100 (snd (windowRun fetches (win, log))) /\
    NoDup (fst (windowRun fetches (win, log))) /\
    incl (obs ++ observed fetches) (snd (windowRun fetches (win, log))) /\
    exists rest, snd (windowRun fetches (win, log)) = log ++ rest.
Proof.
  induction fetches as [|messages fetches IH]; intros win log obs Hw Hnd Hobs.
  - simpl. rewrite app_nil_r. repeat split; auto.
    exists []. now rewrite app_nil_r.
  - rewrite windowRun_cons, windowStep_eq.
    set (new := idsOf (fst (detectNew messages win))).
    assert (Hwin : snd (detectNew messages win) = win ++ new)
      by apply detectNew_window.
    destruct (IH (cleanUp (snd (detectNew messages win))) (log ++ new)
                 (obs ++ idsOf messages)) as (H1 & H2 & H3 & rest & H4).
    + rewrite cleanUp_sliceLast, Hwin, Hw. apply sliceLast_app.
    + rewrite cleanUp_sliceLast. apply sliceLast_NoDup.
      now apply detectNew_NoDup.
    + apply incl_app.
      * apply incl_appl. exact Hobs.
      * intros x Hx.
        assert (Hc : In x (snd (detectNew messages win)))
          by (apply detectNew_covers; now right).
        rewrite Hwin in Hc. apply in_app_or in Hc. apply in_or_app.
        destruct Hc as [Hc | Hc]; [left | now right].
        rewrite Hw in Hc. now apply sliceLast_incl in Hc.
    + repeat split; auto.
      * now rewrite observed_cons, app_assoc.
      * exists (new ++ rest). now rewrite H4, app_assoc.
Qed.

Lemma add_fold_new (messages : list WA.Message) :
  forall (win : JSSet.t) (s : list string),
    incl win s ->
    NoDup (s ++ idsOf (fst (detectNew messages win))) ->
    fold_left (fun s x => JSSet.add x s) (idsOf messages) s =
    s ++ idsOf (fst (detectNew messages win)).
Proof.
  induction messages as [|msg l IH]; intros win s Hincl Hnd.
  - simpl. now rewrite app_nil_r.
  - cbn [idsOf map fold_left]. rewrite detectNew_cons in Hnd |- *.
    destruct (JSSet.has (WA.msg_id msg) win) eqn:E.
    + apply has_In in E. apply Hincl in E. apply has_In in E.
      unfold JSSet.add. rewrite E. now apply IH.
    + change (idsOf (msg :: fst (detectNew l (win ++ [WA.msg_id msg]))))
        with ([WA.msg_id msg] ++
              idsOf (fst (detectNew l (win ++ [WA.msg_id msg])))) in Hnd |- *.
      assert (Hs : JSSet.has (WA.msg_id msg) s = false).
      { apply has_notIn. intros Hin.
        apply (NoDup_remove_2 s
                 (idsOf (fst (detectNew l (win ++ [WA.msg_id msg]))))
                 (WA.msg_id msg) Hnd).
        apply in_or_app. now left. }
      unfold JSSet.add. rewrite Hs.
      rewrite app_assoc in Hnd |- *. apply IH; [|exact Hnd].
      apply incl_app; [now apply incl_appl | apply incl_appr, incl_refl].
Qed.

Lemma NoDup_prefix {A} (l k : list A) : NoDup (l ++ k) -> NoDup l.
Proof.
  apply NoDup_app_remove_r.
Qed.

Lemma windowRun_first (fetches : list (list WA.Message)) :
  forall (win : JSSet.t) (log obs : list string),
    win = JS.sliceLast 100 log -> NoDup win -> incl obs log ->
    log = JSSet.of_list obs ->
    NoDup (snd (windowRun fetches (win, log))) ->
    snd (windowRun fetches (win, log)) = JSSet.of_list (obs ++ observed fetches).
Proof.
  induction fetches as [|messages fetches IH];
    intros win log obs Hw Hndw Hobs Hlog Hnd.
  - simpl. now rewrite app_nil_r.
  - rewrite windowRun_cons, windowStep_eq in *.
    set (new := idsOf (fst (detectNew messages win))) in *.
    assert (Hwin : snd (detectNew messages win) = win ++ new)
      by apply detectNew_window.
    assert (Hstep : cleanUp (snd (detectNew messages win)) =
                    JS.sliceLast 100 (log ++ new)).
    { rewrite cleanUp_sliceLast, Hwin, Hw. apply sliceLast_app. }
    assert (Hndw' : NoDup (cleanUp (snd (detectNew messages win)))).
    { rewrite cleanUp_sliceLast. apply sliceLast_NoDup.
      now apply detectNew_NoDup. }
    assert (Hobs' : incl (obs ++ idsOf messages) (log ++ new)).
    { apply incl_app; [now apply incl_appl|]. intros x Hx.
      assert (Hc : In x (snd (detectNew messages win)))
        by (apply detectNew_covers; now right).
      rewrite Hwin in Hc. apply in_app_or in Hc. apply in_or_app.
      destruct Hc as [Hc | Hc]; [left | now right].
      rewrite Hw in Hc. now apply sliceLast_incl in Hc. }
    destruct (windowRun_inv fetches _ _ _ Hstep Hndw' Hobs')
      as (_ & _ & _ & rest & Hrest).
    assert (Hlog' : log ++ new = JSSet.of_list (obs ++ idsOf messages)).
    { unfold JSSet.of_list. rewrite fold_left_app.
      fold (JSSet.of_list obs). rewrite <- Hlog. symmetry.
      apply add_fold_new.
      - rewrite Hw. apply sliceLast_incl.
      - rewrite Hrest in Hnd. now apply NoDup_prefix in Hnd. }
    rewrite (IH _ _ (obs ++ idsOf messages) Hstep Hndw' Hobs' Hlog' Hnd).
    now rewrite observed_cons, app_assoc.
Qed.

Lemma cleanUp_length (ids : JSSet.t) : List.length (cleanUp ids) <= 100.
Proof. rewrite cleanUp_sliceLast, sliceLast_length. lia. Qed.

Lemma groupAfter_window cfg client groupId groupInfo :
  previousMessageIds (groupAfter cfg client groupId groupInfo) =
  match fetched cfg client groupId with
  | Some messages =>
      cleanUp (snd (detectNew messages (previousMessageIds groupInfo)))
  | None => previousMessageIds groupInfo
  end.
Proof.
  unfold groupAfter, fetched.
  destruct (WA.getChats client) as [chats|]; [|reflexivity].
  destruct (find _ chats) as [group|]; [|reflexivity].
  destruct (WA.fetchMessages group (MESSAGE_LIMIT cfg)) as [messages|].
  - destruct (WA.participants group); [|reflexivity].
    now destruct (DETECT_JOINS_LEAVES cfg).
  - destruct (WA.participants group); [|reflexivity].
    now destruct (DETECT_JOINS_LEAVES cfg).
Qed.

Lemma pass_group cfg inp groupId groupInfo w :
  JSMap.get groupId (monitoredGroups w) = Some groupInfo ->
  JSMap.get groupId (monitoredGroups (pass cfg inp groupId w)) =
  Some (groupAfter cfg (client inp) groupId groupInfo).
Proof.
  intros H. unfold pass. rewrite H.
  now apply monitoredGroups_checkMessages.
Qed.

(** The window of a group over successive passes follows [windowRun] over
    the fetches of the passes that got to fetch. *)
Lemma runPasses_window cfg (inps : list PassInput) (groupId : string) :
  forall w groupInfo log,
    JSMap.get groupId (monitoredGroups w) = Some groupInfo ->
    option_map previousMessageIds
      (JSMap.get groupId (monitoredGroups (runPasses cfg inps groupId w))) =
    Some (fst (windowRun (fetchesOf cfg inps groupId)
                 (previousMessageIds groupInfo, log))).
Proof.
  induction inps as [|inp inps IH]; intros w groupInfo log Hg.
  - simpl. now rewrite Hg.
  - unfold runPasses. cbn [fold_left]. fold (runPasses cfg inps groupId).
    pose proof (pass_group cfg inp groupId groupInfo w Hg) as Hp.
    unfold fetchesOf. cbn [flat_map]. fold (fetchesOf cfg inps groupId).
    pose proof (groupAfter_window cfg (client inp) groupId groupInfo) as Hw.
    destruct (fetched cfg (client inp) groupId) as [messages|].
    + cbn [app]. rewrite windowRun_cons, windowStep_eq, <- Hw.
      apply (IH _ _ _ Hp).
    + cbn [app]. rewrite <- Hw. apply (IH _ _ _ Hp).
Qed.

Lemma detectNew_snoc (pre : list WA.Message) (msg : WA.Message) (ids : JSSet.t) :
  fst (detectNew (pre ++ [msg]) ids) =
  fst (detectNew pre ids) ++
  (if JSSet.has (WA.msg_id msg) (snd (detectNew pre ids)) then [] else [msg]).
Proof.
  rewrite detectNew_app. cbn [fst]. f_equal.
  unfold detectNew at 1. cbn [fold_left fst snd].
  now destruct (JSSet.has (WA.msg_id msg) (snd (detectNew pre ids))).
Qed.

Lemma windowRun_empty (fetches : list (list WA.Message)) :
  fst (windowRun fetches ([], [])) =
    JS.sliceLast 100 (snd (windowRun fetches ([], []))) /\
  List.length (fst (windowRun fetches ([], []))) <= 100 /\
  NoDup (fst (windowRun fetches ([], []))) /\
  (100 < List.length (firstObserved (observed fetches)) ->
   List.length (fst (windowRun fetches ([], []))) = 100) /\
  (NoDup (snd (windowRun fetches ([], []))) ->
   fst (windowRun fetches ([], [])) =
   JS.sliceLast 100 (firstObserved (observed fetches))).
Proof.
  destruct (windowRun_inv fetches [] [] [] eq_refl (NoDup_nil _) (incl_refl _))
    as (H1 & H2 & H3 & _).
  pose proof (windowRun_first fetches [] [] [] eq_refl (NoDup_nil _)
                (incl_refl _) eq_refl) as H4.
  remember (fst (windowRun fetches ([], []))) as win eqn:Ew.
  remember (snd (windowRun fetches ([], []))) as log eqn:El.
  assert (G1 : win = JS.sliceLast 100 log) by (subst win log; exact H1).
  assert (G2 : NoDup win) by (subst win; exact H2).
  assert (G3 : incl (observed fetches) log) by (subst log; exact H3).
  assert (G4 : NoDup log -> log = JSSet.of_list (observed fetches))
    by (subst log; exact H4).
  clear H1 H2 H3 H4 Ew El.
  split; [exact G1|]. split; [rewrite G1, sliceLast_length; lia|].
  split; [exact G2|]. split.
  - intros Hlen. rewrite G1, sliceLast_length.
    assert (Hle : List.length (firstObserved (observed fetches)) <= List.length log).
    { apply NoDup_incl_length; [apply of_list_NoDup|].
      intros x Hx. apply G3. unfold firstObserved in Hx.
      exact (proj1 (of_list_In _ _) Hx). }
    lia.
  - intros Hnd. rewrite G1. f_equal. now apply G4.
Qed.

(** C9, as amended.  A fetched message is classified as new exactly when
    its id is absent from the window as it is when the loop reaches the
    message.  When a pass that fetched ends, the window is the one after
    classification cut down to its last hundred ids, and so holds at most a
    hundred ids.  Over the passes of a group, starting from the empty
    window, the window is always the last hundred entries of the insertion
    log, the sequence of ids in the order in which they were added; it is
    duplicate-free, and it holds exactly a hundred ids once more than a
    hundred distinct ids have been observed.  An id is logged each time it
    is fetched while absent from the window, so an id that was evicted and
    is fetched again is new again and re-enters at the newest end; as long
    as no id has been logged twice, the window is the hundred most recently
    first-observed ids. *)
Theorem recent_id_window :
  (forall pre msg ids,
      fst (detectNew (pre ++ [msg]) ids) =
      fst (detectNew pre ids) ++
      (if JSSet.has (WA.msg_id msg) (snd (detectNew pre ids))
       then [] else [msg])) /\
  (forall cfg client now groupId groupInfo w messages,
      JSMap.get groupId (monitoredGroups w) = Some groupInfo ->
      fetched cfg client groupId = Some messages ->
      exists g',
        JSMap.get groupId
          (monitoredGroups (checkMessages cfg client now groupId groupInfo w))
          = Some g' /\
        previousMessageIds g' =
          cleanUp (snd (detectNew messages (previousMessageIds groupInfo))) /\
        List.length (previousMessageIds g') <= 100) /\
  (forall fetches,
      let win := fst (windowRun fetches ([], [])) in
      let log := snd (windowRun fetches ([], [])) in
      win = JS.sliceLast 100 log /\
      List.length win <= 100 /\
      NoDup win /\
      (100 < List.length (firstObserved (observed fetches)) ->
       List.length win = 100) /\
      (NoDup log -> win = JS.sliceLast 100 (firstObserved (observed fetches)))) /\
  (forall cfg inps groupId w groupInfo,
      JSMap.get groupId (monitoredGroups w) = Some groupInfo ->
      previousMessageIds groupInfo = [] ->
      option_map previousMessageIds
        (JSMap.get groupId (monitoredGroups (runPasses cfg inps groupId w))) =
      Some (fst (windowRun (fetchesOf cfg inps groupId) ([], [])))).
Proof.
  split; [exact detectNew_snoc|]. split; [|split].
  - intros cfg client now groupId groupInfo w messages Hg Hf.
    exists (groupAfter cfg client groupId groupInfo).
    split; [now apply monitoredGroups_checkMessages|].
    rewrite groupAfter_window, Hf. split; [reflexivity | apply cleanUp_length].
  - exact windowRun_empty.
  - intros cfg inps groupId w groupInfo Hg Hids.
    rewrite (runPasses_window cfg inps groupId w groupInfo [] Hg).
    now rewrite Hids.
Qed.

Lemma recent_id_window_witness :
  let inps := [Sample.input [Sample.A] (Sample.historyTo 2);
               Sample.input [Sample.A] (Sample.historyTo 3)] in
  let g := Sample.newGroup [Sample.A] in
  option_map previousMessageIds
    (JSMap.get Sample.groupId
       (monitoredGroups
          (runPasses defaultConfig inps Sample.groupId (Sample.monitoring g)))) =
  Some (fst (windowRun (fetchesOf defaultConfig inps Sample.groupId) ([], []))) /\
  fst (windowRun (fetchesOf defaultConfig inps Sample.groupId) ([], [])) =
  JS.sliceLast 100
    (firstObserved (observed (fetchesOf defaultConfig inps Sample.groupId))).
Proof.
  intros inps g. split.
  - apply (proj2 (proj2 (proj2 recent_id_window)) defaultConfig inps
             Sample.groupId (Sample.monitoring g) g); reflexivity.
  - apply (proj2 (proj2 (proj2 (proj2
             (proj1 (proj2 (proj2 recent_id_window))
                (fetchesOf defaultConfig inps Sample.groupId)))))).
    vm_compute. repeat constructor; simpl; intuition discriminate.
Defined.

(** Counterexample to C9 as stated: the configured message limit is 120 and
    the chat holds 120 messages.  The first pass observes them all and keeps
    the ids of messages 21 to 120.  The second pass fetches the same
    messages: the ids of messages 1 to 20 are absent from the window, so
    these messages are new again and their ids enter the window, which then
    is not the set of the hundred most recently first-observed ids: those
    are messages 21 to 120. *)
Lemma evicted_id_returns :
  let inps := [Sample.input [Sample.A] (Sample.historyTo 120);
               Sample.input [Sample.A] (Sample.historyTo 120)] in
  let g := Sample.newGroup [Sample.A] in
  let w := runPasses Sample.wideConfig inps Sample.groupId (Sample.monitoring g) in
  let first :=
    firstObserved (observed (fetchesOf Sample.wideConfig inps Sample.groupId)) in
  exists win,
    option_map previousMessageIds (JSMap.get Sample.groupId (monitoredGroups w))
      = Some win /\
    List.length first = 120 /\
    List.length win = 100 /\
    JSSet.has (Sample.idOf 1) win = true /\
    JSSet.has (Sample.idOf 1) (JS.sliceLast 100 first) = false /\
    JSSet.has (Sample.idOf 21) win = false /\
    JSSet.has (Sample.idOf 21) (JS.sliceLast 100 first) = true.
Proof. eexists. vm_compute. repeat split; reflexivity. Qed.

(** ** The poll timer and the passes that are executing *)

Lemma next_length (i : nat) (es : list (option string)) :
  List.length (Scheduler.next i es) <= 1.
Proof.
  unfold Scheduler.next.
  destruct (Scheduler.seek i es) as [[j g]|]; simpl; lia.
Qed.

Lemma inFlight_le_tasks (g : string) (s : Scheduler.State) :
  Scheduler.inFlight g s <= List.length (Scheduler.tasks s).
Proof. unfold Scheduler.inFlight. apply filter_length_le. Qed.

Lemma run_cons (a : Scheduler.Action) (actions : list Scheduler.Action)
    (s : Scheduler.State) :
  Scheduler.run (a :: actions) s = Scheduler.run actions (Scheduler.step a s).
Proof. reflexivity. Qed.

Lemma run_app (l1 l2 : list Scheduler.Action) (s : Scheduler.State) :
  Scheduler.run (l1 ++ l2) s = Scheduler.run l2 (Scheduler.run l1 s).
Proof. apply fold_left_app. Qed.

(** The tasks a step leaves: those there were, with at most one replaced
    or one added. *)
Lemma replaced_count {A} (f : A -> bool) (i : nat) (ts new : list A) (t : A) :
  nth_error ts i = Some t ->
  List.length (filter f new) <= (if f t then 1 else 0) ->
  List.length (filter f (firstn i ts ++ new ++ skipn (S i) ts)) <=
  List.length (filter f ts).
Proof.
  intros Hn Hnew.
  assert (E : ts = firstn i ts ++ t :: skipn (S i) ts).
  { clear Hnew. revert ts Hn. induction i as [|i IH]; intros [|x ts] Hn;
      try discriminate; simpl in *.
    - now injection Hn as ->.
    - f_equal. now apply IH. }
  rewrite E at 3. rewrite !filter_app, !length_app. cbn [filter].
  destruct (f t); cbn [List.length]; lia.
Qed.

Lemma next_byLoop (i : nat) (es : list (option string)) :
  List.length (filter byLoop (Scheduler.next i es)) <= 1.
Proof.
  pose proof (filter_length_le byLoop (Scheduler.next i es)).
  pose proof (next_length i es). lia.
Qed.

Lemma next_byRequest (g : string) (i : nat) (es : list (option string)) :
  filter (byRequest g) (Scheduler.next i es) = [].
Proof.
  unfold Scheduler.next. destruct (Scheduler.seek i es) as [[j g']|];
    reflexivity.
Qed.

Lemma step_byLoop (a : Scheduler.Action) (s : Scheduler.State) :
  List.length (filter byLoop (Scheduler.tasks (Scheduler.step a s))) <=
  List.length (filter byLoop (Scheduler.tasks s)) +
  (if Scheduler.startsRun a then 1 else 0).
Proof.
  destruct a as [g| | |i|g|g|]; unfold Scheduler.step;
    cbn [Scheduler.startsRun Scheduler.tasks]; try lia.
  - destruct (_ =? 0)%nat; cbn [Scheduler.tasks]; [lia|].
    rewrite filter_app, length_app.
    pose proof (next_byLoop 0 (Scheduler.entries s)). lia.
  - destruct (_ =? 0)%nat; cbn [Scheduler.tasks]; [lia|].
    rewrite filter_app, length_app.
    pose proof (next_byLoop 0 (Scheduler.entries s)). lia.
  - destruct (nth_error (Scheduler.tasks s) i) as [t|] eqn:E; [|lia].
    cbn [Scheduler.tasks].
    pose proof (replaced_count byLoop i (Scheduler.tasks s)
                  (match Scheduler.cursor t with
                   | Some j => Scheduler.next (S j) (Scheduler.entries s)
                   | None => []
                   end) t E) as H.
    assert (Hn : List.length
                   (filter byLoop
                      (match Scheduler.cursor t with
                       | Some j => Scheduler.next (S j) (Scheduler.entries s)
                       | None => []
                       end)) <= (if byLoop t then 1 else 0)).
    { unfold byLoop at 2. destruct (Scheduler.cursor t) as [j|];
        [apply next_byLoop | simpl; lia]. }
    specialize (H Hn). lia.
  - rewrite filter_app, length_app. simpl. lia.
Qed.

Lemma step_byRequest (g : string) (a : Scheduler.Action) (s : Scheduler.State) :
  List.length (filter (byRequest g) (Scheduler.tasks (Scheduler.step a s))) <=
  List.length (filter (byRequest g) (Scheduler.tasks s)) +
  (if Scheduler.adds g a then 1 else 0).
Proof.
  destruct a as [g'| | |i|g'|g'|]; unfold Scheduler.step;
    cbn [Scheduler.adds Scheduler.tasks]; try lia.
  - destruct (_ =? 0)%nat; cbn [Scheduler.tasks]; [lia|].
    rewrite filter_app, length_app, next_byRequest. simpl. lia.
  - destruct (_ =? 0)%nat; cbn [Scheduler.tasks]; [lia|].
    rewrite filter_app, length_app, next_byRequest. simpl. lia.
  - destruct (nth_error (Scheduler.tasks s) i) as [t|] eqn:E; [|lia].
    cbn [Scheduler.tasks].
    pose proof (replaced_count (byRequest g) i (Scheduler.tasks s)
                  (match Scheduler.cursor t with
                   | Some j => Scheduler.next (S j) (Scheduler.entries s)
                   | None => []
                   end) t E) as H.
    assert (Hn : List.length
                   (filter (byRequest g)
                      (match Scheduler.cursor t with
                       | Some j => Scheduler.next (S j) (Scheduler.entries s)
                       | None => []
                       end)) <= (if byRequest g t then 1 else 0)).
    { destruct (Scheduler.cursor t) as [j|];
        [rewrite next_byRequest|]; simpl; lia. }
    specialize (H Hn). lia.
  - rewrite filter_app, length_app. cbn [filter].
    unfold byRequest at 2, byLoop. cbn [Scheduler.cursor Scheduler.current negb andb].
    destruct (g' =? g)%string; simpl; lia.
Qed.

Lemma runs_cons (a : Scheduler.Action) (actions : list Scheduler.Action) :
  Scheduler.runs (a :: actions) =
  (if Scheduler.startsRun a then 1 else 0) + Scheduler.runs actions.
Proof. unfold Scheduler.runs. simpl. now destruct (Scheduler.startsRun a). Qed.

Lemma added_cons (g : string) (a : Scheduler.Action)
    (actions : list Scheduler.Action) :
  Scheduler.added g (a :: actions) =
  (if Scheduler.adds g a then 1 else 0) + Scheduler.added g actions.
Proof. unfold Scheduler.added. simpl. now destruct (Scheduler.adds g a). Qed.

Lemma run_byLoop (actions : list Scheduler.Action) (s : Scheduler.State) :
  List.length (filter byLoop (Scheduler.tasks (Scheduler.run actions s))) <=
  List.length (filter byLoop (Scheduler.tasks s)) + Scheduler.runs actions.
Proof.
  revert s. induction actions as [|a actions IH]; intros s.
  - unfold Scheduler.run, Scheduler.runs. simpl. lia.
  - rewrite run_cons, runs_cons.
    specialize (IH (Scheduler.step a s)). pose proof (step_byLoop a s). lia.
Qed.

Lemma run_byRequest (g : string) (actions : list Scheduler.Action)
    (s : Scheduler.State) :
  List.length (filter (byRequest g) (Scheduler.tasks (Scheduler.run actions s)))
  <= List.length (filter (byRequest g) (Scheduler.tasks s)) +
     Scheduler.added g actions.
Proof.
  revert s. induction actions as [|a actions IH]; intros s.
  - unfold Scheduler.run, Scheduler.added. simpl. lia.
  - rewrite run_cons, added_cons.
    specialize (IH (Scheduler.step a s)). pose proof (step_byRequest g a s).
    lia.
Qed.

Lemma inFlight_split (g : string) (s : Scheduler.State) :
  Scheduler.inFlight g s <=
  List.length (filter byLoop (Scheduler.tasks s)) +
  List.length (filter (byRequest g) (Scheduler.tasks s)).
Proof.
  unfold Scheduler.inFlight. induction (Scheduler.tasks s) as [|t ts IH];
    [simpl; lia|].
  cbn [filter]. unfold byRequest at 1.
  destruct (byLoop t), (Scheduler.current t =? g)%string;
    cbn [negb andb List.length]; lia.
Qed.

Lemma step_tasks (a : Scheduler.Action) (s : Scheduler.State) :
  List.length (Scheduler.tasks (Scheduler.step a s)) <=
  List.length (Scheduler.tasks s) + (if Scheduler.starts a then 1 else 0).
Proof.
  destruct a as [g| | |i|g|g|]; unfold Scheduler.step;
    cbn [Scheduler.starts Scheduler.tasks]; try lia.
  - destruct (_ =? 0)%nat; cbn [Scheduler.tasks]; [lia|].
    rewrite length_app. pose proof (next_length 0 (Scheduler.entries s)). lia.
  - destruct (_ =? 0)%nat; cbn [Scheduler.tasks]; [lia|].
    rewrite length_app. pose proof (next_length 0 (Scheduler.entries s)). lia.
  - destruct (nth_error (Scheduler.tasks s) i) as [t|] eqn:E; [|lia].
    assert (Hi : i < List.length (Scheduler.tasks s)).
    { apply nth_error_Some. congruence. }
    cbn [Scheduler.tasks].
    rewrite !length_app, length_firstn, length_skipn.
    assert (List.length
              (match Scheduler.cursor t with
               | Some j => Scheduler.next (S j) (Scheduler.entries s)
               | None => []
               end) <= 1).
    { destruct (Scheduler.cursor t); [apply next_length | simpl; lia]. }
    lia.
  - rewrite length_app. simpl. lia.
Qed.

Lemma timely_tasks (actions : list Scheduler.Action) (s : Scheduler.State) :
  List.length (Scheduler.tasks s) <= 1 ->
  Scheduler.timely actions s = true ->
  List.length (Scheduler.tasks (Scheduler.run actions s)) <= 1.
Proof.
  revert s. induction actions as [|a actions IH]; intros s Hs Ht;
    [assumption|].
  rewrite run_cons. cbn [Scheduler.timely] in Ht.
  apply andb_true_iff in Ht. destruct Ht as [Ha Ht].
  apply IH; [|exact Ht].
  pose proof (step_tasks a s) as H.
  destruct (Scheduler.starts a); [|lia].
  destruct (Scheduler.tasks s); [simpl in H; lia | discriminate].
Qed.

Lemma seekFrom_all (pos i : nat) (groups : list string) :
  Scheduler.seekFrom pos i (map Some groups) =
  option_map (fun g => (Nat.max i pos, g)) (nth_error groups (i - pos)).
Proof.
  revert pos. induction groups as [|x groups IH]; intros pos.
  - simpl. now destruct (i - pos).
  - cbn [map Scheduler.seekFrom].
    destruct (i <=? pos)%nat eqn:E.
    + apply Nat.leb_le in E. replace (i - pos) with 0 by lia.
      simpl. now rewrite Nat.max_r.
    + apply Nat.leb_gt in E. rewrite IH.
      replace (i - pos) with (S (i - S pos)) by lia. simpl.
      now rewrite !Nat.max_l by lia.
Qed.

Lemma next_all (i : nat) (groups : list string) :
  Scheduler.next i (map Some groups) =
  match nth_error groups i with
  | Some g => [{| Scheduler.current := g; Scheduler.cursor := Some i |}]
  | None => []
  end.
Proof.
  unfold Scheduler.next, Scheduler.seek. rewrite seekFrom_all, Nat.sub_0_r.
  destruct (nth_error groups i); simpl; [now rewrite Nat.max_0_r | reflexivity].
Qed.

Lemma holds_none (g : string) (groups : list string) :
  ~ In g groups -> existsb (Scheduler.holds g) (map Some groups) = false.
Proof.
  intros H. induction groups as [|x groups IH]; [reflexivity|].
  simpl. destruct (String.eqb_spec x g) as [->|_].
  - exfalso. apply H. now left.
  - apply IH. intros Hin. apply H. now right.
Qed.

Lemma register_all (groups pre : list string) (n : nat)
    (ts : list Scheduler.Task) :
  NoDup (pre ++ groups) ->
  Scheduler.run (map Scheduler.Register groups)
    {| Scheduler.entries := map Some pre; Scheduler.timers := n;
       Scheduler.tasks := ts |} =
  {| Scheduler.entries := map Some (pre ++ groups); Scheduler.timers := n;
     Scheduler.tasks := ts |}.
Proof.
  revert pre. induction groups as [|g groups IH]; intros pre Hnd.
  - now rewrite app_nil_r.
  - cbn [map]. rewrite run_cons. unfold Scheduler.step at 1.
    cbn [Scheduler.entries Scheduler.timers Scheduler.tasks].
    unfold Scheduler.set. rewrite holds_none.
    + replace (map Some pre ++ [Some g]) with (map Some (pre ++ [g]))
        by now rewrite map_app.
      rewrite IH by now rewrite <- app_assoc.
      now rewrite <- app_assoc.
    + apply NoDup_remove_2 in Hnd. intros H. apply Hnd, in_or_app. now left.
Qed.

Lemma loop_walks (groups : list string) (n k i : nat) :
  Scheduler.run (repeat (Scheduler.PassDone 0) k)
    {| Scheduler.entries := map Some groups; Scheduler.timers := n;
       Scheduler.tasks := Scheduler.next i (map Some groups) |} =
  {| Scheduler.entries := map Some groups; Scheduler.timers := n;
     Scheduler.tasks := Scheduler.next (k + i) (map Some groups) |}.
Proof.
  revert i. induction k as [|k IH]; intros i; [reflexivity|].
  cbn [repeat]. rewrite run_cons.
  replace (S k + i) with (k + S i) by lia. rewrite <- IH. f_equal.
  unfold Scheduler.step.
  cbn [Scheduler.tasks Scheduler.entries Scheduler.timers].
  rewrite (next_all i).
  destruct (nth_error groups i) as [g|] eqn:E.
  - cbn [nth_error Scheduler.cursor firstn skipn app]. now rewrite app_nil_r.
  - cbn [nth_error]. rewrite next_all.
    assert (E' : nth_error groups (S i) = None).
    { apply nth_error_None. apply nth_error_None in E. lia. }
    now rewrite E'.
Qed.

Lemma size_all (groups : list string) :
  Scheduler.size (map Some groups) = List.length groups.
Proof.
  unfold Scheduler.size. induction groups as [|g groups IH]; [reflexivity|].
  simpl. now rewrite IH.
Qed.

(** C2, as amended.  There is no in-flight guard.  When a timer is
    installed, a tick starts the pass for the first monitored group also
    when a pass for that group is executing: the number of passes executing
    for it goes up by one.  Started on the groups recorded at start-up, the
    loop of [checkAllGroups] takes them one after the other, one pass at a
    time.  Passes are started by the 'ready' handler, by the ticks and by
    the add-group requests: the number of passes executing for a group at
    the same time is at most the number of calls of [checkAllGroups] (one at
    'ready', one per tick) plus the number of add-group requests for the
    group, and it is at most one in every schedule in which no pass is
    started while another is executing. *)
Theorem passes_in_flight :
  (forall s j g,
      Scheduler.timers s <> 0 ->
      Scheduler.seek 0 (Scheduler.entries s) = Some (j, g) ->
      Scheduler.inFlight g (Scheduler.step Scheduler.Tick s) =
      S (Scheduler.inFlight g s)) /\
  (forall groups k,
      NoDup groups -> groups <> [] ->
      Scheduler.run
        (map Scheduler.Register groups ++ [Scheduler.Ready] ++
         repeat (Scheduler.PassDone 0) k) Scheduler.boot =
      {| Scheduler.entries := map Some groups;
         Scheduler.timers := 1;
         Scheduler.tasks :=
           match nth_error groups k with
           | Some g => [{| Scheduler.current := g; Scheduler.cursor := Some k |}]
           | None => []
           end |}) /\
  (forall actions g,
      Scheduler.inFlight g (Scheduler.run actions Scheduler.boot) <=
      Scheduler.runs actions + Scheduler.added g actions) /\
  (forall actions g,
      Scheduler.timely actions Scheduler.boot = true ->
      Scheduler.inFlight g (Scheduler.run actions Scheduler.boot) <= 1).
Proof.
  split; [|split; [|split]].
  - intros s j g Ht Hs. unfold Scheduler.inFlight, Scheduler.step.
    apply Nat.eqb_neq in Ht. rewrite Ht. cbn [Scheduler.tasks].
    unfold Scheduler.next. rewrite Hs, filter_app, length_app. simpl.
    rewrite String.eqb_refl. simpl. lia.
  - intros groups k Hnd Hne. rewrite !run_app.
    change Scheduler.boot
      with {| Scheduler.entries := map Some []; Scheduler.timers := 0;
              Scheduler.tasks := [] |}.
    rewrite (register_all groups [] 0 []) by exact Hnd. cbn [app].
    unfold Scheduler.run at 2. cbn [fold_left]. unfold Scheduler.step.
    cbn [Scheduler.entries Scheduler.timers Scheduler.tasks app].
    rewrite size_all.
    destruct groups as [|g0 rest] eqn:Eg; [congruence|].
    cbn [List.length Nat.eqb]. rewrite <- Eg.
    rewrite loop_walks, Nat.add_0_r. now rewrite next_all.
  - intros actions g.
    pose proof (inFlight_split g (Scheduler.run actions Scheduler.boot)).
    pose proof (run_byLoop actions Scheduler.boot).
    pose proof (run_byRequest g actions Scheduler.boot).
    simpl in *. lia.
  - intros actions g Ht.
    pose proof (inFlight_le_tasks g (Scheduler.run actions Scheduler.boot)).
    pose proof (timely_tasks actions Scheduler.boot) as Hl.
    simpl in Hl. specialize (Hl (Nat.le_0_l 1) Ht). lia.
Qed.

Lemma passes_in_flight_witness :
  Scheduler.inFlight Sample.groupId
    (Scheduler.run
       [Scheduler.Register Sample.groupId; Scheduler.Register Sample.otherId;
        Scheduler.Ready; Scheduler.PassDone 0; Scheduler.PassDone 0;
        Scheduler.Tick]
       Scheduler.boot) <= 1 /\
  Scheduler.tasks
    (Scheduler.run
       (map Scheduler.Register [Sample.groupId; Sample.otherId] ++
        [Scheduler.Ready] ++ repeat (Scheduler.PassDone 0) 1)
       Scheduler.boot) =
  [{| Scheduler.current := Sample.otherId; Scheduler.cursor := Some 1 |}].
Proof.
  split.
  - apply (proj2 (proj2 (proj2 passes_in_flight))). reflexivity.
  - rewrite (proj1 (proj2 passes_in_flight) [Sample.groupId; Sample.otherId] 1).
    + reflexivity.
    + repeat constructor; simpl; intuition discriminate.
    + discriminate.
Defined.

(** Counterexample to C2 as stated: one monitored group; the pass made at
    start-up is over and nothing is executing.  The timer fires, and fires
    again while the pass started by the first tick is still waiting for the
    chat client.  The second tick starts a second pass for the group: two
    passes for it are executing. *)
Lemma overlapping_ticks_two_passes :
  let up := Scheduler.run
              [Scheduler.Register Sample.groupId; Scheduler.Ready;
               Scheduler.PassDone 0] Scheduler.boot in
  Scheduler.tasks up = [] /\
  Scheduler.inFlight Sample.groupId (Scheduler.run [Scheduler.Tick] up) = 1 /\
  Scheduler.inFlight Sample.groupId
    (Scheduler.run [Scheduler.Tick; Scheduler.Tick] up) = 2.
Proof. repeat split. Qed.

(** ** Adding a group *)

Lemma addGroup_conflict cfg inp name w :
  snd (addGroup cfg inp name w) = AlreadyMonitored <->
  JS.trim name <> "" /\ isClientReady w = true /\
  exists g, In g (JSMap.values (groupInfoStore w)) /\
            JS.toLowerCase (gi_name g) = JS.toLowerCase (JS.trim name).
Proof.
  unfold addGroup.
  destruct (JS.trim name =? "")%string eqn:Et.
  { apply String.eqb_eq in Et. simpl. split; [discriminate | tauto]. }
  apply String.eqb_neq in Et.
  destruct (isClientReady w); simpl.
  2: { split; [discriminate | intros (_ & H & _); discriminate]. }
  destruct (find _ (JSMap.values (groupInfoStore w))) as [g|] eqn:Ef.
  - simpl. split; [|reflexivity]. intros _. split; [assumption|].
    split; [reflexivity|]. apply find_some in Ef. destruct Ef as [Hin He].
    exists g. split; [assumption|]. now apply String.eqb_eq.
  - split.
    + destruct (WA.getChats (client inp)) as [chats|]; [|discriminate].
      destruct (find _ chats); [|discriminate].
      destruct (configOk inp); discriminate.
    + intros (_ & _ & g & Hin & He). exfalso.
      pose proof (find_none _ _ Ef g Hin) as Hn. simpl in Hn.
      rewrite He, String.eqb_refl in Hn. discriminate.
Qed.

(** C3.  The handler answers AlreadyMonitored exactly when the trimmed name
    is equal, letter case apart, to the whole name of a monitored group;
    containment is not enough.  With "Cairo Team" in the chat list, the
    request for "cairo" adds the group, and the same request sent again is
    not refused either: the group is resolved and recorded a second time,
    and the answer is again success. *)
Theorem addGroup_same_name_twice :
  (forall cfg inp name w,
      snd (addGroup cfg inp name w) = AlreadyMonitored <->
      JS.trim name <> "" /\ isClientReady w = true /\
      exists g, In g (JSMap.values (groupInfoStore w)) /\
                JS.toLowerCase (gi_name g) = JS.toLowerCase (JS.trim name)) /\
  let inp := Sample.input [Sample.A; Sample.B; Sample.C]
               [Sample.text "3EB0A1" 1699999000 Sample.A "hello"] in
  let team := {| gi_id := Sample.groupId; gi_name := "Cairo Team";
                 memberCount := 3 |} in
  let first := addGroup defaultConfig inp "cairo" initialWorld in
  let second := addGroup defaultConfig inp "cairo" (fst first) in
  snd first = GroupAdded team /\
  JSMap.values (groupInfoStore (fst first)) = [team] /\
  JS.includes (JS.toLowerCase "Cairo Team") (JS.toLowerCase "cairo") = true /\
  snd second = GroupAdded team /\
  emitted (fst first) (fst second) = [EnvGroupAdded team].
Proof.
  split; [exact addGroup_conflict|].
  vm_compute. repeat split; reflexivity.
Qed.

(** ** Search *)

Lemma insertDesc_In (r x : Msg.row) (l : list Msg.row) :
  In r (Search.insertDesc x l) <-> r = x \/ In r l.
Proof.
  induction l as [|y l IH]; simpl.
  - intuition.
  - destruct (String.leb (Msg.timestamp y) (Msg.timestamp x)); simpl.
    + intuition.
    + rewrite IH. intuition.
Qed.

Lemma insertDesc_length (x : Msg.row) (l : list Msg.row) :
  List.length (Search.insertDesc x l) = S (List.length l).
Proof.
  induction l as [|y l IH]; simpl; [reflexivity|].
  destruct (String.leb _ _); simpl; [reflexivity | now rewrite IH].
Qed.

Lemma insertDesc_HdRel (x y : Msg.row) (l : list Msg.row) :
  newerFirst y x -> HdRel newerFirst y l ->
  HdRel newerFirst y (Search.insertDesc x l).
Proof.
  intros Hx Hl. destruct l as [|z l]; simpl.
  - now constructor.
  - destruct (String.leb _ _); constructor; [assumption|].
    now inversion Hl.
Qed.

Lemma insertDesc_Sorted (x : Msg.row) (l : list Msg.row) :
  Sorted newerFirst l -> Sorted newerFirst (Search.insertDesc x l).
Proof.
  induction l as [|y l IH]; intros H; simpl.
  - repeat constructor.
  - destruct (String.leb (Msg.timestamp y) (Msg.timestamp x)) eqn:E.
    + constructor; [assumption|]. constructor. exact E.
    + inversion H as [|? ? Hs Hh]; subst.
      constructor; [now apply IH|].
      apply insertDesc_HdRel; [|assumption].
      unfold newerFirst.
      destruct (String.leb_total (Msg.timestamp y) (Msg.timestamp x));
        congruence.
Qed.

Lemma orderBy_Sorted (l : list Msg.row) :
  Sorted newerFirst (Search.orderByTimestampDesc l).
Proof.
  induction l as [|x l IH]; simpl; [constructor|].
  now apply insertDesc_Sorted.
Qed.

Lemma orderBy_In (r : Msg.row) (l : list Msg.row) :
  In r (Search.orderByTimestampDesc l) <-> In r l.
Proof.
  induction l as [|x l IH]; simpl; [tauto|].
  rewrite insertDesc_In, IH. intuition.
Qed.

Lemma orderBy_length (l : list Msg.row) :
  List.length (Search.orderByTimestampDesc l) = List.length l.
Proof.
  induction l as [|x l IH]; simpl; [reflexivity|].
  now rewrite insertDesc_length, IH.
Qed.

Lemma firstn_Sorted {A} (R : A -> A -> Prop) (n : nat) (l : list A) :
  Sorted R l -> Sorted R (firstn n l).
Proof.
  revert l. induction n as [|n IH]; intros l H; [constructor|].
  destruct l as [|x l]; [constructor|].
  inversion H as [|? ? Hs Hh]; subst. simpl.
  constructor; [now apply IH|].
  destruct n; [constructor|].
  destruct l as [|y l]; [constructor|].
  simpl. constructor. now inversion Hh.
Qed.

Lemma sqlLimit_Sorted {A} (R : A -> A -> Prop) (n : Z) (l : list A) :
  Sorted R l -> Sorted R (Search.sqlLimit n l).
Proof.
  intros H. unfold Search.sqlLimit.
  destruct (n <? 0)%Z; [assumption | now apply firstn_Sorted].
Qed.

Lemma sqlLimit_In {A} (n : Z) (l : list A) (x : A) :
  In x (Search.sqlLimit n l) -> In x l.
Proof.
  unfold Search.sqlLimit. destruct (n <? 0)%Z; [auto|].
  intros H. rewrite <- (firstn_skipn (Z.to_nat n) l). apply in_or_app. now left.
Qed.

Lemma sqlLimit_length {A} (n : Z) (l : list A) :
  List.length (Search.sqlLimit n l) =
  if (n <? 0)%Z then List.length l else Nat.min (Z.to_nat n) (List.length l).
Proof.
  unfold Search.sqlLimit. destruct (n <? 0)%Z; [reflexivity|].
  apply length_firstn.
Qed.

Lemma sqlLimit_all {A} (n : Z) (l : list A) :
  Z.of_nat (List.length l) = n -> Search.sqlLimit n l = l.
Proof.
  intros H. unfold Search.sqlLimit.
  destruct (n <? 0)%Z; [reflexivity|].
  apply firstn_all2. lia.
Qed.

Lemma limitOf_nonzero (parsed : option Z) : Search.limitOf parsed <> 0%Z.
Proof.
  unfold Search.limitOf. destruct parsed as [n|]; [|discriminate].
  destruct (n =? 0)%Z eqn:E; [discriminate|]. now apply Z.eqb_neq.
Qed.

(** C10, as amended.  The limit is never zero (zero and an unparsable
    parameter give 100).  A search with a non-empty query and a limit that
    SQLite takes for an integer answers with rows that all match, sorted by
    timestamp descending, and with hasMore true exactly when the number of
    rows equals the limit; in particular hasMore is true, with every match
    returned, when the number of matches is exactly the limit.  When the
    limit is positive at most that many rows are returned; when it is
    negative SQLite applies no bound: every match is returned and hasMore is
    false.  A limit that SQLite does not take for an integer (2^63 or more,
    -2^63 or less) makes the statement fail, and the answer is the error. *)
Theorem search_limit_hasMore :
  forall q groupId parsed t,
    JS.truthy q = true ->
    let limit := Search.limitOf parsed in
    let all := filter (Search.matches q groupId) t in
    limit <> 0%Z /\
    (Search.integral limit = false ->
     Search.search q groupId parsed t = Search.SearchFailed) /\
    (Search.integral limit = true ->
     exists results,
       Search.search q groupId parsed t =
         Search.Results results (List.length results)
           (Z.of_nat (List.length results) =? limit)%Z /\
       (0 <= limit -> Z.of_nat (List.length results) <= limit)%Z /\
       ((limit < 0)%Z ->
        List.length results = List.length all /\
        (Z.of_nat (List.length results) =? limit)%Z = false) /\
       (forall r, In r results -> In r t /\ Search.matches q groupId r = true) /\
       Sorted newerFirst results /\
       ((Z.of_nat (List.length all) = limit)%Z ->
        (Z.of_nat (List.length results) =? limit)%Z = true /\
        forall r, In r all -> In r results)).
Proof.
  intros q groupId parsed t Hq limit all.
  split; [apply limitOf_nonzero|].
  split.
  { intros Hr. unfold Search.search. fold limit. now rewrite Hq, Hr. }
  intros Hr.
  exists (Search.select q groupId limit t).
  unfold Search.search. fold limit. rewrite Hq, Hr. simpl negb. cbv iota.
  split; [reflexivity|].
  unfold Search.select. fold all.
  split; [|split; [|split; [|split]]].
  - intros Hl. rewrite sqlLimit_length.
    destruct (limit <? 0)%Z eqn:E; [apply Z.ltb_lt in E; lia|]. lia.
  - intros Hneg. split; [|apply Z.eqb_neq; lia].
    apply Z.ltb_lt in Hneg.
    now rewrite sqlLimit_length, Hneg, orderBy_length.
  - intros r Hin. apply sqlLimit_In in Hin.
    apply (proj1 (orderBy_In _ _)) in Hin.
    now apply filter_In in Hin.
  - apply sqlLimit_Sorted, orderBy_Sorted.
  - intros Hall.
    rewrite sqlLimit_all by now rewrite orderBy_length.
    rewrite orderBy_length. split; [now apply Z.eqb_eq|].
    intros r Hin. now apply orderBy_In.
Qed.

Lemma search_limit_hasMore_witness :
  (exists results,
     Search.search "ON" "" (Some 2%Z) Sample.stored =
       Search.Results results 2 true /\
     List.length results = 2 /\
     Sorted newerFirst results /\
     forall r, In r (filter (Search.matches "ON" "") Sample.stored) ->
               In r results) /\
  Search.search "ON" "" (Some (2 ^ 63)%Z) Sample.stored = Search.SearchFailed.
Proof.
  split.
  - destruct (search_limit_hasMore "ON" "" (Some 2%Z) Sample.stored eq_refl)
      as (_ & _ & H).
    destruct (H eq_refl) as (results & Hs & _ & _ & _ & Hsorted & Hall).
    exists results.
    assert (Hr : results = Search.select "ON" "" 2 Sample.stored).
    { unfold Search.search in Hs. simpl negb in Hs. cbv iota in Hs.
      now inversion Hs. }
    destruct (Hall eq_refl) as [_ Hin].
    split; [|split; [|split]].
    + rewrite Hs. now rewrite Hr.
    + now rewrite Hr.
    + exact Hsorted.
    + exact Hin.
  - exact (proj1 (proj2 (search_limit_hasMore "ON" "" (Some (2 ^ 63)%Z)
                           Sample.stored eq_refl)) eq_refl).
Defined.

(** Counterexample to C10 as stated: with the limit parameter -1 the query
    carries [LIMIT -1], which in SQLite bounds nothing; two rows match and
    both are returned, more than the limit. *)
Lemma negative_limit_unbounded :
  exists results,
    Search.search "on" "" (Some (-1)%Z) Sample.stored =
      Search.Results results 2 false /\
    Search.limitOf (Some (-1)%Z) = (-1)%Z /\
    (Search.limitOf (Some (-1)%Z) < Z.of_nat (List.length results))%Z.
Proof. eexists. vm_compute. repeat split; reflexivity. Qed.

(** * The other handlers and endpoints *)

(** ** The paginated lists *)

Section OrderDesc.

Context {A : Type}.
Variable ts : A -> string.

Lemma queryInsert_In (r x : A) (l : list A) :
  In r (Query.insertDesc ts x l) <-> r = x \/ In r l.
Proof.
  induction l as [|y l IH]; simpl.
  - intuition.
  - destruct (String.leb (ts y) (ts x)); simpl.
    + intuition.
    + rewrite IH. intuition.
Qed.

Lemma queryInsert_length (x : A) (l : list A) :
  List.length (Query.insertDesc ts x l) = S (List.length l).
Proof.
  induction l as [|y l IH]; simpl; [reflexivity|].
  destruct (String.leb _ _); simpl; [reflexivity | now rewrite IH].
Qed.

Lemma queryInsert_Sorted (x : A) (l : list A) :
  Sorted (descending ts) l -> Sorted (descending ts) (Query.insertDesc ts x l).
Proof.
  induction l as [|y l IH]; intros H; simpl.
  - repeat constructor.
  - destruct (String.leb (ts y) (ts x)) eqn:E.
    + constructor; [assumption|]. constructor. exact E.
    + inversion H as [|? ? Hs Hh]; subst.
      constructor; [now apply IH|].
      assert (Hyx : descending ts y x).
      { unfold descending. destruct (String.leb_total (ts y) (ts x)); congruence. }
      destruct l as [|z l]; simpl; [now constructor|].
      destruct (String.leb (ts z) (ts x)); constructor; [assumption|].
      now inversion Hh.
Qed.

Lemma orderDesc_Sorted (l : list A) :
  Sorted (descending ts) (Query.orderDesc ts l).
Proof.
  induction l as [|x l IH]; simpl; [constructor|].
  now apply queryInsert_Sorted.
Qed.

Lemma orderDesc_In (r : A) (l : list A) :
  In r (Query.orderDesc ts l) <-> In r l.
Proof.
  induction l as [|x l IH]; simpl; [tauto|].
  rewrite queryInsert_In, IH. intuition.
Qed.

Lemma orderDesc_length (l : list A) :
  List.length (Query.orderDesc ts l) = List.length l.
Proof.
  induction l as [|x l IH]; simpl; [reflexivity|].
  now rewrite queryInsert_length, IH.
Qed.

End OrderDesc.

Lemma skipn_Sorted {A} (R : A -> A -> Prop) (n : nat) (l : list A) :
  Sorted R l -> Sorted R (skipn n l).
Proof.
  revert l. induction n as [|n IH]; intros l H; [assumption|].
  destruct l as [|x l]; [constructor|].
  simpl. apply IH. now inversion H.
Qed.

Lemma sqlOffset_Sorted {A} (R : A -> A -> Prop) (n : Z) (l : list A) :
  Sorted R l -> Sorted R (Query.sqlOffset n l).
Proof.
  intros H. unfold Query.sqlOffset.
  destruct (n <? 0)%Z; [assumption | now apply skipn_Sorted].
Qed.

Lemma sqlOffset_In {A} (n : Z) (l : list A) (x : A) :
  In x (Query.sqlOffset n l) -> In x l.
Proof.
  unfold Query.sqlOffset. destruct (n <? 0)%Z; [auto|].
  intros H. rewrite <- (firstn_skipn (Z.to_nat n) l). apply in_or_app. now right.
Qed.

Lemma sqlOffset_length {A} (n : Z) (l : list A) :
  List.length (Query.sqlOffset n l) = List.length l - Z.to_nat n.
Proof.
  unfold Query.sqlOffset. destruct (n <? 0)%Z eqn:E.
  - apply Z.ltb_lt in E. lia.
  - apply length_skipn.
Qed.

Lemma paginate_sound {A} (ts : A -> string) (pl po : option Z)
    (selected : list A) :
  Sorted (descending ts) (Query.rows (Query.paginate ts pl po selected)) /\
  (forall r, In r (Query.rows (Query.paginate ts pl po selected)) ->
             In r selected) /\
  List.length (Query.rows (Query.paginate ts pl po selected)) <=
    Query.total (Query.paginate ts pl po selected).
Proof.
  unfold Query.paginate. cbn [Query.rows Query.total]. repeat split.
  - apply sqlLimit_Sorted, sqlOffset_Sorted, orderDesc_Sorted.
  - intros r H. apply sqlLimit_In, sqlOffset_In in H.
    now apply orderDesc_In in H.
  - rewrite sqlLimit_length, sqlOffset_length, orderDesc_length.
    destruct (_ <? 0)%Z; lia.
Qed.

Lemma answer_Listed {B} (pl po : option Z) (body p : B) :
  Query.answer pl po body = Query.Listed p ->
  Query.accepted pl po = true /\ p = body.
Proof.
  unfold Query.answer. destruct (Query.accepted pl po); [|discriminate].
  now intros [= <-].
Qed.

Lemma answer_Failed {B} (pl po : option Z) (body : B) :
  Query.answer pl po body = Query.Failed <-> Query.accepted pl po = false.
Proof.
  unfold Query.answer. destruct (Query.accepted pl po); split;
    discriminate || reflexivity.
Qed.

(** X1.  Each of the four list endpoints (all messages, the messages of a
    group, all events with their filters, the events of a group) answers
    with the error exactly when SQLite does not take the limit or the offset
    for an integer.  Otherwise the rows of the answer are stored rows
    satisfying the condition of the endpoint, the newest first, never more
    than the total of the answer, and the total is the number of stored
    rows that satisfy the condition.  For the events list a member filter
    keeps the rows of that member only and a date without a comma keeps the
    rows of that date only, and the answer repeats the two filters. *)
Theorem list_pages_sound :
  forall (pl po : option Z) (w : World),
    (messagesResponse pl po w = Query.Failed <->
     Query.accepted pl po = false) /\
    (forall p,
        messagesResponse pl po w = Query.Listed p ->
        Sorted (descending Msg.timestamp) (Query.rows p) /\
        (forall r, In r (Query.rows p) -> In r (messagesTable w)) /\
        List.length (Query.rows p) <= Query.total p /\
        Query.total p = List.length (messagesTable w)) /\
    (forall groupId,
        (groupMessagesResponse groupId pl po w = Query.Failed <->
         Query.accepted pl po = false) /\
        forall name p,
          groupMessagesResponse groupId pl po w = Query.Listed (name, p) ->
          Sorted (descending Msg.timestamp) (Query.rows p) /\
          (forall r, In r (Query.rows p) ->
                     In r (messagesTable w) /\ Msg.group_id r = groupId) /\
          List.length (Query.rows p) <= Query.total p /\
          Query.total p =
            List.length
              (filter (fun r => (Msg.group_id r =? groupId)%string)
                 (messagesTable w))) /\
    (forall date memberId,
        (eventsResponse date memberId pl po w = Query.Failed <->
         Query.accepted pl po = false) /\
        forall p filters,
          eventsResponse date memberId pl po w = Query.Listed (p, filters) ->
          Sorted (descending Evt.timestamp) (Query.rows p) /\
          (forall r, In r (Query.rows p) ->
                     In r (eventsTable w) /\
                     Query.whereEvents date memberId r = true /\
                     (memberId <> "" -> Evt.member_id r = memberId) /\
                     (date <> "" -> JS.includes date "," = false ->
                      Evt.date r = date)) /\
          List.length (Query.rows p) <= Query.total p /\
          Query.total p =
            List.length
              (filter (Query.whereEvents date memberId) (eventsTable w)) /\
          filters = (date, memberId)) /\
    (forall groupId,
        (groupEventsResponse groupId pl po w = Query.Failed <->
         Query.accepted pl po = false) /\
        forall name p,
          groupEventsResponse groupId pl po w = Query.Listed (name, p) ->
          Sorted (descending Evt.timestamp) (Query.rows p) /\
          (forall r, In r (Query.rows p) ->
                     In r (eventsTable w) /\ Evt.group_id r = groupId) /\
          List.length (Query.rows p) <= Query.total p /\
          Query.total p =
            List.length
              (filter (fun r => (Evt.group_id r =? groupId)%string)
                 (eventsTable w))).
Proof.
  intros pl po w. split; [apply answer_Failed|]. split; [|split; [|split]].
  - intros p H. apply answer_Listed in H. destruct H as [_ ->].
    unfold getMessages.
    destruct (paginate_sound Msg.timestamp pl po (messagesTable w))
      as (Hs & Hi & Hl).
    repeat split; assumption || reflexivity || auto.
  - intros groupId. split; [apply answer_Failed|].
    intros name p H. apply answer_Listed in H. destruct H as [_ H].
    unfold getGroupMessages in H. injection H as _ ->.
    match goal with
    | |- context [Query.paginate _ _ _ ?sel] =>
        destruct (paginate_sound Msg.timestamp pl po sel) as (Hs & Hi & Hl)
    end.
    split; [assumption|]. split; [|split; [assumption | reflexivity]].
    intros r Hr. apply Hi, filter_In in Hr. destruct Hr as [Hr He].
    split; [assumption | now apply String.eqb_eq].
  - intros date memberId. split; [apply answer_Failed|].
    intros p filters H. apply answer_Listed in H. destruct H as [_ H].
    injection H as -> ->. unfold getEvents.
    match goal with
    | |- context [Query.paginate _ _ _ ?sel] =>
        destruct (paginate_sound Evt.timestamp pl po sel) as (Hs & Hi & Hl)
    end.
    split; [assumption|].
    split; [|split; [assumption | split; reflexivity]].
    intros r Hr. apply Hi, filter_In in Hr. destruct Hr as [Hr He].
    split; [assumption|]. split; [assumption|].
    unfold Query.whereEvents in He. apply andb_true_iff in He.
    destruct He as [Hd Hm]. split.
    + intros Hne. apply String.eqb_neq in Hne. unfold JS.truthy in Hm.
      rewrite Hne in Hm. simpl in Hm. now apply String.eqb_eq.
    + intros Hne Hc. apply String.eqb_neq in Hne. unfold JS.truthy in Hd.
      rewrite Hne in Hd. simpl in Hd. unfold Query.dateCondition in Hd.
      rewrite Hc in Hd. now apply String.eqb_eq.
  - intros groupId. split; [apply answer_Failed|].
    intros name p H. apply answer_Listed in H. destruct H as [_ H].
    unfold getGroupEvents in H. injection H as _ ->.
    match goal with
    | |- context [Query.paginate _ _ _ ?sel] =>
        destruct (paginate_sound Evt.timestamp pl po sel) as (Hs & Hi & Hl)
    end.
    split; [assumption|]. split; [|split; [assumption | reflexivity]].
    intros r Hr. apply Hi, filter_In in Hr. destruct Hr as [Hr He].
    split; [assumption | now apply String.eqb_eq].
Qed.

Lemma limitOf_Some (n : Z) : n <> 0%Z -> Search.limitOf (Some n) = n.
Proof.
  intros H. unfold Search.limitOf. apply Z.eqb_neq in H. now rewrite H.
Qed.

Lemma paginate_rows_window {A} (ts : A -> string) (pl po : option Z)
    (selected : list A) :
  (0 < Search.limitOf pl)%Z -> (0 <= Query.offsetOf po)%Z ->
  Query.rows (Query.paginate ts pl po selected) =
  firstn (Z.to_nat (Search.limitOf pl))
    (skipn (Z.to_nat (Query.offsetOf po)) (Query.orderDesc ts selected)).
Proof.
  intros Hl Ho. unfold Query.paginate. cbn [Query.rows].
  unfold Search.sqlLimit, Query.sqlOffset.
  apply Z.ltb_ge in Ho. rewrite Ho.
  assert (Hl' : (Search.limitOf pl <? 0)%Z = false) by (apply Z.ltb_ge; lia).
  now rewrite Hl'.
Qed.

Lemma accepted_window (pl po : option Z) :
  (0 < Search.limitOf pl < 2 ^ 63)%Z -> (0 <= Query.offsetOf po < 2 ^ 63)%Z ->
  Query.accepted pl po = true.
Proof.
  intros Hl Ho. unfold Query.accepted, Search.integral.
  rewrite !andb_true_iff, !Z.ltb_lt. lia.
Qed.

(** X2.  With a positive limit and an offset that is not negative, both
    below 2^63, the request is answered with a page, and the page holds the
    lesser of the limit and what is left of the selected rows after the
    offset. *)
Theorem page_length :
  forall (A : Type) (ts : A -> string) (pl po : option Z) (selected : list A),
    (0 < Search.limitOf pl < 2 ^ 63)%Z ->
    (0 <= Query.offsetOf po < 2 ^ 63)%Z ->
    Query.answer pl po (Query.paginate ts pl po selected) =
      Query.Listed (Query.paginate ts pl po selected) /\
    Z.of_nat (List.length (Query.rows (Query.paginate ts pl po selected))) =
    Z.min (Search.limitOf pl)
      (Z.max 0 (Z.of_nat (List.length selected) - Query.offsetOf po)).
Proof.
  intros A ts pl po selected Hl Ho. split.
  { unfold Query.answer. now rewrite accepted_window. }
  rewrite paginate_rows_window by lia.
  rewrite length_firstn, length_skipn, orderDesc_length. lia.
Qed.

Lemma page_length_witness :
  messagesResponse (Some 2%Z) (Some 2%Z) Sample.archive =
    Query.Listed (getMessages (Some 2%Z) (Some 2%Z) Sample.archive) /\
  Z.of_nat
    (List.length
       (Query.rows (getMessages (Some 2%Z) (Some 2%Z) Sample.archive))) = 1%Z.
Proof.
  exact (page_length Msg.row Msg.timestamp (Some 2%Z) (Some 2%Z) Sample.stored
           ltac:(simpl; lia) ltac:(simpl; lia)).
Defined.

(** X3.  With a positive limit and an offset that is not negative, their
    sum below 2^63, the request and the request for the next page (same
    limit, offset raised by the limit) are both answered with a page, and
    [hasMore] of the first is true exactly when the second has at least one
    row. *)
Theorem page_hasMore_next :
  forall (A : Type) (ts : A -> string) (pl po : option Z) (selected : list A),
    (0 < Search.limitOf pl)%Z -> (0 <= Query.offsetOf po)%Z ->
    (Query.offsetOf po + Search.limitOf pl < 2 ^ 63)%Z ->
    let next := Some (Query.offsetOf po + Search.limitOf pl)%Z in
    Query.answer pl po (Query.paginate ts pl po selected) =
      Query.Listed (Query.paginate ts pl po selected) /\
    Query.answer pl next (Query.paginate ts pl next selected) =
      Query.Listed (Query.paginate ts pl next selected) /\
    (Query.hasMore (Query.paginate ts pl po selected) = true <->
     Query.rows (Query.paginate ts pl next selected) <> []).
Proof.
  intros A ts pl po selected Hl Ho Hs next.
  split; [unfold Query.answer; now rewrite accepted_window by lia|].
  split.
  { unfold Query.answer, next.
    now rewrite accepted_window by (cbn [Query.offsetOf]; lia). }
  unfold next. rewrite paginate_rows_window by (cbn [Query.offsetOf]; lia).
  cbn [Query.offsetOf]. unfold Query.paginate. cbn [Query.hasMore].
  rewrite Z.ltb_lt, <- length_zero_iff_nil.
  rewrite length_firstn, length_skipn, orderDesc_length. lia.
Qed.

Lemma page_hasMore_next_witness :
  messagesResponse (Some 2%Z) None Sample.archive =
    Query.Listed (getMessages (Some 2%Z) None Sample.archive) /\
  messagesResponse (Some 2%Z) (Some 2%Z) Sample.archive =
    Query.Listed (getMessages (Some 2%Z) (Some 2%Z) Sample.archive) /\
  (Query.hasMore (getMessages (Some 2%Z) None Sample.archive) = true <->
   Query.rows (getMessages (Some 2%Z) (Some 2%Z) Sample.archive) <> []).
Proof.
  exact (page_hasMore_next Msg.row Msg.timestamp (Some 2%Z) None Sample.stored
           ltac:(simpl; lia) ltac:(simpl; lia) ltac:(simpl; lia)).
Defined.

Lemma firstn_add_skipn {A} (a b : nat) (l : list A) :
  firstn a l ++ firstn b (skipn a l) = firstn (a + b) l.
Proof.
  revert l. induction a as [|a IH]; intros l; [reflexivity|].
  destruct l as [|x l]; simpl.
  - now rewrite firstn_nil.
  - now rewrite IH.
Qed.

(** X4.  Consecutive pages fit together.  With positive limits [l1] and
    [l2] and an offset that is not negative, their sum below 2^63, the three
    requests are answered with a page, and the page of [l1] rows at the
    offset followed by the page of [l2] rows right behind it is the page of
    [l1 + l2] rows at that offset. *)
Theorem pages_concatenate :
  forall (A : Type) (ts : A -> string) (l1 l2 off : Z) (selected : list A),
    (0 < l1)%Z -> (0 < l2)%Z -> (0 <= off)%Z -> (off + l1 + l2 < 2 ^ 63)%Z ->
    Query.accepted (Some l1) (Some off) = true /\
    Query.accepted (Some l2) (Some (off + l1)%Z) = true /\
    Query.accepted (Some (l1 + l2)%Z) (Some off) = true /\
    Query.rows (Query.paginate ts (Some l1) (Some off) selected) ++
    Query.rows (Query.paginate ts (Some l2) (Some (off + l1)%Z) selected) =
    Query.rows (Query.paginate ts (Some (l1 + l2)%Z) (Some off) selected).
Proof.
  intros A ts l1 l2 off selected H1 H2 Ho Hs.
  repeat split;
    try (apply accepted_window; cbn [Query.offsetOf];
         rewrite ?limitOf_Some by lia; lia).
  rewrite !paginate_rows_window
    by (cbn [Query.offsetOf]; rewrite ?limitOf_Some; lia).
  cbn [Query.offsetOf]. rewrite !limitOf_Some by lia.
  rewrite !Z2Nat.inj_add by lia.
  rewrite (Nat.add_comm (Z.to_nat off)), <- skipn_skipn.
  apply firstn_add_skipn.
Qed.

Lemma pages_concatenate_witness :
  Query.accepted (Some 1%Z) (Some 0%Z) = true /\
  Query.accepted (Some 2%Z) (Some (0 + 1)%Z) = true /\
  Query.accepted (Some (1 + 2)%Z) (Some 0%Z) = true /\
  Query.rows (getMessages (Some 1%Z) (Some 0%Z) Sample.archive) ++
  Query.rows (getMessages (Some 2%Z) (Some (0 + 1)%Z) Sample.archive) =
  Query.rows (getMessages (Some (1 + 2)%Z) (Some 0%Z) Sample.archive).
Proof.
  exact (pages_concatenate Msg.row Msg.timestamp 1%Z 2%Z 0%Z Sample.stored
           ltac:(lia) ltac:(lia) ltac:(lia) ltac:(lia)).
Defined.

(** ** The date filter of the events list *)

Lemma ascii_compare_refl (c : ascii) : Ascii.compare c c = Eq.
Proof. unfold Ascii.compare. apply N.compare_refl. Qed.

Lemma string_compare_refl (s : string) : String.compare s s = Eq.
Proof.
  induction s as [|c s IH]; simpl; [reflexivity|].
  now rewrite ascii_compare_refl.
Qed.

Lemma leb_refl (s : string) : String.leb s s = true.
Proof. unfold String.leb. now rewrite string_compare_refl. Qed.

Lemma leb_trans (a b c : string) :
  String.leb a b = true -> String.leb b c = true -> String.leb a c = true.
Proof.
  unfold String.leb. revert b c.
  induction a as [|x a IH]; intros [|y b] [|z c]; simpl; try easy.
  unfold Ascii.compare.
  destruct (N.compare_spec (N_of_ascii x) (N_of_ascii y)) as [E1|E1|E1];
    destruct (N.compare_spec (N_of_ascii y) (N_of_ascii z)) as [E2|E2|E2];
    try easy.
  - rewrite E1, E2, N.compare_refl. apply IH.
  - rewrite E1. intros _ _.
    now rewrite (proj2 (N.compare_lt_iff _ _) E2).
  - rewrite <- E2. intros _ _.
    now rewrite (proj2 (N.compare_lt_iff _ _) E1).
  - intros _ _.
    now rewrite (proj2 (N.compare_lt_iff _ _) (N.lt_trans _ _ _ E1 E2)).
Qed.

Lemma ltb_not_leb (a b : string) :
  String.ltb a b = true -> String.leb b a = false.
Proof.
  unfold String.ltb, String.leb. rewrite (String.compare_antisym a b).
  now destruct (String.compare b a).
Qed.

Lemma includes_sep_cons (sep c : ascii) (s : string) :
  JS.includes (String c s) (String sep "") =
  Ascii.eqb c sep || JS.includes s (String sep "").
Proof.
  cbn [JS.includes String.prefix].
  destruct (ascii_dec sep c) as [->|Hn].
  - rewrite Ascii.eqb_refl. now destruct s.
  - assert (E : Ascii.eqb c sep = false) by (apply Ascii.eqb_neq; congruence).
    now rewrite E.
Qed.

Lemma split_none (sep : ascii) (s : string) :
  JS.includes s (String sep "") = false -> Query.split sep s = [s].
Proof.
  induction s as [|c s IH]; intros H; [reflexivity|].
  rewrite includes_sep_cons in H. apply orb_false_iff in H.
  destruct H as [Hc Hs]. simpl. rewrite Hc, (IH Hs). reflexivity.
Qed.

Lemma split_append (sep : ascii) (a b : string) :
  JS.includes a (String sep "") = false ->
  Query.split sep (a ++ String sep b) = a :: Query.split sep b.
Proof.
  induction a as [|c a IH]; intros H.
  - simpl. now rewrite Ascii.eqb_refl.
  - rewrite includes_sep_cons in H. apply orb_false_iff in H.
    destruct H as [Hc Ha]. simpl. rewrite Hc, (IH Ha). reflexivity.
Qed.

Lemma includes_append (sep : ascii) (a b : string) :
  JS.includes (a ++ String sep b) (String sep "") = true.
Proof.
  induction a as [|c a IH].
  - simpl. destruct (ascii_dec sep sep); [|congruence]. now destruct b.
  - change ((String c a ++ String sep b)%string)
      with (String c (a ++ String sep b)).
    rewrite includes_sep_cons, IH. apply orb_true_r.
Qed.

Lemma split_head_leb (sep : ascii) (s : string) :
  String.leb (nth 0 (Query.split sep s) "") s = true.
Proof.
  induction s as [|c s IH]; [reflexivity|].
  simpl. destruct (Ascii.eqb c sep); [reflexivity|].
  destruct (Query.split sep s) as [|piece pieces] eqn:E.
  - simpl. unfold String.leb. simpl. rewrite ascii_compare_refl. now destruct s.
  - simpl in *. unfold String.leb in *. simpl. now rewrite ascii_compare_refl.
Qed.

Lemma truthy_append (a b : string) (c : ascii) :
  JS.truthy (a ++ String c b) = true.
Proof. now destruct a. Qed.

Lemma filter_pointwise {A} (f g : A -> bool) (l : list A) :
  (forall x, f x = g x) -> filter f l = filter g l.
Proof. intros H. apply filter_ext_in. auto. Qed.

Lemma getEvents_one_day (d memberId : string) (pl po : option Z) (w : World) :
  d <> "" -> JS.includes d "," = false ->
  getEvents (d ++ "," ++ d) memberId pl po w = getEvents d memberId pl po w.
Proof.
  intros Hd Hc. unfold getEvents. f_equal.
  apply filter_pointwise. intros r. unfold Query.whereEvents. f_equal.
  change ((d ++ "," ++ d)%string) with ((d ++ String "," d)%string).
  rewrite truthy_append. unfold JS.truthy.
  apply String.eqb_neq in Hd. rewrite Hd. cbn [negb].
  unfold Query.dateCondition.
  rewrite includes_append, Hc, (split_append _ _ _ Hc), (split_none _ _ Hc).
  cbn [nth].
  destruct (Evt.date r =? d)%string eqn:E.
  - apply String.eqb_eq in E. rewrite E, leb_refl. reflexivity.
  - apply String.eqb_neq in E. apply andb_false_iff.
    destruct (String.leb d (Evt.date r)) eqn:E1; [|now left].
    destruct (String.leb (Evt.date r) d) eqn:E2; [|now right].
    exfalso. apply E. symmetry. now apply String.leb_antisym.
Qed.

(** X5.  In the events list a range whose two ends are the same day has
    the page of the request for that one day: the same rows, total, limit,
    offset and [hasMore].  The two answers differ in [filters] only, where
    each repeats the date as it was sent. *)
Theorem events_one_day_as_range :
  forall (d memberId : string) (pl po : option Z) (w : World),
    d <> "" -> JS.includes d "," = false ->
    getEvents (d ++ "," ++ d) memberId pl po w = getEvents d memberId pl po w /\
    eventsResponse (d ++ "," ++ d) memberId pl po w =
      Query.answer pl po
        (getEvents d memberId pl po w, ((d ++ "," ++ d)%string, memberId)) /\
    eventsResponse d memberId pl po w =
      Query.answer pl po (getEvents d memberId pl po w, (d, memberId)).
Proof.
  intros d memberId pl po w Hd Hc.
  split; [now apply getEvents_one_day|].
  unfold eventsResponse. now rewrite getEvents_one_day.
Qed.

Lemma events_one_day_as_range_witness :
  getEvents "2025-03-01,2025-03-01" "" None None Sample.archive =
    getEvents "2025-03-01" "" None None Sample.archive /\
  eventsResponse "2025-03-01,2025-03-01" "" None None Sample.archive =
    Query.Listed (getEvents "2025-03-01" "" None None Sample.archive,
                  ("2025-03-01,2025-03-01", "")).
Proof.
  destruct (events_one_day_as_range "2025-03-01" "" None None Sample.archive)
    as (H1 & H2 & _); [discriminate | reflexivity |].
  split; [exact H1 | exact H2].
Defined.

(** X6.  A date range whose end is before its start selects no event:
    the list is empty and the total is zero.  The end taken is what stands
    between the first comma and the second, so this covers a range that is
    left open, such as a start day followed by a comma and nothing. *)
Theorem events_inverted_range_empty :
  forall (startDate endDate memberId : string) (pl po : option Z) (w : World),
    JS.includes startDate "," = false ->
    (endDate <? startDate)%string = true ->
    Query.rows (getEvents (startDate ++ "," ++ endDate) memberId pl po w) = [] /\
    Query.total (getEvents (startDate ++ "," ++ endDate) memberId pl po w) = 0.
Proof.
  intros startDate endDate memberId pl po w Hc Hlt.
  assert (Hnone : filter (Query.whereEvents (startDate ++ "," ++ endDate) memberId)
                    (eventsTable w) = []).
  { apply filter_none. intros r _. unfold Query.whereEvents.
    change ((startDate ++ "," ++ endDate)%string)
      with ((startDate ++ String "," endDate)%string).
    rewrite truthy_append. unfold Query.dateCondition.
    rewrite includes_append, (split_append _ _ _ Hc).
    cbn [nth]. apply andb_false_iff. left. apply andb_false_iff.
    destruct (String.leb startDate (Evt.date r)) eqn:E1; [|now left].
    right.
    destruct (String.leb (Evt.date r) (nth 0 (Query.split "," endDate) ""))
      eqn:E2; [|reflexivity].
    pose proof (split_head_leb "," endDate) as E3.
    pose proof (leb_trans _ _ _ (leb_trans _ _ _ E1 E2) E3) as E4.
    apply ltb_not_leb in Hlt. congruence. }
  unfold getEvents. rewrite Hnone. split; [|reflexivity].
  unfold Query.paginate. cbn [Query.rows Query.orderDesc fold_right].
  unfold Query.sqlOffset, Search.sqlLimit.
  destruct (_ <? 0)%Z, (_ <? 0)%Z; rewrite ?skipn_nil, ?firstn_nil; reflexivity.
Qed.

Lemma events_inverted_range_empty_witness :
  Query.rows (getEvents "2025-03-02," Sample.D None None Sample.archive) = [] /\
  Query.total (getEvents "2025-03-02," Sample.D None None Sample.archive) = 0.
Proof.
  apply (events_inverted_range_empty "2025-03-02" "" Sample.D None None
           Sample.archive); reflexivity.
Defined.

(** ** The registries *)

Lemma get_delete_same {V} (k : string) (m : JSMap.t V) :
  JSMap.get k (JSMap.delete k m) = None.
Proof.
  induction m as [|[k' v] m IH]; simpl; [reflexivity|].
  destruct (k =? k')%string eqn:E; simpl; [exact IH|]. now rewrite E.
Qed.

Lemma get_delete_other {V} (k k' : string) (m : JSMap.t V) :
  k' <> k -> JSMap.get k' (JSMap.delete k m) = JSMap.get k' m.
Proof.
  intros Hk. induction m as [|[k0 v] m IH]; simpl; [reflexivity|].
  destruct (k =? k0)%string eqn:E; simpl.
  - apply String.eqb_eq in E. subst k0.
    apply String.eqb_neq in Hk. now rewrite Hk.
  - now rewrite IH.
Qed.

Lemma get_None_keys {V} (k : string) (m : JSMap.t V) :
  JSMap.get k m = None <-> ~ In k (JSMap.keys m).
Proof.
  induction m as [|[k' v] m IH]; simpl; [tauto|].
  destruct (k =? k')%string eqn:E.
  - apply String.eqb_eq in E. split; [discriminate | intros H; exfalso; auto].
  - apply String.eqb_neq in E. rewrite IH. intuition congruence.
Qed.

Lemma keys_delete {V} (k : string) (m : JSMap.t V) :
  JSMap.keys (JSMap.delete k m) =
  filter (fun k' => negb (k =? k')%string) (JSMap.keys m).
Proof.
  induction m as [|[k' v] m IH]; simpl; [reflexivity|].
  destruct (k =? k')%string; simpl; now rewrite IH.
Qed.

Lemma keys_mutate {V} (k : string) (f : V -> V) (m : JSMap.t V) :
  JSMap.keys (JSMap.mutate k f m) = JSMap.keys m.
Proof.
  induction m as [|[k' v] m IH]; simpl; [reflexivity|].
  destruct (k =? k')%string; simpl; [reflexivity | now rewrite IH].
Qed.

Lemma get_set_same {V} (k : string) (v : V) (m : JSMap.t V) :
  JSMap.get k (JSMap.set k v m) = Some v.
Proof.
  induction m as [|[k' v'] m IH]; simpl.
  - now rewrite String.eqb_refl.
  - destruct (k =? k')%string eqn:E; simpl.
    + now rewrite String.eqb_refl.
    + now rewrite E.
Qed.

Lemma get_set_other {V} (k k' : string) (v : V) (m : JSMap.t V) :
  k' <> k -> JSMap.get k' (JSMap.set k v m) = JSMap.get k' m.
Proof.
  intros Hk. apply String.eqb_neq in Hk.
  induction m as [|[k0 v0] m IH]; simpl.
  - now rewrite Hk.
  - destruct (k =? k0)%string eqn:E; simpl.
    + apply String.eqb_eq in E. subst k0. now rewrite Hk.
    + now rewrite IH.
Qed.

Lemma delete_mutate {V} (k : string) (f : V -> V) (m : JSMap.t V) :
  JSMap.delete k (JSMap.mutate k f m) = JSMap.delete k m.
Proof.
  induction m as [|[k' v] m IH]; simpl; [reflexivity|].
  destruct (k =? k')%string eqn:E; simpl; rewrite E; simpl;
    [reflexivity | now rewrite IH].
Qed.

Lemma delete_set_fresh {V} (k : string) (v : V) (m : JSMap.t V) :
  ~ In k (JSMap.keys m) -> JSMap.delete k (JSMap.set k v m) = m.
Proof.
  induction m as [|[k' v'] m IH]; simpl; intros H.
  - now rewrite String.eqb_refl.
  - destruct (k =? k')%string eqn:E.
    + apply String.eqb_eq in E. exfalso. auto.
    + simpl. rewrite E. simpl. rewrite IH; auto.
Qed.

(** *** Removing a group *)

Lemma removeGroup_fields (groupId : string) (g : GroupInfo) (w : World) :
  JSMap.get groupId (groupInfoStore w) = Some g ->
  monitoredGroups (fst (removeGroup groupId w)) =
    JSMap.delete groupId (monitoredGroups w) /\
  groupInfoStore (fst (removeGroup groupId w)) =
    JSMap.delete groupId (groupInfoStore w) /\
  configGroups (fst (removeGroup groupId w)) =
    filter (fun name => negb (name =? gi_name g)%string) (configGroups w) /\
  messagesTable (fst (removeGroup groupId w)) = messagesTable w /\
  eventsTable (fst (removeGroup groupId w)) = eventsTable w /\
  isClientReady (fst (removeGroup groupId w)) = isClientReady w /\
  outbox (fst (removeGroup groupId w)) = outbox w /\
  snd (removeGroup groupId w) = GroupRemoved groupId.
Proof.
  intros E. unfold removeGroup. rewrite E. now destruct w.
Qed.

Lemma removeGroup_unknown (groupId : string) (w : World) :
  JSMap.get groupId (groupInfoStore w) = None ->
  removeGroup groupId w = (w, NotMonitored).
Proof. intros E. unfold removeGroup. now rewrite E. Qed.

(** X7.  Removing a group is idempotent: a second request for the same
    group is answered NotMonitored and changes nothing more. *)
Theorem removeGroup_twice :
  forall (groupId : string) (w : World),
    removeGroup groupId (fst (removeGroup groupId w)) =
    (fst (removeGroup groupId w), NotMonitored).
Proof.
  intros groupId w.
  destruct (JSMap.get groupId (groupInfoStore w)) as [g|] eqn:E.
  - apply removeGroup_unknown.
    destruct (removeGroup_fields groupId g w E) as (_ & -> & _).
    apply get_delete_same.
  - rewrite (removeGroup_unknown groupId w E). cbn [fst].
    now apply removeGroup_unknown.
Qed.

(** X8.  After a group is removed neither registry holds it, a pass for
    it and a pushed join or leave notification for it do nothing, and the
    entries of every other group are as they were. *)
Theorem removeGroup_stops_monitoring :
  forall (cfg : Config) (groupId : string) (w : World),
    snd (removeGroup groupId w) = GroupRemoved groupId ->
    JSMap.get groupId (monitoredGroups (fst (removeGroup groupId w))) = None /\
    JSMap.get groupId (groupInfoStore (fst (removeGroup groupId w))) = None /\
    ~ In groupId (JSMap.keys (monitoredGroups (fst (removeGroup groupId w)))) /\
    (forall inp,
        pass cfg inp groupId (fst (removeGroup groupId w)) =
        fst (removeGroup groupId w)) /\
    (forall ty inp recipientIds,
        onGroupNotification cfg ty inp groupId recipientIds
          (fst (removeGroup groupId w)) = fst (removeGroup groupId w)) /\
    (forall other,
        other <> groupId ->
        JSMap.get other (monitoredGroups (fst (removeGroup groupId w))) =
          JSMap.get other (monitoredGroups w) /\
        JSMap.get other (groupInfoStore (fst (removeGroup groupId w))) =
          JSMap.get other (groupInfoStore w)).
Proof.
  intros cfg groupId w.
  destruct (JSMap.get groupId (groupInfoStore w)) as [g|] eqn:E.
  2: { rewrite (removeGroup_unknown groupId w E). discriminate. }
  intros _.
  destruct (removeGroup_fields groupId g w E) as (Hm & Hi & _).
  assert (Hg : JSMap.get groupId (monitoredGroups (fst (removeGroup groupId w)))
               = None) by (rewrite Hm; apply get_delete_same).
  split; [exact Hg|]. split; [rewrite Hi; apply get_delete_same|].
  split; [now apply get_None_keys|].
  split; [intros inp; unfold pass; now rewrite Hg|].
  split; [intros ty inp rs; unfold onGroupNotification; now rewrite Hg|].
  intros other Ho. rewrite Hm, Hi. split; now apply get_delete_other.
Qed.

Lemma removeGroup_stops_monitoring_witness :
  JSMap.get Sample.groupId
    (monitoredGroups (fst (removeGroup Sample.groupId Sample.archive))) = None.
Proof.
  exact (proj1 (removeGroup_stops_monitoring defaultConfig Sample.groupId
                  Sample.archive eq_refl)).
Defined.

(** X9.  Removing a group deletes nothing from the tables: the pages of
    its messages and of its events are the same as before, only served
    under the group name 'Unknown', and nothing is broadcast. *)
Theorem removeGroup_keeps_history :
  forall (groupId : string) (pl po : option Z) (w : World),
    getGroupMessages groupId pl po (fst (removeGroup groupId w)) =
      ("Unknown", snd (getGroupMessages groupId pl po w)) /\
    getGroupEvents groupId pl po (fst (removeGroup groupId w)) =
      ("Unknown", snd (getGroupEvents groupId pl po w)) /\
    messagesTable (fst (removeGroup groupId w)) = messagesTable w /\
    eventsTable (fst (removeGroup groupId w)) = eventsTable w /\
    outbox (fst (removeGroup groupId w)) = outbox w.
Proof.
  intros groupId pl po w.
  unfold getGroupMessages, getGroupEvents, groupNameOf. cbn [snd].
  destruct (JSMap.get groupId (groupInfoStore w)) as [g|] eqn:E.
  - destruct (removeGroup_fields groupId g w E)
      as (_ & -> & _ & -> & -> & _ & -> & _).
    rewrite get_delete_same. repeat split.
  - rewrite (removeGroup_unknown groupId w E). cbn [fst]. rewrite E.
    repeat split.
Qed.

Lemma groupAfter_name cfg client groupId groupInfo :
  gd_name (groupAfter cfg client groupId groupInfo) = gd_name groupInfo /\
  gd_id (groupAfter cfg client groupId groupInfo) = gd_id groupInfo.
Proof.
  unfold groupAfter.
  destruct (WA.getChats client) as [chats|]; [|now split].
  destruct (find _ chats) as [group|]; [|now split].
  destruct (WA.participants group), (DETECT_JOINS_LEAVES cfg),
    (WA.fetchMessages group (MESSAGE_LIMIT cfg)); now split.
Qed.

(** What a pass does to the registries: at most the entry of its group is
    rewritten, in each of them. *)
Lemma checkMessages_registries cfg client now groupId groupInfo w :
  (monitoredGroups (checkMessages cfg client now groupId groupInfo w) =
     monitoredGroups w \/
   monitoredGroups (checkMessages cfg client now groupId groupInfo w) =
     JSMap.mutate groupId (fun _ => groupAfter cfg client groupId groupInfo)
       (monitoredGroups w)) /\
  (groupInfoStore (checkMessages cfg client now groupId groupInfo w) =
     groupInfoStore w \/
   exists n,
     groupInfoStore (checkMessages cfg client now groupId groupInfo w) =
     JSMap.mutate groupId (setMemberCount n) (groupInfoStore w)) /\
  configGroups (checkMessages cfg client now groupId groupInfo w) =
    configGroups w /\
  isClientReady (checkMessages cfg client now groupId groupInfo w) =
    isClientReady w.
Proof.
  split; [|split; [|split]].
  - unfold checkMessages, groupAfter.
    destruct (WA.getChats client) as [chats|]; [|now left].
    destruct (find _ chats) as [group|]; [|now left].
    pose proof (monitoredGroups_checkMembers cfg client now groupId groupInfo group w)
      as Hm.
    pose proof (checkMembers_snd cfg client now groupId groupInfo group w) as Hs.
    destruct (checkMembers cfg client now groupId groupInfo group w) as [w1 g1].
    cbn [fst snd] in *. rewrite <- Hs. right.
    destruct (WA.fetchMessages group (MESSAGE_LIMIT cfg)) as [messages|].
    + pose proof (monitoredGroups_checkFetched client groupId g1 messages w1) as Hx.
      pose proof (checkFetched_snd client groupId g1 messages w1) as Hy.
      destruct (checkFetched client groupId g1 messages w1) as [w2 g2].
      cbn [fst snd] in *. subst g2. rewrite <- Hm, <- Hx. now destruct w2.
    + rewrite <- Hm. now destruct w1.
  - rewrite groupInfoStore_checkMessages.
    destruct (WA.getChats client) as [chats|]; [|now left].
    destruct (find _ chats) as [group|]; [|now left].
    destruct (WA.participants group) as [ps|]; [|now left].
    destruct (DETECT_JOINS_LEAVES cfg); [|now left].
    right. now eexists.
  - apply (checkMessages_preserves cfg
             (fun w' => configGroups w' = configGroups w) (fun _ => True));
      try untouched; auto.
  - apply (checkMessages_preserves cfg
             (fun w' => isClientReady w' = isClientReady w) (fun _ => True));
      try untouched; auto.
Qed.

(** *** Adding a group *)

(** How a request that is answered with success went. *)
Lemma addGroup_added cfg inp name w g :
  snd (addGroup cfg inp name w) = GroupAdded g ->
  exists chats group,
    JS.trim name <> "" /\ isClientReady w = true /\
    WA.getChats (client inp) = Some chats /\
    resolve (JS.trim name) chats = Some group /\
    g = match JSMap.get (WA.chat_id group)
                (groupInfoStore
                   (checkMessages cfg (client inp) (now inp) (WA.chat_id group)
                      (freshData group) (recorded group w))) with
        | Some g' => g'
        | None => freshInfo group
        end /\
    fst (addGroup cfg inp name w) =
    broadcast (EnvGroupAdded g)
      (checkMessages cfg (client inp) (now inp) (WA.chat_id group)
         (freshData group) (recorded group w)).
Proof.
  unfold addGroup.
  destruct (JS.trim name =? "")%string eqn:Et; [discriminate|].
  apply String.eqb_neq in Et.
  destruct (isClientReady w) eqn:Er; [|discriminate]. cbn [negb].
  destruct (find _ (JSMap.values (groupInfoStore w))); [discriminate|].
  destruct (WA.getChats (client inp)) as [chats|] eqn:Ec; [|discriminate].
  destruct (find _ chats) as [group|] eqn:Ef; [|discriminate].
  destruct (configOk inp); [|discriminate].
  cbn [fst snd negb]. intros H. injection H as <-.
  exists chats, group. repeat split; assumption || reflexivity.
Qed.

Lemma recorded_fields (group : WA.Chat) (w : World) :
  monitoredGroups (recorded group w) =
    JSMap.set (WA.chat_id group) (freshData group) (monitoredGroups w) /\
  groupInfoStore (recorded group w) =
    JSMap.set (WA.chat_id group) (freshInfo group) (groupInfoStore w) /\
  configGroups (recorded group w) =
    (if existsb (String.eqb (WA.chat_name group)) (configGroups w)
     then configGroups w else configGroups w ++ [WA.chat_name group]) /\
  messagesTable (recorded group w) = messagesTable w /\
  eventsTable (recorded group w) = eventsTable w /\
  isClientReady (recorded group w) = isClientReady w /\
  outbox (recorded group w) = outbox w.
Proof. now destruct w. Qed.

Lemma resolve_some (groupName : string) (chats : list WA.Chat) (group : WA.Chat) :
  resolve groupName chats = Some group ->
  In group chats /\ WA.isGroup group = true /\ WA.chat_name group <> "" /\
  JS.includes (JS.toLowerCase (WA.chat_name group)) (JS.toLowerCase groupName)
    = true.
Proof.
  intros H. apply find_some in H. destruct H as [Hin H].
  rewrite !andb_true_iff in H. destruct H as [[Hg Hn] Hi].
  repeat split; try assumption.
  unfold JS.truthy in Hn. apply negb_true_iff, String.eqb_neq in Hn. exact Hn.
Qed.

(** The entry of the new group in [groupInfoStore] once the immediate pass
    is over. *)
Lemma added_info cfg client now (group : WA.Chat) (w : World) :
  exists n,
    JSMap.get (WA.chat_id group)
      (groupInfoStore
         (checkMessages cfg client now (WA.chat_id group) (freshData group)
            (recorded group w))) =
    Some (setMemberCount n (freshInfo group)).
Proof.
  destruct (checkMessages_registries cfg client now (WA.chat_id group)
              (freshData group) (recorded group w)) as (_ & [H | [n H]] & _);
    rewrite H; destruct (recorded_fields group w) as (_ & -> & _).
  - exists (List.length (membersOf group)). now rewrite get_set_same.
  - exists n. now rewrite get_mutate_same, get_set_same.
Qed.

(** X11.  For names of ASCII characters.  An add-group request answered
    NameRequired, ClientNotReady, AlreadyMonitored or GroupNotFound leaves
    the state of the server as it was.  One answered AddFailed leaves the
    tables, the list of config.json, the ready flag and the broadcast log as
    they were; the registries are as they were when [getChats] rejected, but
    when config.json could not be read, parsed or opened for writing the
    group the name resolved to has already been put in both registries, as
    on its first run. *)
Theorem addGroup_refused_unchanged :
  forall (cfg : Config) (inp : PassInput) (name : string) (w : World),
    JS.isAscii name = true ->
    asciiChats (client inp) ->
    asciiGroups w ->
    match snd (addGroup cfg inp name w) with
    | GroupAdded _ => True
    | AddFailed =>
        ((WA.getChats (client inp) = None /\
          fst (addGroup cfg inp name w) = w) \/
         (exists chats group,
             WA.getChats (client inp) = Some chats /\
             resolve (JS.trim name) chats = Some group /\
             configOk inp = false /\
             fst (addGroup cfg inp name w) =
               with_monitoredGroups
                 (JSMap.set (WA.chat_id group) (freshData group))
                 (with_groupInfoStore
                    (JSMap.set (WA.chat_id group) (freshInfo group)) w))) /\
        messagesTable (fst (addGroup cfg inp name w)) = messagesTable w /\
        eventsTable (fst (addGroup cfg inp name w)) = eventsTable w /\
        configGroups (fst (addGroup cfg inp name w)) = configGroups w /\
        isClientReady (fst (addGroup cfg inp name w)) = isClientReady w /\
        outbox (fst (addGroup cfg inp name w)) = outbox w
    | _ => fst (addGroup cfg inp name w) = w
    end.
Proof.
  intros cfg inp name w _ _ _. unfold addGroup.
  destruct (JS.trim name =? "")%string; [reflexivity|].
  destruct (negb (isClientReady w)); [reflexivity|].
  destruct (find _ (JSMap.values (groupInfoStore w))); [reflexivity|].
  destruct (WA.getChats (client inp)) as [chats|];
    [|cbn [fst snd]; split; [now left | now repeat split]].
  destruct (find _ chats) as [group|] eqn:Ef; [|reflexivity].
  destruct (configOk inp); cbn [negb fst snd]; [exact I|].
  split; [|now destruct w].
  right. exists chats, group. repeat split. exact Ef.
Qed.

Lemma addGroup_refused_unchanged_witness :
  let inp := Sample.inputConfigFails [Sample.A; Sample.B; Sample.C] [] in
  let w' := fst (addGroup defaultConfig inp "cairo" initialWorld) in
  ((WA.getChats (client inp) = None /\ w' = initialWorld) \/
   (exists chats group,
       WA.getChats (client inp) = Some chats /\
       resolve (JS.trim "cairo") chats = Some group /\
       configOk inp = false /\
       w' = with_monitoredGroups
              (JSMap.set (WA.chat_id group) (freshData group))
              (with_groupInfoStore
                 (JSMap.set (WA.chat_id group) (freshInfo group))
                 initialWorld))) /\
  messagesTable w' = messagesTable initialWorld /\
  eventsTable w' = eventsTable initialWorld /\
  configGroups w' = configGroups initialWorld /\
  isClientReady w' = isClientReady initialWorld /\
  outbox w' = outbox initialWorld.
Proof.
  exact (addGroup_refused_unchanged defaultConfig
           (Sample.inputConfigFails [Sample.A; Sample.B; Sample.C] [])
           "cairo" initialWorld eq_refl
           ltac:(intros chats chat [= <-] [<- | []]; reflexivity)
           ltac:(intros g [])).
Defined.

Lemma broadcast_fields (d : Envelope) (w : World) :
  monitoredGroups (broadcast d w) = monitoredGroups w /\
  groupInfoStore (broadcast d w) = groupInfoStore w /\
  configGroups (broadcast d w) = configGroups w /\
  messagesTable (broadcast d w) = messagesTable w /\
  eventsTable (broadcast d w) = eventsTable w /\
  isClientReady (broadcast d w) = isClientReady w.
Proof. now destruct w. Qed.

Lemma outbox_grows_checkMessages cfg client now groupId groupInfo w :
  exists l, outbox (checkMessages cfg client now groupId groupInfo w)
            = outbox w ++ l.
Proof.
  apply (checkMessages_preserves cfg
           (fun w' => exists l, outbox w' = outbox w ++ l) (fun _ => True));
    auto; try untouched.
  - intros d w0 [l H]. exists (l ++ [d]). rewrite outbox_broadcast, H.
    now rewrite app_assoc.
  - exists []. now rewrite app_nil_r.
Qed.


(** The state a successful request leaves. *)
Lemma addGroup_added_state cfg inp name w g :
  snd (addGroup cfg inp name w) = GroupAdded g ->
  exists group n,
    g = setMemberCount n (freshInfo group) /\
    JS.includes (JS.toLowerCase (WA.chat_name group))
      (JS.toLowerCase (JS.trim name)) = true /\
    JSMap.get (WA.chat_id group)
      (groupInfoStore (fst (addGroup cfg inp name w))) = Some g /\
    JSMap.get (WA.chat_id group)
      (monitoredGroups (fst (addGroup cfg inp name w))) =
      Some (groupAfter cfg (client inp) (WA.chat_id group) (freshData group)) /\
    (monitoredGroups (fst (addGroup cfg inp name w)) =
       JSMap.set (WA.chat_id group) (freshData group) (monitoredGroups w) \/
     monitoredGroups (fst (addGroup cfg inp name w)) =
       JSMap.mutate (WA.chat_id group)
         (fun _ => groupAfter cfg (client inp) (WA.chat_id group) (freshData group))
         (JSMap.set (WA.chat_id group) (freshData group) (monitoredGroups w))) /\
    (groupInfoStore (fst (addGroup cfg inp name w)) =
       JSMap.set (WA.chat_id group) (freshInfo group) (groupInfoStore w) \/
     exists n',
       groupInfoStore (fst (addGroup cfg inp name w)) =
       JSMap.mutate (WA.chat_id group) (setMemberCount n')
         (JSMap.set (WA.chat_id group) (freshInfo group) (groupInfoStore w))) /\
    configGroups (fst (addGroup cfg inp name w)) =
      (if existsb (String.eqb (WA.chat_name group)) (configGroups w)
       then configGroups w else configGroups w ++ [WA.chat_name group]) /\
    isClientReady (fst (addGroup cfg inp name w)) = isClientReady w /\
    exists pre,
      outbox (fst (addGroup cfg inp name w)) =
      (outbox w ++ pre) ++ [EnvGroupAdded g].
Proof.
  intros H.
  destruct (addGroup_added cfg inp name w g H)
    as (chats & group & Ht & Hr & Hc & Hres & Hg & Hfst).
  destruct (added_info cfg (client inp) (now inp) group w) as [n Hn].
  rewrite Hn in Hg. exists group, n. split; [assumption|].
  split; [now apply (resolve_some _ chats)|].
  rewrite Hfst.
  destruct (broadcast_fields (EnvGroupAdded g)
              (checkMessages cfg (client inp) (now inp) (WA.chat_id group)
                 (freshData group) (recorded group w)))
    as (-> & -> & -> & _ & _ & ->).
  destruct (recorded_fields group w) as (Rm & Ri & Rc & _ & _ & Rr & Ro).
  destruct (checkMessages_registries cfg (client inp) (now inp)
              (WA.chat_id group) (freshData group) (recorded group w))
    as (Hm & Hi & Hcfg & Hrdy).
  split; [now rewrite Hn, Hg|].
  split.
  { apply monitoredGroups_checkMessages. rewrite Rm. apply get_set_same. }
  split; [now rewrite <- Rm|].
  split; [now rewrite <- Ri|].
  split; [now rewrite Hcfg, Rc|].
  split; [now rewrite Hrdy, Rr|].
  destruct (outbox_grows_checkMessages cfg (client inp) (now inp)
              (WA.chat_id group) (freshData group) (recorded group w))
    as [pre Hpre].
  exists pre. now rewrite outbox_broadcast, Hpre, Ro.
Qed.



Lemma filter_drop_new (name : string) (gs : list string) :
  ~ In name gs ->
  filter (fun g => negb (g =? name)%string) (gs ++ [name]) = gs.
Proof.
  intros Hn. rewrite filter_app. cbn [filter]. rewrite String.eqb_refl.
  cbn [negb]. rewrite app_nil_r.
  apply forallb_filter_id, forallb_forall. intros x Hx.
  apply negb_true_iff, String.eqb_neq. intros ->. contradiction.
Qed.

(** X13.  Adding a group that was neither in the registries nor in
    config.json and then removing it restores both registries and the list
    of config.json; the messages stored by the immediate pass stay. *)
Theorem addGroup_then_removeGroup :
  forall (cfg : Config) (inp : PassInput) (name : string) (w : World)
         (g : GroupInfo),
    snd (addGroup cfg inp name w) = GroupAdded g ->
    ~ In (gi_id g) (JSMap.keys (monitoredGroups w)) ->
    ~ In (gi_id g) (JSMap.keys (groupInfoStore w)) ->
    ~ In (gi_name g) (configGroups w) ->
    snd (removeGroup (gi_id g) (fst (addGroup cfg inp name w))) =
      GroupRemoved (gi_id g) /\
    monitoredGroups (fst (removeGroup (gi_id g) (fst (addGroup cfg inp name w))))
      = monitoredGroups w /\
    groupInfoStore (fst (removeGroup (gi_id g) (fst (addGroup cfg inp name w))))
      = groupInfoStore w /\
    configGroups (fst (removeGroup (gi_id g) (fst (addGroup cfg inp name w))))
      = configGroups w /\
    messagesTable (fst (removeGroup (gi_id g) (fst (addGroup cfg inp name w))))
      = messagesTable (fst (addGroup cfg inp name w)).
Proof.
  intros cfg inp name w g H.
  destruct (addGroup_added_state cfg inp name w g H)
    as (group & n & -> & _ & Hi & _ & Hm & Hs & Hc & _ & _).
  cbn [gi_id gi_name setMemberCount freshInfo]. intros Km Ki Kc.
  destruct (removeGroup_fields _ _ _ Hi) as (-> & -> & -> & -> & _ & _ & _ & ->).
  cbn [gi_name setMemberCount freshInfo].
  split; [reflexivity|]. split.
  { destruct Hm as [-> | ->]; rewrite ?delete_mutate; now apply delete_set_fresh. }
  split.
  { destruct Hs as [-> | [n' ->]]; rewrite ?delete_mutate;
      now apply delete_set_fresh. }
  split; [|reflexivity].
  rewrite Hc.
  assert (E : existsb (String.eqb (WA.chat_name group)) (configGroups w) = false).
  { destruct (existsb _ _) eqn:E; [|reflexivity].
    apply existsb_exists in E. destruct E as (x & Hx & E).
    apply String.eqb_eq in E. subst x. contradiction. }
  rewrite E. now apply filter_drop_new.
Qed.

Lemma addGroup_then_removeGroup_witness :
  let inp := Sample.input [Sample.A; Sample.B; Sample.C]
               [Sample.text "3EB0A1" 1699999000 Sample.A "hello"] in
  snd (removeGroup Sample.groupId
         (fst (addGroup defaultConfig inp "cairo" initialWorld))) =
  GroupRemoved Sample.groupId.
Proof.
  exact (proj1 (addGroup_then_removeGroup defaultConfig
                  (Sample.input [Sample.A; Sample.B; Sample.C]
                     [Sample.text "3EB0A1" 1699999000 Sample.A "hello"])
                  "cairo" initialWorld
                  {| gi_id := Sample.groupId; gi_name := "Cairo Team";
                     memberCount := 3 |}
                  ltac:(vm_compute; reflexivity)
                  ltac:(simpl; tauto) ltac:(simpl; tauto) ltac:(simpl; tauto))).
Defined.






(** *** Start-up *)


Lemma initializeGroups_fold (client : WA.Client) (names : list string) (w : World) :
  initializeGroups client names w =
  match WA.getChats client with
  | Some chats => fold_left (initializeOne chats) names w
  | None => w
  end.
Proof. reflexivity. Qed.

Lemma initializeOne_registries chats w groupName :
  match resolve groupName chats with
  | Some group =>
      monitoredGroups (initializeOne chats w groupName) =
        JSMap.set (WA.chat_id group) (freshData group) (monitoredGroups w) /\
      groupInfoStore (initializeOne chats w groupName) =
        JSMap.set (WA.chat_id group) (freshInfo group) (groupInfoStore w)
  | None => initializeOne chats w groupName = w
  end.
Proof.
  unfold initializeOne. destruct (resolve groupName chats); now destruct w.
Qed.

(** X15.  For configured names and chat names of ASCII characters: every
    group monitored after [initializeGroups] either was monitored before
    with the same state, or is a group chat of the client whose name
    contains one of the configured names, letter case apart, and is then
    recorded as on its first run, with an empty window of message ids and
    the present participants as previous members. *)
Theorem initializeGroups_resolves :
  forall (client : WA.Client) (GROUP_NAMES : list string) (w : World)
         (groupId : string) (gd : GroupData),
    (forall groupName, In groupName GROUP_NAMES ->
                       JS.isAscii groupName = true) ->
    asciiChats client ->
    JSMap.get groupId
      (monitoredGroups (initializeGroups client GROUP_NAMES w)) = Some gd ->
    JSMap.get groupId (monitoredGroups w) = Some gd \/
    exists chats group groupName,
      WA.getChats client = Some chats /\ In groupName GROUP_NAMES /\
      In group chats /\ WA.isGroup group = true /\
      WA.chat_id group = groupId /\
      JS.includes (JS.toLowerCase (WA.chat_name group))
        (JS.toLowerCase groupName) = true /\
      gd = freshData group.
Proof.
  intros client names w groupId gd _ _. rewrite initializeGroups_fold.
  destruct (WA.getChats client) as [chats|]; [|now left].
  revert gd.
  apply (fold_left_invariant
           (fun w' => forall gd,
                JSMap.get groupId (monitoredGroups w') = Some gd ->
                JSMap.get groupId (monitoredGroups w) = Some gd \/
                exists chats' group groupName,
                  Some chats = Some chats' /\ In groupName names /\
                  In group chats' /\ WA.isGroup group = true /\
                  WA.chat_id group = groupId /\
                  JS.includes (JS.toLowerCase (WA.chat_name group))
                    (JS.toLowerCase groupName) = true /\
                  gd = freshData group)); [|now left].
  intros a groupName Hin IH gd.
  pose proof (initializeOne_registries chats a groupName) as H.
  destruct (resolve groupName chats) as [group|] eqn:Er.
  - destruct H as [-> _].
    destruct (String.eqb_spec groupId (WA.chat_id group)) as [->|Hne].
    + rewrite get_set_same. intros [= <-]. right.
      destruct (resolve_some _ _ _ Er) as (Hg & Hi & _ & Hinc).
      exists chats, group, groupName. repeat split; assumption.
    + rewrite get_set_other by assumption. apply IH.
  - rewrite H. apply IH.
Qed.

Lemma initializeGroups_resolves_witness :
  let client := client (Sample.input [Sample.A; Sample.B] []) in
  let gd := freshData (Sample.cairoTeam [Sample.A; Sample.B] []) in
  JSMap.get Sample.groupId (monitoredGroups initialWorld) = Some gd \/
  exists chats group groupName,
    WA.getChats client = Some chats /\ In groupName ["cairo"] /\
    In group chats /\ WA.isGroup group = true /\
    WA.chat_id group = Sample.groupId /\
    JS.includes (JS.toLowerCase (WA.chat_name group))
      (JS.toLowerCase groupName) = true /\
    gd = freshData group.
Proof.
  apply (initializeGroups_resolves
           (client (Sample.input [Sample.A; Sample.B] [])) ["cairo"]
           initialWorld Sample.groupId
           (freshData (Sample.cairoTeam [Sample.A; Sample.B] []))).
  - intros groupName [<- | []]. reflexivity.
  - intros chats chat [= <-] [<- | []]. reflexivity.
  - vm_compute. reflexivity.
Defined.

(** *** The two registries describe the same groups *)

Lemma In_keys_set {V} (k x : string) (v : V) (m : JSMap.t V) :
  In x (JSMap.keys (JSMap.set k v m)) <-> x = k \/ In x (JSMap.keys m).
Proof.
  induction m as [|[k' v'] m IH]; simpl.
  - intuition.
  - destruct (k =? k')%string eqn:E; simpl.
    + apply String.eqb_eq in E. subst k'. intuition.
    + rewrite IH. intuition.
Qed.

Lemma NoDup_keys_set {V} (k : string) (v : V) (m : JSMap.t V) :
  NoDup (JSMap.keys m) -> NoDup (JSMap.keys (JSMap.set k v m)).
Proof.
  induction m as [|[k' v'] m IH]; simpl; intros H.
  - repeat constructor. auto.
  - inversion H as [|? ? Hn Hd]; subst.
    destruct (k =? k')%string eqn:E; simpl.
    + apply String.eqb_eq in E. subst k'. now constructor.
    + apply String.eqb_neq in E. constructor; [|now apply IH].
      rewrite In_keys_set. intuition.
Qed.

Lemma NoDup_keys_delete {V} (k : string) (m : JSMap.t V) :
  NoDup (JSMap.keys m) -> NoDup (JSMap.keys (JSMap.delete k m)).
Proof. intros H. rewrite keys_delete. now apply NoDup_filter. Qed.

Lemma agree_set (k : string) (a : GroupData) (b : GroupInfo) m1 m2 :
  sameGroup (k, a) (k, b) ->
  Forall2 sameGroup m1 m2 ->
  Forall2 sameGroup (JSMap.set k a m1) (JSMap.set k b m2).
Proof.
  intros Hab H. induction H as [|[k1 v1] [k2 v2] m1 m2 Hh Ht IH]; simpl.
  - constructor; [exact Hab | constructor].
  - assert (Hk : k1 = k2) by apply Hh. subst k2.
    destruct (k =? k1)%string; constructor; assumption.
Qed.

Lemma agree_delete (k : string) m1 m2 :
  Forall2 sameGroup m1 m2 ->
  Forall2 sameGroup (JSMap.delete k m1) (JSMap.delete k m2).
Proof.
  intros H. induction H as [|[k1 v1] [k2 v2] m1 m2 Hh Ht IH]; simpl.
  - constructor.
  - assert (Hk : k1 = k2) by apply Hh. subst k2.
    destruct (k =? k1)%string; simpl; [assumption | now constructor].
Qed.

Lemma agree_mutate_data (k : string) (cur new : GroupData) m1 m2 :
  JSMap.get k m1 = Some cur ->
  gd_name new = gd_name cur -> gd_id new = gd_id cur ->
  Forall2 sameGroup m1 m2 ->
  Forall2 sameGroup (JSMap.mutate k (fun _ => new) m1) m2.
Proof.
  intros Hg Hn Hi H. induction H as [|[k1 v1] [k2 v2] m1 m2 Hh Ht IH];
    simpl in *; [constructor|].
  destruct (k =? k1)%string eqn:E.
  - injection Hg as ->. constructor; [|assumption].
    unfold sameGroup in *. simpl in *. rewrite Hn, Hi. exact Hh.
  - constructor; [assumption | now apply IH].
Qed.

Lemma agree_mutate_info (k : string) (n : nat) m1 m2 :
  Forall2 sameGroup m1 m2 ->
  Forall2 sameGroup m1 (JSMap.mutate k (setMemberCount n) m2).
Proof.
  intros H. induction H as [|[k1 v1] [k2 v2] m1 m2 Hh Ht IH]; simpl;
    [constructor|].
  destruct (k =? k2)%string; constructor; assumption.
Qed.

Lemma agree_checkMessages cfg client now groupId groupInfo w :
  JSMap.get groupId (monitoredGroups w) = Some groupInfo ->
  RegistriesAgree w ->
  RegistriesAgree (checkMessages cfg client now groupId groupInfo w).
Proof.
  intros Hg [Ha Hd].
  destruct (checkMessages_registries cfg client now groupId groupInfo w)
    as (Hm & Hi & _).
  destruct (groupAfter_name cfg client groupId groupInfo) as [Hn Hid].
  unfold RegistriesAgree. split.
  - destruct Hm as [-> | ->], Hi as [-> | [n ->]];
      try apply agree_mutate_info;
      try apply (agree_mutate_data groupId groupInfo); assumption.
  - destruct Hm as [-> | ->]; rewrite ?keys_mutate; assumption.
Qed.

Lemma agree_pass cfg inp groupId w :
  RegistriesAgree w -> RegistriesAgree (pass cfg inp groupId w).
Proof.
  intros H. unfold pass.
  destruct (JSMap.get groupId (monitoredGroups w)) as [groupInfo|] eqn:E;
    [|assumption].
  now apply agree_checkMessages.
Qed.

Lemma agree_fresh (group : WA.Chat) (w w' : World) :
  monitoredGroups w' =
    JSMap.set (WA.chat_id group) (freshData group) (monitoredGroups w) ->
  groupInfoStore w' =
    JSMap.set (WA.chat_id group) (freshInfo group) (groupInfoStore w) ->
  RegistriesAgree w -> RegistriesAgree w'.
Proof.
  intros Hm Hi [Ha Hd]. unfold RegistriesAgree. rewrite Hm, Hi. split.
  - apply agree_set; [|assumption]. now repeat split.
  - now apply NoDup_keys_set.
Qed.

Lemma agree_addGroup cfg inp name w :
  RegistriesAgree w -> RegistriesAgree (fst (addGroup cfg inp name w)).
Proof.
  intros H. unfold addGroup.
  destruct (JS.trim name =? "")%string; [assumption|].
  destruct (negb (isClientReady w)); [assumption|].
  destruct (find _ (JSMap.values (groupInfoStore w))); [assumption|].
  destruct (WA.getChats (client inp)) as [chats|]; [|assumption].
  destruct (find _ chats) as [group|]; [|assumption].
  destruct (configOk inp); cbv zeta; cbn [negb fst];
    [|apply (agree_fresh group w); now destruct w].
  match goal with
  | |- RegistriesAgree (broadcast ?d ?w4) =>
      destruct (broadcast_fields d w4) as (Bm & Bi & _);
      unfold RegistriesAgree; rewrite Bm, Bi
  end.
  destruct (recorded_fields group w) as (Rm & Ri & _).
  refine (agree_checkMessages cfg (client inp) (now inp) (WA.chat_id group)
            (freshData group) (recorded group w) _ _).
  - rewrite Rm. apply get_set_same.
  - now apply (agree_fresh group w).
Qed.

Lemma registries_onGroupNotification cfg ty inp chatId recipientIds w :
  monitoredGroups (onGroupNotification cfg ty inp chatId recipientIds w) =
    monitoredGroups w /\
  groupInfoStore (onGroupNotification cfg ty inp chatId recipientIds w) =
    groupInfoStore w /\
  configGroups (onGroupNotification cfg ty inp chatId recipientIds w) =
    configGroups w /\
  messagesTable (onGroupNotification cfg ty inp chatId recipientIds w) =
    messagesTable w /\
  isClientReady (onGroupNotification cfg ty inp chatId recipientIds w) =
    isClientReady w.
Proof.
  unfold onGroupNotification.
  destruct (JSMap.get chatId (monitoredGroups w)) as [groupInfo|];
    [|now repeat split].
  destruct (DETECT_JOINS_LEAVES cfg); [|now repeat split].
  apply (fold_left_invariant
           (fun w' => monitoredGroups w' = monitoredGroups w /\
                      groupInfoStore w' = groupInfoStore w /\
                      configGroups w' = configGroups w /\
                      messagesTable w' = messagesTable w /\
                      isClientReady w' = isClientReady w));
    [|now repeat split].
  intros a participant _ Ha.
  apply emitEvent_preserves; [| |assumption]; untouched.
Qed.

Lemma agree_initializeGroups client names w :
  RegistriesAgree w -> RegistriesAgree (initializeGroups client names w).
Proof.
  rewrite initializeGroups_fold.
  destruct (WA.getChats client) as [chats|]; [|auto].
  apply fold_left_invariant. intros a groupName _ Ha.
  pose proof (initializeOne_registries chats a groupName) as H.
  destruct (resolve groupName chats) as [group|]; [|now rewrite H].
  destruct H as [Hm Hi]. now apply (agree_fresh group a).
Qed.

Lemma agree_removeGroup groupId w :
  RegistriesAgree w -> RegistriesAgree (fst (removeGroup groupId w)).
Proof.
  intros [Ha Hd].
  destruct (JSMap.get groupId (groupInfoStore w)) as [g|] eqn:E.
  - destruct (removeGroup_fields groupId g w E) as (Hm & Hi & _).
    unfold RegistriesAgree. rewrite Hm, Hi. split.
    + now apply agree_delete.
    + now apply NoDup_keys_delete.
  - rewrite (removeGroup_unknown groupId w E). now split.
Qed.

Lemma agree_perform cfg o w :
  RegistriesAgree w -> RegistriesAgree (perform cfg o w).
Proof.
  intros H. destruct o as [[inputs|inp name|inp chatId rs|inp chatId rs]| | |];
    cbn [perform serve].
  - unfold checkAllGroups. revert H. apply fold_left_invariant.
    intros a g _ Ha. now apply agree_pass.
  - now apply agree_addGroup.
  - destruct (registries_onGroupNotification cfg JOIN inp chatId rs w)
      as (Hm & Hi & _).
    unfold RegistriesAgree. now rewrite Hm, Hi.
  - destruct (registries_onGroupNotification cfg LEAVE inp chatId rs w)
      as (Hm & Hi & _).
    unfold RegistriesAgree. now rewrite Hm, Hi.
  - now apply agree_initializeGroups.
  - now apply agree_removeGroup.
  - split; constructor.
Qed.

Lemma agree_keys (w : World) :
  RegistriesAgree w ->
  JSMap.keys (monitoredGroups w) = JSMap.keys (groupInfoStore w).
Proof.
  intros [Ha _]. induction Ha as [|a b m1 m2 Hh Ht IH]; [reflexivity|].
  simpl. f_equal; [apply Hh | exact IH].
Qed.

(** X16.  After every sequence of operations from the initial state
    (ticks, add-group requests, pushed notifications, start-up, removals,
    logouts) the two registries list the same groups in the same order,
    each under its own id and with the same name in both, no id occurs
    twice, and the count of [GET /api/groups] is the number of groups the
    poller visits. *)
Theorem registries_agree :
  forall (cfg : Config) (os : list Operation),
    let w := runOps cfg os initialWorld in
    Forall2 sameGroup (monitoredGroups w) (groupInfoStore w) /\
    NoDup (JSMap.keys (monitoredGroups w)) /\
    JSMap.keys (monitoredGroups w) = JSMap.keys (groupInfoStore w) /\
    snd (getGroups w) = List.length (JSMap.keys (monitoredGroups w)).
Proof.
  intros cfg os w.
  assert (H : RegistriesAgree w).
  { unfold w, runOps. apply fold_left_invariant.
    - intros a o _ Ha. now apply agree_perform.
    - split; constructor. }
  split; [apply H|]. split; [apply H|]. split; [now apply agree_keys|].
  unfold getGroups. cbn [snd]. rewrite (agree_keys w H).
  unfold JSMap.values, JSMap.keys. now rewrite !length_map.
Qed.

(** ** Properties kept by every operation *)

Section OperationsPreserve.

Variable cfg : Config.
Variable P : World -> Prop.

Hypothesis P_save : forall r w, P w -> P (with_eventsTable (Store.saveEvent r) w).
Hypothesis P_broadcast : forall d w, P w -> P (broadcast d w).
Hypothesis P_insert :
  forall r w, P w -> P (with_messagesTable (Store.insertOrReplace r) w).
Hypothesis P_groups : forall f w, P w -> P (with_monitoredGroups f w).
Hypothesis P_infos : forall f w, P w -> P (with_groupInfoStore f w).
Hypothesis P_config : forall f w, P w -> P (with_configGroups f w).
Hypothesis P_logout : forall w, P w -> P (logout w).

Lemma initializeGroups_keeps client names w :
  P w -> P (initializeGroups client names w).
Proof.
  rewrite initializeGroups_fold.
  destruct (WA.getChats client) as [chats|]; [|auto].
  apply fold_left_invariant. intros a groupName _ Ha.
  unfold initializeOne. destruct (resolve groupName chats); auto.
Qed.

Lemma removeGroup_keeps groupId w : P w -> P (fst (removeGroup groupId w)).
Proof.
  intros H. unfold removeGroup.
  destruct (JSMap.get groupId (groupInfoStore w)); cbn [fst]; auto.
Qed.

Lemma runOps_keeps os w : P w -> P (runOps cfg os w).
Proof.
  unfold runOps. apply fold_left_invariant. intros a o _ Ha.
  destruct o as [r| | |]; cbn [perform];
    auto using initializeGroups_keeps, removeGroup_keeps.
  change (serve cfg r a) with (runServer cfg [r] a).
  now apply runServer_keeps.
Qed.

End OperationsPreserve.

(** *** The tables under every operation *)

Lemma membershipRows_saveEvent (r : Evt.row) (t : list Evt.row) g m ty :
  ty <> CERTIFICATE ->
  List.length (membershipRows g m ty (Store.saveEvent r t)) <=
  Nat.max 1 (List.length (membershipRows g m ty t)).
Proof.
  intros Hty. rewrite saveEvent_unfold. unfold membershipRows.
  rewrite filter_app, length_app. cbn [filter].
  destruct ((Evt.group_id r =? g)%string && (Evt.member_id r =? m)%string &&
            EventType_eqb (Evt.type r) ty) eqn:E.
  - rewrite !andb_true_iff, !String.eqb_eq in E. destruct E as [[Hg Hm] Ht].
    apply EventType_eqb_eq in Ht.
    rewrite filter_none; [cbn [List.length Nat.add]; lia|].
    intros x Hx. destruct (Evt.type r) eqn:Ty; [| |congruence];
      unfold Store.deleteMemberType in Hx; apply filter_In in Hx;
      destruct Hx as [_ Hx]; apply negb_true_iff in Hx;
      now rewrite Hg, Hm, Ht in Hx.
  - cbn [List.length]. rewrite Nat.add_0_r.
    match goal with
    | |- List.length (filter ?f _) <= _ =>
        transitivity (List.length (filter f t)); [|lia]
    end.
    destruct (Evt.type r); apply filter_length_sub.
Qed.

Lemma saveEvent_MembershipUnique (r : Evt.row) (t : list Evt.row) :
  MembershipUnique t -> MembershipUnique (Store.saveEvent r t).
Proof.
  intros H g m ty Hty. specialize (H g m ty Hty).
  pose proof (membershipRows_saveEvent r t g m ty Hty). lia.
Qed.

Lemma issue_messages_NoDup (x : Deferred.Effect) (s : Deferred.State) :
  NoDup (map Msg.id (messagesTable (Deferred.world s))) ->
  NoDup (map Msg.id (messagesTable (Deferred.world (Deferred.issue x s)))).
Proof.
  intros H. destruct x as [|r a|r|d]; cbn [Deferred.issue Deferred.world];
    try exact H.
  change (messagesTable
            (with_messagesTable (Store.insertOrReplace r) (Deferred.world s)))
    with (Store.insertOrReplace r (messagesTable (Deferred.world s))).
  now apply insertOrReplace_NoDup.
Qed.

Lemma serve_messages (s : Deferred.State) :
  messagesTable (Deferred.world (Deferred.serve s)) =
  messagesTable (Deferred.world s).
Proof.
  unfold Deferred.serve. destruct (Deferred.waiting s) as [|c rest];
    [reflexivity|].
  cbn [Deferred.world]. unfold Deferred.call.
  now destruct (Deferred.announce c).
Qed.

Lemma serveN_messages (n : nat) (s : Deferred.State) :
  messagesTable (Deferred.world (Deferred.serveN n s)) =
  messagesTable (Deferred.world s).
Proof.
  revert s. induction n as [|n IH]; intros s; [reflexivity|].
  cbn [Deferred.serveN]. now rewrite IH, serve_messages.
Qed.

Lemma exec_messages_NoDup (effects : list Deferred.Effect) (turns : list nat)
    (s : Deferred.State) :
  NoDup (map Msg.id (messagesTable (Deferred.world s))) ->
  NoDup (map Msg.id
           (messagesTable (Deferred.world (Deferred.exec effects turns s)))).
Proof.
  revert turns s. induction effects as [|x effects IH]; intros turns s H;
    [assumption|].
  destruct x as [|r a|r|d]; cbn [Deferred.exec].
  - destruct turns as [|n turns]; apply IH; [assumption|].
    now rewrite serveN_messages.
  - apply IH. now apply (issue_messages_NoDup (Deferred.Delete r a)).
  - apply IH. now apply (issue_messages_NoDup (Deferred.Insert r)).
  - apply IH. now apply (issue_messages_NoDup (Deferred.Send d)).
Qed.


(** X17.  The messages table never holds an id twice: not after any
    sequence of operations from the initial state, and not after any run
    of effects with the callbacks served as the event loop pleases.  Saves
    of events that run one after the other, each to completion, keep at
    most one JOIN row and at most one LEAVE row per member of a group,
    whatever the dates. *)
Theorem tables_unique_under_operations :
  (forall (cfg : Config) (os : list Operation),
      NoDup (map Msg.id (messagesTable (runOps cfg os initialWorld)))) /\
  (forall effects turns s,
      NoDup (map Msg.id (messagesTable (Deferred.world s))) ->
      NoDup (map Msg.id
               (messagesTable
                  (Deferred.world
                     (Deferred.settle (Deferred.exec effects turns s)))))) /\
  (forall evs t,
      MembershipUnique t ->
      MembershipUnique (fold_left (fun t e => Store.saveEvent e t) evs t)).
Proof.
  split; [|split].
  - intros cfg os.
    apply (runOps_keeps cfg (fun w => NoDup (map Msg.id (messagesTable w))));
      try untouched.
    + intros r w H. destruct w. now apply insertOrReplace_NoDup.
    + intros w _. constructor.
    + constructor.
  - intros effects turns s H. unfold Deferred.settle.
    rewrite serveN_messages. now apply exec_messages_NoDup.
  - intros evs t Ht. revert Ht. apply fold_left_invariant.
    intros; now apply saveEvent_MembershipUnique.
Qed.

(** *** A tick and the registries *)

(** X18.  A tick never adds or removes a group and never writes
    config.json: the ids of both registries, in order, the list of
    config.json and the readiness flag are the same after it. *)
Theorem tick_keeps_registry :
  forall (cfg : Config) (inputs : string -> PassInput) (w : World),
    JSMap.keys (monitoredGroups (checkAllGroups cfg inputs w)) =
      JSMap.keys (monitoredGroups w) /\
    JSMap.keys (groupInfoStore (checkAllGroups cfg inputs w)) =
      JSMap.keys (groupInfoStore w) /\
    configGroups (checkAllGroups cfg inputs w) = configGroups w /\
    isClientReady (checkAllGroups cfg inputs w) = isClientReady w.
Proof.
  intros cfg inputs w. unfold checkAllGroups.
  apply (passes_preserve cfg
           (fun w' => JSMap.keys (monitoredGroups w') = JSMap.keys (monitoredGroups w) /\
                      JSMap.keys (groupInfoStore w') = JSMap.keys (groupInfoStore w) /\
                      configGroups w' = configGroups w /\
                      isClientReady w' = isClientReady w)
           (fun _ => True)); auto; try untouched.
  - intros g f [mg gi mt et cg rdy ob] _ H.
    cbn [monitoredGroups groupInfoStore configGroups isClientReady
         with_monitoredGroups] in *.
    now rewrite keys_mutate.
  - intros g f [mg gi mt et cg rdy ob] _ H.
    cbn [monitoredGroups groupInfoStore configGroups isClientReady
         with_groupInfoStore] in *.
    now rewrite keys_mutate.
Qed.

(** ** Pushed join and leave notifications *)

(** The rows of a member, group and type after an event is saved: the new
    row alone when it is of that member, group and type, and the rows as
    they were otherwise. *)
Lemma membershipRows_saved (r : Evt.row) (t : list Evt.row) g m ty :
  ty <> CERTIFICATE ->
  membershipRows g m ty (Store.saveEvent r t) =
  if (Evt.group_id r =? g)%string && (Evt.member_id r =? m)%string &&
     EventType_eqb (Evt.type r) ty
  then [r] else membershipRows g m ty t.
Proof.
  intros Hty. rewrite saveEvent_unfold. unfold membershipRows.
  rewrite filter_app. cbn [filter].
  destruct ((Evt.group_id r =? g)%string && (Evt.member_id r =? m)%string &&
            EventType_eqb (Evt.type r) ty) eqn:E.
  - rewrite !andb_true_iff, !String.eqb_eq in E. destruct E as [[Hg Hm] Ht].
    apply EventType_eqb_eq in Ht.
    rewrite filter_none; [reflexivity|].
    intros x Hx. destruct (Evt.type r) eqn:Ty; [| |congruence];
      unfold Store.deleteMemberType in Hx; apply filter_In in Hx;
      destruct Hx as [_ Hx]; apply negb_true_iff in Hx;
      now rewrite Hg, Hm, Ht in Hx.
  - rewrite app_nil_r.
    assert (Hkeep : forall (del : Evt.row -> bool),
               (forall x, del x = false ->
                          (Evt.group_id x =? g)%string &&
                          (Evt.member_id x =? m)%string &&
                          EventType_eqb (Evt.type x) ty = false) ->
               filter (fun x => (Evt.group_id x =? g)%string &&
                                (Evt.member_id x =? m)%string &&
                                EventType_eqb (Evt.type x) ty)
                 (filter del t) =
               filter (fun x => (Evt.group_id x =? g)%string &&
                                (Evt.member_id x =? m)%string &&
                                EventType_eqb (Evt.type x) ty) t).
    { intros del Hdel. induction t as [|x t IH]; [reflexivity|].
      cbn [filter]. destruct (del x) eqn:D.
      - cbn [filter]. now rewrite IH.
      - now rewrite (Hdel x D), IH. }
    assert (Hne : forall x,
               (Evt.group_id x =? Evt.group_id r)%string &&
               (Evt.member_id x =? Evt.member_id r)%string = true ->
               EventType_eqb (Evt.type x) (Evt.type r) = true ->
               (Evt.group_id x =? g)%string && (Evt.member_id x =? m)%string &&
               EventType_eqb (Evt.type x) ty = false).
    { intros x Hx Hxt. apply andb_true_iff in Hx. destruct Hx as [Hg Hm].
      apply String.eqb_eq in Hg, Hm. apply EventType_eqb_eq in Hxt.
      now rewrite Hg, Hm, Hxt. }
    destruct (Evt.type r) eqn:Ty.
    + apply Hkeep. intros x D. apply negb_false_iff in D.
      apply andb_true_iff in D. destruct D as [D1 D2]. now apply Hne.
    + apply Hkeep. intros x D. apply negb_false_iff in D.
      apply andb_true_iff in D. destruct D as [D1 D2]. now apply Hne.
    + apply Hkeep. intros x D. apply negb_false_iff in D.
      rewrite !andb_true_iff in D. destruct D as [[[D1 D2] D3] D4].
      apply EventType_eqb_eq in D3. rewrite D3.
      destruct ty; [| |congruence]; cbn [EventType_eqb];
        now rewrite !andb_false_r.
Qed.

Lemma eventsTable_emitEvent (e : Event) (w : World) :
  eventsTable (emitEvent e w) = Store.saveEvent (eventRow e) (eventsTable w).
Proof. now destruct w. Qed.

Lemma notification_fold cfg ty inp chatId groupInfo (recipientIds : list string) w :
  JSMap.get chatId (monitoredGroups w) = Some groupInfo ->
  DETECT_JOINS_LEAVES cfg = true ->
  onGroupNotification cfg ty inp chatId recipientIds w =
  fold_left
    (fun w participant =>
       emitEvent (createEvent (client inp) (now inp) participant ty
                    (gd_name groupInfo) chatId) w)
    recipientIds w.
Proof. intros Hg Hd. unfold onGroupNotification. now rewrite Hg, Hd. Qed.

(** X19.  A pushed join or leave notification for a monitored group,
    with detection on, broadcasts one event per recipient, in the order of
    the recipients, and leaves for every recipient exactly one row of that
    type in the events table, the row of the notification. *)
Theorem pushed_notification_events :
  forall (cfg : Config) (ty : EventType) (inp : PassInput) (chatId : string)
         (recipientIds : list string) (w : World) (groupInfo : GroupData),
    JSMap.get chatId (monitoredGroups w) = Some groupInfo ->
    DETECT_JOINS_LEAVES cfg = true ->
    ty <> CERTIFICATE ->
    outbox (onGroupNotification cfg ty inp chatId recipientIds w) =
      outbox w ++
      map (fun participant =>
             EnvEvent (createEvent (client inp) (now inp) participant ty
                         (gd_name groupInfo) chatId)) recipientIds /\
    forall participant,
      In participant recipientIds ->
      membershipRows chatId participant ty
        (eventsTable (onGroupNotification cfg ty inp chatId recipientIds w)) =
      [eventRow (createEvent (client inp) (now inp) participant ty
                   (gd_name groupInfo) chatId)].
Proof.
  intros cfg ty inp chatId recipientIds w groupInfo Hg Hd Hty.
  rewrite (notification_fold cfg ty inp chatId groupInfo recipientIds w Hg Hd).
  clear Hg. split.
  - revert w. induction recipientIds as [|p l IH]; intros w; cbn [fold_left map].
    + now rewrite app_nil_r.
    + rewrite IH, outbox_emitEvent, <- app_assoc. reflexivity.
  - intros participant.
    assert (Hstay : forall l w0,
               membershipRows chatId participant ty (eventsTable w0) =
                 [eventRow (createEvent (client inp) (now inp) participant ty
                              (gd_name groupInfo) chatId)] ->
               membershipRows chatId participant ty
                 (eventsTable
                    (fold_left
                       (fun w1 p =>
                          emitEvent (createEvent (client inp) (now inp) p ty
                                       (gd_name groupInfo) chatId) w1) l w0)) =
                 [eventRow (createEvent (client inp) (now inp) participant ty
                              (gd_name groupInfo) chatId)]).
    { induction l as [|p l IH]; intros w0 H0; cbn [fold_left]; [assumption|].
      apply IH. rewrite eventsTable_emitEvent, membershipRows_saved by assumption.
      cbn [eventRow createEvent Evt.group_id Evt.member_id Evt.type ev_groupId
           ev_memberId ev_type].
      rewrite String.eqb_refl. cbn [andb].
      destruct (p =? participant)%string eqn:E; [|assumption].
      apply String.eqb_eq in E. subst p.
      assert (Ht : EventType_eqb ty ty = true) by now apply EventType_eqb_eq.
      now rewrite Ht. }
    revert w. induction recipientIds as [|p l IH]; intros w Hin; [contradiction|].
    cbn [fold_left]. destruct (String.eqb_spec p participant) as [->|Hne].
    + apply Hstay. rewrite eventsTable_emitEvent, membershipRows_saved by assumption.
      cbn [eventRow createEvent Evt.group_id Evt.member_id Evt.type ev_groupId
           ev_memberId ev_type].
      rewrite !String.eqb_refl.
      assert (Ht : EventType_eqb ty ty = true) by now apply EventType_eqb_eq.
      now rewrite Ht.
    + apply IH. destruct Hin as [Hin | Hin]; [congruence | assumption].
Qed.

Lemma pushed_notification_events_witness :
  let inp := Sample.input [Sample.A; Sample.B; Sample.C; Sample.D] [] in
  outbox (onGroupNotification defaultConfig JOIN inp Sample.groupId [Sample.B]
            Sample.archive) =
  outbox Sample.archive ++
  [EnvEvent (createEvent (client inp) (now inp) Sample.B JOIN "Cairo Team"
               Sample.groupId)].
Proof.
  exact (proj1 (pushed_notification_events defaultConfig JOIN
                  (Sample.input [Sample.A; Sample.B; Sample.C; Sample.D] [])
                  Sample.groupId [Sample.B] Sample.archive
                  (Sample.steadyGroup [Sample.A; Sample.C; Sample.D] ["3EB0A3"])
                  eq_refl eq_refl ltac:(discriminate))).
Defined.

(** ** Processing one message *)

(** X20.  [processMessage] returns null exactly when the time of the
    message, in seconds, is outside the range a Date can hold, and then it
    has written and broadcast nothing. *)
Theorem processMessage_null :
  forall (client : WA.Client) (msg : WA.Message) (groupName groupId : string)
         (w : World),
    (snd (processMessage client msg groupName groupId w) = None <->
     (WA.msg_timestamp msg < -8640000000000 \/
      8640000000000 < WA.msg_timestamp msg)%Z) /\
    (snd (processMessage client msg groupName groupId w) = None ->
     fst (processMessage client msg groupName groupId w) = w).
Proof.
  intros client msg groupName groupId w.
  unfold processMessage, processed, messageEvent, JSDate.toISOString.
  cbn [fst snd].
  destruct (JSDate.validTime (WA.msg_timestamp msg * 1000)) eqn:E.
  - unfold JSDate.validTime in E. apply andb_true_iff in E.
    rewrite !Z.leb_le in E.
    split; [|destruct (isNotification _); discriminate].
    split; [destruct (isNotification _); discriminate | lia].
  - unfold JSDate.validTime in E. apply andb_false_iff in E.
    rewrite !Z.leb_gt in E. split; [|reflexivity].
    split; [lia | reflexivity].
Qed.

(** *** The effects of a pass and their callbacks *)

Lemma complete_app (l1 l2 : list Deferred.Effect) (w : World) :
  Deferred.complete (l1 ++ l2) w = Deferred.complete l2 (Deferred.complete l1 w).
Proof. apply fold_left_app. Qed.

Lemma complete_delete (e : Event) (w : World) :
  Deferred.complete [Deferred.Delete (eventRow e) (Some e)] w = emitEvent e w.
Proof.
  unfold Deferred.complete, Deferred.call, emitEvent. cbn [fold_left Deferred.row Deferred.announce].
  destruct w. unfold with_eventsTable. cbn. now rewrite saveEvent_deleteFor.
Qed.

Lemma complete_processMessage client msg groupName groupId w :
  Deferred.complete (processMessageEffects client msg groupName groupId) w =
  fst (processMessage client msg groupName groupId w).
Proof.
  unfold processMessageEffects, processMessage. cbn [fst].
  rewrite complete_app.
  assert (Ha : Deferred.complete (if awaitsContact msg then [Deferred.Await] else []) w = w)
    by now destruct (awaitsContact msg).
  rewrite Ha.
  destruct (messageEvent client msg groupName groupId) as [e|];
    [apply complete_delete | reflexivity].
Qed.

Lemma complete_processAll client messages groupName groupId w :
  Deferred.complete
    (flat_map (fun msg => processMessageEffects client msg groupName groupId)
       messages) w =
  processEffects client messages groupName groupId w.
Proof.
  unfold processEffects. revert w.
  induction messages as [|msg l IH]; intros w; [reflexivity|].
  cbn [flat_map fold_left]. now rewrite complete_app, complete_processMessage, IH.
Qed.

Lemma complete_inserts client messages groupName groupId w :
  Deferred.complete
    (flat_map
       (fun msg =>
          match processed client msg groupName groupId with
          | Some p => [Deferred.Insert (messageRow p)]
          | None => []
          end) messages) w =
  saveMessages (processedList client messages groupName groupId) w.
Proof.
  rewrite saveMessages_fold. unfold processedList. revert w.
  induction messages as [|msg l IH]; intros w; [reflexivity|].
  cbn [flat_map]. rewrite complete_app, fold_left_app, IH.
  now destruct (processed client msg groupName groupId).
Qed.

Lemma complete_broadcastNew client newMessages groupName groupId w :
  Deferred.complete
    (flat_map
       (fun msg =>
          processMessageEffects client msg groupName groupId ++
          match processed client msg groupName groupId with
          | Some p => [Deferred.Send (EnvMessage p)]
          | None => []
          end) newMessages) w =
  broadcastNew client newMessages groupName groupId w.
Proof.
  unfold broadcastNew. revert w.
  induction newMessages as [|msg l IH]; intros w; [reflexivity|].
  cbn [flat_map fold_left]. rewrite !complete_app, complete_processMessage, IH.
  unfold processMessage. cbn [fst].
  destruct (processed client msg groupName groupId); reflexivity.
Qed.

Lemma complete_checkFetched client groupId groupInfo messages w :
  Deferred.complete (checkFetchedEffects client groupId groupInfo messages) w =
  fst (checkFetched client groupId groupInfo messages w).
Proof.
  unfold checkFetchedEffects, checkFetched.
  destruct (detectNew messages (previousMessageIds groupInfo)) as [newMessages ids].
  destruct ((0 <? List.length newMessages)%nat || isFirstRun groupInfo);
    [|reflexivity].
  rewrite processAll_eq. cbn [fst].
  rewrite !complete_app, complete_processAll, complete_inserts.
  destruct (isFirstRun groupInfo); cbn [negb]; [reflexivity|].
  apply complete_broadcastNew.
Qed.

Lemma removes_self (r : Evt.row) : removes r r = true.
Proof. now apply removes_own_key. Qed.

Lemma deleteFor_twice (r : Evt.row) (t : list Evt.row) :
  Store.deleteFor r (Store.deleteFor r t) = Store.deleteFor r t.
Proof.
  rewrite !deleteFor_removes. induction t as [|x t IH]; [reflexivity|].
  cbn [filter]. destruct (negb (removes r x)) eqn:E; [|exact IH].
  cbn [filter]. now rewrite E, IH.
Qed.

Lemma deleteFor_inserted (r : Evt.row) (t : list Evt.row) :
  Store.deleteFor r (Store.deleteFor r t ++ [r]) = Store.deleteFor r t.
Proof.
  rewrite (deleteFor_removes r (_ ++ _)), filter_app.
  cbn [filter]. rewrite removes_self. cbn [negb]. rewrite app_nil_r.
  rewrite <- deleteFor_removes. apply deleteFor_twice.
Qed.

Lemma rowsOfKey_deleteFor (r : Evt.row) (t : list Evt.row) :
  Store.rowsOfKey (Evt.key_of r) (Store.deleteFor r t) = [].
Proof. apply delete_clears_key. Qed.

Lemma rowsOfKey_self (r : Evt.row) :
  Store.rowsOfKey (Evt.key_of r) [r] = [r].
Proof.
  unfold Store.rowsOfKey. cbn [filter].
  assert (H : Evt.key_eqb (Evt.key_of r) (Evt.key_of r) = true)
    by now apply key_eqb_eq.
  now rewrite H.
Qed.

Lemma single_new (msg : WA.Message) (ids : JSSet.t) :
  JSSet.has (WA.msg_id msg) ids = false ->
  detectNew [msg] ids = ([msg], ids ++ [WA.msg_id msg]).
Proof. intros H. unfold detectNew. cbn [fold_left fst snd]. now rewrite H. Qed.

Lemma single_effects client msg groupId groupInfo e p :
  isFirstRun groupInfo = false ->
  JSSet.has (WA.msg_id msg) (previousMessageIds groupInfo) = false ->
  messageEvent client msg (gd_name groupInfo) groupId = Some e ->
  processed client msg (gd_name groupInfo) groupId = Some p ->
  checkFetchedEffects client groupId groupInfo [msg] =
  (if awaitsContact msg then [Deferred.Await] else []) ++
  [Deferred.Delete (eventRow e) (Some e); Deferred.Insert (messageRow p)] ++
  (if awaitsContact msg then [Deferred.Await] else []) ++
  [Deferred.Delete (eventRow e) (Some e); Deferred.Send (EnvMessage p)].
Proof.
  intros Hf Hn He Hp. unfold checkFetchedEffects.
  rewrite (single_new msg _ Hn), Hf. cbn [List.length Nat.ltb Nat.leb orb negb flat_map].
  unfold processMessageEffects. rewrite He, Hp.
  rewrite !app_nil_r. now rewrite <- !app_assoc.
Qed.

Lemma serveN_idle (n : nat) (s : Deferred.State) :
  Deferred.waiting s = [] -> Deferred.serveN n s = s.
Proof.
  intros H. induction n as [|n IH]; [reflexivity|].
  cbn [Deferred.serveN]. unfold Deferred.serve. now rewrite H.
Qed.

Lemma serveN_cons (n : nat) (c : Deferred.Callback)
    (rest : list Deferred.Callback) (w : World) :
  Deferred.serveN (S n) {| Deferred.world := w; Deferred.waiting := c :: rest |} =
  Deferred.serveN n
    {| Deferred.world := Deferred.call c w; Deferred.waiting := rest |}.
Proof. reflexivity. Qed.

Lemma eventsTable_call (c : Deferred.Callback) (w : World) :
  eventsTable (Deferred.call c w) = eventsTable w ++ [Deferred.row c].
Proof. unfold Deferred.call. destruct (Deferred.announce c); now destruct w. Qed.

Lemma outbox_call (c : Deferred.Callback) (w : World) :
  outbox (Deferred.call c w) =
  outbox w ++ match Deferred.announce c with
              | Some e => [EnvEvent e]
              | None => []
              end.
Proof.
  unfold Deferred.call. destruct (Deferred.announce c); destruct w; simpl;
    now rewrite ?app_nil_r.
Qed.

Lemma eventsTable_with_eventsTable f (w : World) :
  eventsTable (with_eventsTable f w) = f (eventsTable w).
Proof. reflexivity. Qed.

Lemma eventsTable_with_messagesTable f (w : World) :
  eventsTable (with_messagesTable f w) = eventsTable w.
Proof. reflexivity. Qed.

Lemma eventsTable_broadcast (d : Envelope) (w : World) :
  eventsTable (broadcast d w) = eventsTable w.
Proof. reflexivity. Qed.

Lemma outbox_with_eventsTable f (w : World) :
  outbox (with_eventsTable f w) = outbox w.
Proof. reflexivity. Qed.

Lemma outbox_with_messagesTable f (w : World) :
  outbox (with_messagesTable f w) = outbox w.
Proof. reflexivity. Qed.

Create Rewrite HintDb deferred.
#[local] Hint Rewrite eventsTable_call outbox_call eventsTable_with_eventsTable
  eventsTable_with_messagesTable eventsTable_broadcast outbox_with_eventsTable
  outbox_with_messagesTable outbox_broadcast : deferred.

(** The state in which a run without [await] leaves the single new message
    of a pass: both callbacks wait. *)
Lemma single_run (r : Evt.row) (e : Event) (m : Msg.row) (p : Processed)
    (turns : list nat) (w : World) :
  Deferred.exec
    [Deferred.Delete r (Some e); Deferred.Insert m;
     Deferred.Delete r (Some e); Deferred.Send (EnvMessage p)]
    turns (Deferred.start w) =
  {| Deferred.world :=
       broadcast (EnvMessage p)
         (with_eventsTable (Store.deleteFor r)
            (with_messagesTable (Store.insertOrReplace m)
               (with_eventsTable (Store.deleteFor r) w)));
     Deferred.waiting :=
       [{| Deferred.row := r; Deferred.announce := Some e |};
        {| Deferred.row := r; Deferred.announce := Some e |}] |}.
Proof. reflexivity. Qed.

(** The same with an [await] before each [DELETE], the first callback
    being served at the second or not. *)
Lemma single_run_awaiting (r : Evt.row) (e : Event) (m : Msg.row)
    (p : Processed) (first second : nat) (turns : list nat) (w : World) :
  Deferred.exec
    [Deferred.Await; Deferred.Delete r (Some e); Deferred.Insert m;
     Deferred.Await; Deferred.Delete r (Some e); Deferred.Send (EnvMessage p)]
    (first :: second :: turns) (Deferred.start w) =
  match second with
  | O =>
      {| Deferred.world :=
           broadcast (EnvMessage p)
             (with_eventsTable (Store.deleteFor r)
                (with_messagesTable (Store.insertOrReplace m)
                   (with_eventsTable (Store.deleteFor r) w)));
         Deferred.waiting :=
           [{| Deferred.row := r; Deferred.announce := Some e |};
            {| Deferred.row := r; Deferred.announce := Some e |}] |}
  | S _ =>
      {| Deferred.world :=
           broadcast (EnvMessage p)
             (with_eventsTable (Store.deleteFor r)
                (Deferred.call
                   {| Deferred.row := r; Deferred.announce := Some e |}
                   (with_messagesTable (Store.insertOrReplace m)
                      (with_eventsTable (Store.deleteFor r) w))));
         Deferred.waiting :=
           [{| Deferred.row := r; Deferred.announce := Some e |}] |}
  end.
Proof.
  cbn [Deferred.exec].
  rewrite (serveN_idle first (Deferred.start w)) by reflexivity.
  destruct second as [|second]; [reflexivity|].
  change (Deferred.issue (Deferred.Insert m)
            (Deferred.issue (Deferred.Delete r (Some e)) (Deferred.start w)))
    with {| Deferred.world :=
              with_messagesTable (Store.insertOrReplace m)
                (with_eventsTable (Store.deleteFor r) w);
            Deferred.waiting :=
              [{| Deferred.row := r; Deferred.announce := Some e |}] |}.
  rewrite serveN_cons, serveN_idle by reflexivity. reflexivity.
Qed.

(** X21.  A pass that is not the first and fetches one message, new,
    from which [processMessage] derives an event, processes the message
    twice: once to store it, once to broadcast it.  With every callback
    served as soon as its [DELETE] is issued these effects are those of
    [checkFetched], and leave one row under the key of the event.  When
    [processMessage] does not await the chat client (a voice recording
    without author) both [DELETE]s are issued before either callback can
    run: once the callbacks have run the table holds the row of the event
    twice under one key, and the event has been broadcast twice, after the
    message.  When [processMessage] awaits the contact, the table holds
    one row if the event loop serves the first callback while the second
    processing awaits, and two if it does not. *)
Theorem processMessage_again :
  forall (client : WA.Client) (msg : WA.Message) (groupId : string)
         (groupInfo : GroupData) (w : World) (e : Event) (p : Processed),
    isFirstRun groupInfo = false ->
    JSSet.has (WA.msg_id msg) (previousMessageIds groupInfo) = false ->
    messageEvent client msg (gd_name groupInfo) groupId = Some e ->
    processed client msg (gd_name groupInfo) groupId = Some p ->
    let effects := checkFetchedEffects client groupId groupInfo [msg] in
    let key := Evt.key_of (eventRow e) in
    Deferred.complete effects w =
      fst (checkFetched client groupId groupInfo [msg] w) /\
    Store.rowsOfKey key (eventsTable (Deferred.complete effects w)) =
      [eventRow e] /\
    (awaitsContact msg = false ->
     forall turns,
       let s := Deferred.settle
                  (Deferred.exec effects turns (Deferred.start w)) in
       Store.rowsOfKey key (eventsTable (Deferred.world s)) =
         [eventRow e; eventRow e] /\
       emitted w (Deferred.world s) =
         [EnvMessage p; EnvEvent e; EnvEvent e]) /\
    (awaitsContact msg = true ->
     forall first second turns,
       let s := Deferred.settle
                  (Deferred.exec effects (first :: second :: turns)
                     (Deferred.start w)) in
       Store.rowsOfKey key (eventsTable (Deferred.world s)) =
         (if (second =? 0)%nat then [eventRow e; eventRow e]
          else [eventRow e]) /\
       emitted w (Deferred.world s) =
         (if (second =? 0)%nat
          then [EnvMessage p; EnvEvent e; EnvEvent e]
          else [EnvEvent e; EnvMessage p; EnvEvent e])).
Proof.
  intros client msg groupId groupInfo w e p Hf Hn He Hp effects key.
  split; [apply complete_checkFetched|].
  assert (Heff := single_effects client msg groupId groupInfo e p Hf Hn He Hp).
  fold effects in Heff. clearbody effects. subst effects.
  unfold key. clear key Hf Hn He Hp.
  remember (eventRow e) as r eqn:Er. remember (messageRow p) as m eqn:Em.
  clear Er Em.
  assert (Hkey : forall t l,
             Store.rowsOfKey (Evt.key_of r) (Store.deleteFor r t ++ l) =
             Store.rowsOfKey (Evt.key_of r) l).
  { intros t l. now rewrite rowsOfKey_app, rowsOfKey_deleteFor. }
  split.
  { destruct (awaitsContact msg); cbn [app]; unfold Deferred.complete;
      cbn [fold_left]; autorewrite with deferred;
      cbn [Deferred.row Deferred.announce];
      rewrite deleteFor_inserted, Hkey; apply rowsOfKey_self. }
  split.
  - intros Ha turns. rewrite Ha. cbn [app]. rewrite single_run.
    unfold Deferred.settle. cbn [Deferred.waiting List.length].
    rewrite !serveN_cons. cbn [Deferred.serveN Deferred.world]. split.
    + autorewrite with deferred. cbn [Deferred.row].
      rewrite deleteFor_twice, <- app_assoc, Hkey. cbn [app].
      change [r; r] with ([r] ++ [r]).
      now rewrite rowsOfKey_app, rowsOfKey_self.
    + apply emitted_app. autorewrite with deferred.
      cbn [Deferred.announce]. now rewrite <- !app_assoc.
  - intros Ha first second turns. rewrite Ha. cbn [app].
    rewrite single_run_awaiting.
    destruct second as [|second]; cbn [Nat.eqb];
      unfold Deferred.settle; cbn [Deferred.waiting List.length];
      rewrite !serveN_cons; cbn [Deferred.serveN Deferred.world]; split.
    + autorewrite with deferred. cbn [Deferred.row].
      rewrite deleteFor_twice, <- app_assoc, Hkey. cbn [app].
      change [r; r] with ([r] ++ [r]).
      now rewrite rowsOfKey_app, rowsOfKey_self.
    + apply emitted_app. autorewrite with deferred.
      cbn [Deferred.announce]. now rewrite <- !app_assoc.
    + autorewrite with deferred. cbn [Deferred.row].
      rewrite deleteFor_inserted, Hkey. apply rowsOfKey_self.
    + apply emitted_app. autorewrite with deferred.
      cbn [Deferred.announce]. now rewrite <- !app_assoc.
Qed.

Lemma processMessage_again_witness :
  let msg := Sample.voiceNote "3EB0C1" 1699999000 "" in
  let g := Sample.steadyGroup [Sample.A; Sample.B; Sample.C] ["3EB0A1"] in
  let w := Sample.monitoring g in
  let effects :=
    checkFetchedEffects (client (Sample.input [Sample.A; Sample.B; Sample.C] [msg]))
      Sample.groupId g [msg] in
  awaitsContact msg = false /\
  map Evt.timestamp
    (eventsTable
       (Deferred.world
          (Deferred.settle (Deferred.exec effects [] (Deferred.start w))))) =
    ["2023-11-14T21:56:40.000Z"; "2023-11-14T21:56:40.000Z"] /\
  map Evt.timestamp (eventsTable (Deferred.complete effects w)) =
    ["2023-11-14T21:56:40.000Z"].
Proof.
  intros msg g w effects.
  pose proof (processMessage_again
                (client (Sample.input [Sample.A; Sample.B; Sample.C] [msg]))
                msg Sample.groupId g w _ _ eq_refl eq_refl eq_refl eq_refl)
    as (_ & _ & H & _).
  specialize (H eq_refl []). destruct H as [_ _].
  repeat split.
Defined.


Lemma or_nonempty (a b : string) : b <> "" -> JS.or a b <> "".
Proof.
  intros Hb. unfold JS.or. destruct (a =? "")%string eqn:E; [assumption|].
  now apply String.eqb_neq.
Qed.

(** X22.  The member name of an event is never empty when the member id
    has a non-empty part before its '@': the name falls back from the
    contact's names to a phone number, and to 'Unknown' when the contact
    lookup fails. *)
Theorem createEvent_member_named :
  forall (client : WA.Client) (now : Z) (memberId : string)
         (eventType : EventType) (groupName groupId : string),
    JS.beforeAt memberId <> "" ->
    ev_memberName (createEvent client now memberId eventType groupName groupId)
      <> "".
Proof.
  intros client now memberId eventType groupName groupId H.
  unfold createEvent. cbn [ev_memberName].
  destruct (WA.getContactById client memberId) as [contact|]; [|discriminate].
  unfold contactName. apply or_nonempty, or_nonempty, or_nonempty.
  unfold contactPhone. destruct (JS.truthy (WA.user contact)) eqn:E.
  - unfold JS.truthy in E. now apply negb_true_iff, String.eqb_neq in E.
  - now apply or_nonempty.
Qed.

Lemma createEvent_member_named_witness :
  JS.beforeAt Sample.D = "201000000004" /\
  ev_memberName
    (createEvent (client Sample.offline) Sample.clock Sample.D JOIN "Cairo Team"
       Sample.groupId) <> "".
Proof.
  split; [reflexivity|].
  apply (createEvent_member_named (client Sample.offline) Sample.clock Sample.D
           JOIN "Cairo Team" Sample.groupId).
  vm_compute. discriminate.
Defined.

(** ** The member count after a pass *)

(** X28.  After a pass that read the participants of its group, with
    detection on, the member count of the group in [groupInfoStore] is the
    number of distinct participants, which is the size of the previous
    members the group then holds in [monitoredGroups]: the set of the
    participants, each once; the name of the group is kept. *)
Theorem pass_member_count :
  forall (cfg : Config) (inp : PassInput) (groupId : string) (w : World)
         (chats : list WA.Chat) (group : WA.Chat) (ps : list string)
         (groupInfo : GroupData) (info : GroupInfo),
    WA.getChats (client inp) = Some chats ->
    find (fun chat => (WA.chat_id chat =? groupId)%string) chats = Some group ->
    WA.participants group = Some ps ->
    DETECT_JOINS_LEAVES cfg = true ->
    JSMap.get groupId (monitoredGroups w) = Some groupInfo ->
    JSMap.get groupId (groupInfoStore w) = Some info ->
    exists groupInfo' info',
      JSMap.get groupId (monitoredGroups (pass cfg inp groupId w))
        = Some groupInfo' /\
      JSMap.get groupId (groupInfoStore (pass cfg inp groupId w)) = Some info' /\
      previousMembers groupInfo' = JSSet.of_list ps /\
      memberCount info' = JSSet.size (previousMembers groupInfo') /\
      gi_name info' = gi_name info /\
      NoDup (previousMembers groupInfo') /\
      forall p, In p (previousMembers groupInfo') <-> In p ps.
Proof.
  intros cfg inp groupId w chats group ps groupInfo info Hc Hf Hp Hd Hg Hi.
  unfold pass. rewrite Hg.
  destruct (monitoredGroups_checkMessages cfg (client inp) (now inp) groupId
              groupInfo w Hg) as [Hm _].
  exists (groupAfter cfg (client inp) groupId groupInfo),
         (setMemberCount (JSSet.size (JSSet.of_list ps)) info).
  assert (Hprev : previousMembers (groupAfter cfg (client inp) groupId groupInfo)
                  = JSSet.of_list ps).
  { unfold groupAfter. rewrite Hc, Hf, Hp, Hd.
    now destruct (WA.fetchMessages group (MESSAGE_LIMIT cfg)). }
  split; [exact Hm|]. split.
  { rewrite groupInfoStore_checkMessages, Hc, Hf, Hp, Hd.
    now rewrite get_mutate_same, Hi. }
  split; [exact Hprev|]. rewrite Hprev.
  split; [reflexivity|]. split; [reflexivity|].
  split; [apply of_list_NoDup|]. intros p. apply of_list_In.
Qed.

Lemma pass_member_count_witness :
  let inp := Sample.input [Sample.A; Sample.C; Sample.D; Sample.B; Sample.C] [] in
  exists groupInfo' info',
    JSMap.get Sample.groupId
      (monitoredGroups (pass defaultConfig inp Sample.groupId Sample.archive))
      = Some groupInfo' /\
    JSMap.get Sample.groupId
      (groupInfoStore (pass defaultConfig inp Sample.groupId Sample.archive))
      = Some info' /\
    previousMembers groupInfo' =
      JSSet.of_list [Sample.A; Sample.C; Sample.D; Sample.B; Sample.C] /\
    memberCount info' = JSSet.size (previousMembers groupInfo') /\
    gi_name info' = "Cairo Team" /\
    NoDup (previousMembers groupInfo') /\
    forall p, In p (previousMembers groupInfo') <->
              In p [Sample.A; Sample.C; Sample.D; Sample.B; Sample.C].
Proof.
  exact (pass_member_count defaultConfig
           (Sample.input [Sample.A; Sample.C; Sample.D; Sample.B; Sample.C] [])
           Sample.groupId Sample.archive
           [Sample.cairoTeam [Sample.A; Sample.C; Sample.D; Sample.B; Sample.C] []]
           (Sample.cairoTeam [Sample.A; Sample.C; Sample.D; Sample.B; Sample.C] [])
           [Sample.A; Sample.C; Sample.D; Sample.B; Sample.C]
           (Sample.steadyGroup [Sample.A; Sample.C; Sample.D] ["3EB0A3"])
           {| gi_id := Sample.groupId; gi_name := "Cairo Team"; memberCount := 3 |}
           eq_refl eq_refl eq_refl eq_refl eq_refl eq_refl).
Defined.

(** ** The date of an event *)

Lemma length_append (a b : string) :
  String.length (a ++ b) = String.length a + String.length b.
Proof. induction a as [|c a IH]; simpl; [reflexivity | now rewrite IH]. Qed.

Lemma pad_length (width : nat) (z : Z) : String.length (JSDate.pad width z) = width.
Proof.
  revert z. induction width as [|n IH]; intros z; [reflexivity|].
  cbn [JSDate.pad]. rewrite length_append, IH. simpl. lia.
Qed.

Lemma append_assoc (a b c : string) :
  ((a ++ b) ++ c = a ++ (b ++ c))%string.
Proof. induction a as [|x a IH]; simpl; [reflexivity | now rewrite IH]. Qed.

Lemma take_prefix (a b : string) :
  String.substring 0 (String.length a) (a ++ b) = a.
Proof.
  induction a as [|c a IH]; simpl; [now destruct b | now rewrite IH].
Qed.

Lemma year_length (y : Z) :
  String.length (JSDate.year y) = 4 \/ String.length (JSDate.year y) = 7.
Proof.
  unfold JSDate.year.
  destruct ((0 <=? y)%Z && (y <=? 9999)%Z); [left; apply pad_length|].
  right. destruct (y <? 0)%Z; cbn [String.append String.length];
    now rewrite pad_length.
Qed.

(** The first ten characters of a timestamp: the whole date when the year
    has four digits, the year and the month when it has a sign and six. *)
Lemma first10_date (y m d : Z) (rest : string) :
  JS.first10
    (JSDate.year y ++ "-" ++ JSDate.pad 2 m ++ "-" ++ JSDate.pad 2 d ++ rest) =
  if (String.length (JSDate.year y) =? 4)%nat
  then (JSDate.year y ++ "-" ++ JSDate.pad 2 m ++ "-" ++ JSDate.pad 2 d)%string
  else (JSDate.year y ++ "-" ++ JSDate.pad 2 m)%string.
Proof.
  unfold JS.first10. destruct (year_length y) as [Hy | Hy]; rewrite Hy;
    cbn [Nat.eqb].
  - replace (JSDate.year y ++ "-" ++ JSDate.pad 2 m ++ "-" ++ JSDate.pad 2 d ++ rest)%string
      with ((JSDate.year y ++ "-" ++ JSDate.pad 2 m ++ "-" ++ JSDate.pad 2 d) ++ rest)%string
      by now rewrite !append_assoc.
    replace 10 with
      (String.length (JSDate.year y ++ "-" ++ JSDate.pad 2 m ++ "-" ++ JSDate.pad 2 d)).
    + apply take_prefix.
    + rewrite !length_append, !pad_length, Hy. reflexivity.
  - replace (JSDate.year y ++ "-" ++ JSDate.pad 2 m ++ "-" ++ JSDate.pad 2 d ++ rest)%string
      with ((JSDate.year y ++ "-" ++ JSDate.pad 2 m) ++ "-" ++ JSDate.pad 2 d ++ rest)%string
      by now rewrite !append_assoc.
    replace 10 with (String.length (JSDate.year y ++ "-" ++ JSDate.pad 2 m)).
    + apply take_prefix.
    + rewrite !length_append, !pad_length, Hy. reflexivity.
Qed.

(** The first ten characters of a timestamp are fixed by its day. *)
Lemma first10_day (ms ms' : Z) :
  (ms / 86400000 = ms' / 86400000)%Z ->
  JS.first10 (JSDate.isoString ms) = JS.first10 (JSDate.isoString ms').
Proof.
  intros H. unfold JSDate.isoString. rewrite <- H.
  destruct (JSDate.civil (ms / 86400000)) as [[y m] d].
  now rewrite !first10_date.
Qed.

(** X23.  Two events of the same member, type and group created within
    the same UTC day have the same dedup key, so after both are saved the
    only row under that key is the row of the second. *)
Theorem same_day_same_key :
  forall (client : WA.Client) (now now' : Z) (memberId : string)
         (eventType : EventType) (groupName groupId : string) (t : list Evt.row),
    (now / 86400000 = now' / 86400000)%Z ->
    Evt.key_of
      (eventRow (createEvent client now memberId eventType groupName groupId)) =
    Evt.key_of
      (eventRow (createEvent client now' memberId eventType groupName groupId)) /\
    Store.rowsOfKey
      (Evt.key_of
         (eventRow (createEvent client now memberId eventType groupName groupId)))
      (Store.saveEvent
         (eventRow (createEvent client now' memberId eventType groupName groupId))
         (Store.saveEvent
            (eventRow (createEvent client now memberId eventType groupName groupId))
            t)) =
    [eventRow (createEvent client now' memberId eventType groupName groupId)].
Proof.
  intros client now now' memberId eventType groupName groupId t H.
  assert (K : Evt.key_of
                (eventRow (createEvent client now memberId eventType groupName groupId)) =
              Evt.key_of
                (eventRow (createEvent client now' memberId eventType groupName groupId))).
  { unfold Evt.key_of, eventRow, createEvent.
    cbn [Evt.group_id Evt.member_id Evt.type Evt.date ev_groupId ev_memberId
         ev_type ev_timestamp].
    now rewrite (first10_day now now' H). }
  split; [exact K|]. rewrite K. apply saveEvent_own_key.
Qed.

Lemma same_day_same_key_witness :
  Evt.key_of
    (eventRow (createEvent (client Sample.offline) Sample.clock Sample.D JOIN
                 "Cairo Team" Sample.groupId)) =
  Evt.key_of
    (eventRow (createEvent (client Sample.offline) (Sample.clock + 3600000)
                 Sample.D JOIN "Cairo Team" Sample.groupId)).
Proof.
  exact (proj1 (same_day_same_key (client Sample.offline) Sample.clock
                  (Sample.clock + 3600000) Sample.D JOIN "Cairo Team"
                  Sample.groupId [] ltac:(vm_compute; reflexivity))).
Defined.

(** ** Statistics *)

Lemma list_sum_add {K} (a b : K -> nat) (ks : list K) :
  list_sum (map (fun k => a k + b k) ks) =
  list_sum (map a ks) + list_sum (map b ks).
Proof.
  induction ks as [|k ks IH]; [reflexivity|].
  cbn [map]. change (list_sum (?x :: ?l)) with (x + list_sum l).
  rewrite IH. lia.
Qed.

Lemma list_sum_indicator (x : string) (ks : list string) :
  list_sum (map (fun k => if (x =? k)%string then 1 else 0) ks) =
  List.length (filter (fun k => (k =? x)%string) ks).
Proof.
  induction ks as [|k ks IH]; [reflexivity|].
  cbn [map filter]. change (list_sum (?a :: ?l)) with (a + list_sum l).
  rewrite IH, (String.eqb_sym k x). now destruct (x =? k)%string.
Qed.

(** Rows counted key by key, for distinct keys: the rows whose key is one
    of them. *)
Lemma count_by_key {A} (key : A -> string) (ks : list string) (t : list A) :
  NoDup ks ->
  list_sum
    (map (fun k => List.length (filter (fun r => (key r =? k)%string) t)) ks) =
  List.length (filter (fun r => JSSet.has (key r) ks) t).
Proof.
  intros Hks. induction t as [|r t IH].
  - cbn [filter List.length]. induction ks as [|k ks IHk]; [reflexivity|].
    inversion Hks; subst. cbn [map].
    change (list_sum (?a :: ?l)) with (a + list_sum l). now rewrite IHk.
  - transitivity
      (list_sum (map (fun k => (if (key r =? k)%string then 1 else 0) +
                               List.length
                                 (filter (fun r0 => (key r0 =? k)%string) t)) ks)).
    { f_equal. apply map_ext. intros k. cbn [filter].
      now destruct (key r =? k)%string. }
    rewrite list_sum_add, IH, list_sum_indicator, (count_NoDup _ _ Hks).
    cbn [filter]. now destruct (JSSet.has (key r) ks).
Qed.

Lemma count_by_key_le {A} (key : A -> string) (ks : list string) (t : list A) :
  NoDup ks ->
  list_sum
    (map (fun k => List.length (filter (fun r => (key r =? k)%string) t)) ks)
  <= List.length t.
Proof. intros H. rewrite count_by_key by assumption. apply filter_length_le. Qed.

(** *** The top senders *)

Lemma insertByCount_In (e x : Stats.SenderCount) (l : list Stats.SenderCount) :
  In e (Stats.insertByCount x l) <-> e = x \/ In e l.
Proof.
  induction l as [|y l IH]; simpl.
  - intuition.
  - destruct (Stats.count y <=? Stats.count x)%nat; simpl.
    + intuition.
    + rewrite IH. intuition.
Qed.

Lemma insertByCount_sum (x : Stats.SenderCount) (l : list Stats.SenderCount) :
  list_sum (map Stats.count (Stats.insertByCount x l)) =
  Stats.count x + list_sum (map Stats.count l).
Proof.
  induction l as [|y l IH]; [reflexivity|].
  cbn [Stats.insertByCount].
  destruct (Stats.count y <=? Stats.count x)%nat; [reflexivity|].
  cbn [map]. change (list_sum (?a :: ?k)) with (a + list_sum k).
  rewrite IH. lia.
Qed.

Lemma insertByCount_Sorted (x : Stats.SenderCount) (l : list Stats.SenderCount) :
  Sorted moreFirst l -> Sorted moreFirst (Stats.insertByCount x l).
Proof.
  induction l as [|y l IH]; intros H; simpl.
  - repeat constructor.
  - destruct (Stats.count y <=? Stats.count x)%nat eqn:E.
    + constructor; [assumption|]. constructor. now apply Nat.leb_le.
    + inversion H as [|? ? Hs Hh]; subst.
      constructor; [now apply IH|].
      apply Nat.leb_gt in E.
      destruct l as [|z l]; simpl; [constructor; unfold moreFirst; lia|].
      destruct (Stats.count z <=? Stats.count x)%nat; constructor;
        [unfold moreFirst; lia | now inversion Hh].
Qed.

Lemma insertByCount_names (x : Stats.SenderCount) (l : list Stats.SenderCount) :
  ~ In (Stats.name x) (map Stats.name l) ->
  NoDup (map Stats.name l) ->
  NoDup (map Stats.name (Stats.insertByCount x l)).
Proof.
  induction l as [|y l IH]; intros Hn Hd; simpl.
  - repeat constructor. auto.
  - destruct (Stats.count y <=? Stats.count x)%nat; simpl.
    + now constructor.
    + inversion Hd as [|? ? Hy Hl]; subst. simpl in Hn.
      constructor; [|apply IH; auto].
      intros Hin. apply in_map_iff in Hin. destruct Hin as (e & He & Hin).
      apply (proj1 (insertByCount_In e x l)) in Hin. destruct Hin as [-> | Hin].
      * apply Hn. now left.
      * apply Hy. rewrite <- He. now apply in_map.
Qed.

Lemma orderByCount_In (e : Stats.SenderCount) (l : list Stats.SenderCount) :
  In e (Stats.orderByCountDesc l) <-> In e l.
Proof.
  induction l as [|x l IH]; simpl; [tauto|].
  rewrite insertByCount_In, IH. intuition.
Qed.

Lemma orderByCount_length (l : list Stats.SenderCount) :
  List.length (Stats.orderByCountDesc l) = List.length l.
Proof.
  induction l as [|x l IH]; [reflexivity|].
  cbn [Stats.orderByCountDesc fold_right List.length].
  fold (Stats.orderByCountDesc l).
  rewrite <- IH. generalize (Stats.orderByCountDesc l). intros k.
  induction k as [|y k IHk]; [reflexivity|].
  cbn [Stats.insertByCount].
  destruct (Stats.count y <=? Stats.count x)%nat; cbn [List.length];
    [reflexivity | now rewrite IHk].
Qed.

Lemma orderByCount_Sorted (l : list Stats.SenderCount) :
  Sorted moreFirst (Stats.orderByCountDesc l).
Proof.
  induction l as [|x l IH]; simpl; [constructor|].
  now apply insertByCount_Sorted.
Qed.

Lemma orderByCount_sum (l : list Stats.SenderCount) :
  list_sum (map Stats.count (Stats.orderByCountDesc l)) =
  list_sum (map Stats.count l).
Proof.
  induction l as [|x l IH]; [reflexivity|].
  cbn [Stats.orderByCountDesc fold_right]. rewrite insertByCount_sum.
  fold (Stats.orderByCountDesc l). now rewrite IH.
Qed.

Lemma orderByCount_names (l : list Stats.SenderCount) :
  NoDup (map Stats.name l) -> NoDup (map Stats.name (Stats.orderByCountDesc l)).
Proof.
  induction l as [|x l IH]; intros H; simpl; [constructor|].
  inversion H as [|? ? Hn Hd]; subst.
  apply insertByCount_names; [|now apply IH].
  intros Hin. apply Hn. apply in_map_iff in Hin.
  destruct Hin as (e & He & Hin).
  apply (proj1 (orderByCount_In e l)) in Hin.
  rewrite <- He. now apply in_map.
Qed.

Lemma groupBySender_names (rows : list Msg.row) :
  map Stats.name (Stats.groupBySender rows) = JSSet.of_list (map Msg.sender rows).
Proof.
  unfold Stats.groupBySender. rewrite map_map. cbn [Stats.name]. apply map_id.
Qed.

Lemma groupBySender_In (rows : list Msg.row) (e : Stats.SenderCount) :
  In e (Stats.groupBySender rows) <->
  In (Stats.name e) (map Msg.sender rows) /\
  Stats.count e = Stats.countOf (Stats.name e) rows.
Proof.
  unfold Stats.groupBySender. rewrite in_map_iff. split.
  - intros (s & <- & Hs). cbn [Stats.name Stats.count].
    split; [exact (proj1 (of_list_In _ _) Hs) | reflexivity].
  - intros [Hs Hc]. exists (Stats.name e).
    split; [|exact (proj2 (of_list_In _ _) Hs)].
    destruct e as [n c]. cbn [Stats.name Stats.count] in *. now rewrite Hc.
Qed.

Lemma groupBySender_sum (rows : list Msg.row) :
  list_sum (map Stats.count (Stats.groupBySender rows)) = List.length rows.
Proof.
  unfold Stats.groupBySender. rewrite map_map. cbn [Stats.count].
  unfold Stats.countOf.
  rewrite (count_by_key Msg.sender) by apply of_list_NoDup.
  f_equal. apply forallb_filter_id, forallb_forall. intros r Hr.
  apply has_In. apply (proj2 (of_list_In _ _)). now apply in_map.
Qed.

Lemma countOf_positive (rows : list Msg.row) (r : Msg.row) :
  In r rows -> 1 <= Stats.countOf (Msg.sender r) rows.
Proof.
  intros H. unfold Stats.countOf.
  assert (Hin : In r (filter (fun r0 => (Msg.sender r0 =? Msg.sender r)%string) rows)).
  { apply filter_In. split; [assumption | apply String.eqb_refl]. }
  destruct (filter _ rows); [contradiction | simpl; lia].
Qed.

Lemma list_sum_firstn (n : nat) (l : list nat) :
  list_sum (firstn n l) <= list_sum l.
Proof.
  revert l. induction n as [|n IH]; intros l; [simpl; lia|].
  destruct l as [|x l]; [simpl; lia|].
  cbn [firstn]. change (list_sum (?a :: ?k)) with (a + list_sum k).
  specialize (IH l). lia.
Qed.

Lemma sorted_split (l1 l2 : list Stats.SenderCount) :
  Sorted moreFirst (l1 ++ l2) ->
  forall a b, In a l1 -> In b l2 -> moreFirst a b.
Proof.
  intros H. apply Sorted_StronglySorted in H.
  2: { intros x y z Hxy Hyz. unfold moreFirst in *. lia. }
  induction l1 as [|x l1 IH]; intros a b Ha Hb; [contradiction|].
  cbn [app] in H. apply StronglySorted_inv in H. destruct H as [Hs Hf].
  destruct Ha as [<- | Ha].
  - rewrite Forall_forall in Hf. apply Hf. apply in_or_app. now right.
  - now apply IH.
Qed.

(** X25.  The top senders of a group are at most five, with distinct
    names, sorted by count descending; the count of each is the number of
    stored messages of the group from that sender and is at least one; the
    counts add up to no more than the message count of the group, and to
    exactly that count when the group has at most five senders; and a
    sender of the group who is not listed has no more messages than any
    sender listed, the list being full then. *)
Theorem top_senders_are_top :
  forall (groupId : string) (t : list Msg.row),
    let rows := filter (fun r => (Msg.group_id r =? groupId)%string) t in
    let top := Stats.topSenders groupId t in
    List.length top <= 5 /\
    Sorted moreFirst top /\
    NoDup (map Stats.name top) /\
    list_sum (map Stats.count top) <= List.length rows /\
    (List.length (JSSet.of_list (map Msg.sender rows)) <= 5 ->
     list_sum (map Stats.count top) = List.length rows) /\
    (forall e, In e top ->
               Stats.count e = Stats.countOf (Stats.name e) rows /\
               1 <= Stats.count e) /\
    (forall r, In r rows ->
               In (Msg.sender r) (map Stats.name top) \/
               (List.length top = 5 /\
                forall e, In e top ->
                          Stats.countOf (Msg.sender r) rows <= Stats.count e)).
Proof.
  intros groupId t rows top. unfold top, Stats.topSenders. fold rows.
  set (L := Stats.orderByCountDesc (Stats.groupBySender rows)).
  assert (HL : forall e, In e L <-> In e (Stats.groupBySender rows))
    by (intros e; apply orderByCount_In).
  split; [apply firstn_le_length|].
  split; [apply firstn_Sorted, orderByCount_Sorted|].
  split.
  { assert (Hd : NoDup (map Stats.name L)).
    { apply orderByCount_names. rewrite groupBySender_names. apply of_list_NoDup. }
    rewrite <- (firstn_skipn 5 L), map_app in Hd.
    now apply NoDup_prefix in Hd. }
  split.
  { transitivity (list_sum (map Stats.count L)).
    - rewrite <- firstn_map. apply list_sum_firstn.
    - unfold L. now rewrite orderByCount_sum, groupBySender_sum. }
  split.
  { intros Hfew. rewrite firstn_all2.
    - unfold L. now rewrite orderByCount_sum, groupBySender_sum.
    - unfold L. rewrite orderByCount_length.
      unfold Stats.groupBySender. now rewrite length_map. }
  split.
  { intros e He.
    assert (HeL : In e L).
    { rewrite <- (firstn_skipn 5 L). apply in_or_app. now left. }
    apply HL, groupBySender_In in HeL. destruct HeL as [Hs Hc].
    split; [assumption|]. rewrite Hc.
    apply in_map_iff in Hs. destruct Hs as (r & <- & Hr).
    now apply countOf_positive. }
  intros r Hr.
  assert (Hin : In {| Stats.name := Msg.sender r;
                      Stats.count := Stats.countOf (Msg.sender r) rows |} L).
  { apply HL, groupBySender_In. cbn [Stats.name Stats.count].
    split; [now apply in_map | reflexivity]. }
  rewrite <- (firstn_skipn 5 L) in Hin. apply in_app_or in Hin.
  destruct Hin as [Hin | Hin].
  - left. apply in_map_iff. eexists. split; [|exact Hin]. reflexivity.
  - right. split.
    + assert (Hlen : 5 < List.length L \/ List.length L <= 5) by lia.
      destruct Hlen as [Hlen | Hlen].
      * rewrite length_firstn. lia.
      * rewrite skipn_all2 in Hin by assumption. contradiction.
    + intros e He.
      assert (Hs : Sorted moreFirst (firstn 5 L ++ skipn 5 L)).
      { rewrite firstn_skipn. apply orderByCount_Sorted. }
      exact (sorted_split _ _ Hs e _ He Hin).
Qed.

Lemma stats_groups_sum (w : World) :
  NoDup (JSMap.keys (groupInfoStore w)) ->
  list_sum (map Stats.gs_messageCount (Stats.groups (Stats.stats w))) <=
    Stats.totalMessages (Stats.stats w) /\
  list_sum (map Stats.gs_eventCount (Stats.groups (Stats.stats w))) <=
    Stats.totalEvents (Stats.stats w).
Proof.
  intros H. unfold Stats.stats.
  cbn [Stats.groups Stats.totalMessages Stats.totalEvents].
  rewrite !map_map. split.
  - rewrite <- (count_by_key_le Msg.group_id _ (messagesTable w) H).
    unfold JSMap.keys. rewrite map_map. apply Nat.eq_le_incl. f_equal.
    apply map_ext. now intros [k g].
  - rewrite <- (count_by_key_le Evt.group_id _ (eventsTable w) H).
    unfold JSMap.keys. rewrite map_map. apply Nat.eq_le_incl. f_equal.
    apply map_ext. now intros [k g].
Qed.

(** X26.  In every state reached from the initial one the per-group
    message counts of the statistics add up to no more than the total
    message count, the per-group event counts to no more than the total
    event count, and the statistics list the monitored groups, each once. *)
Theorem stats_groups_within_totals :
  forall (cfg : Config) (os : list Operation),
    let w := runOps cfg os initialWorld in
    list_sum (map Stats.gs_messageCount (Stats.groups (Stats.stats w))) <=
      Stats.totalMessages (Stats.stats w) /\
    list_sum (map Stats.gs_eventCount (Stats.groups (Stats.stats w))) <=
      Stats.totalEvents (Stats.stats w) /\
    map Stats.gs_id (Stats.groups (Stats.stats w)) =
      JSMap.keys (monitoredGroups w).
Proof.
  intros cfg os w.
  assert (H : RegistriesAgree w).
  { unfold w, runOps. apply fold_left_invariant.
    - intros a o _ Ha. now apply agree_perform.
    - split; constructor. }
  pose proof (agree_keys w H) as Hk. destruct H as [_ Hd]. rewrite Hk in Hd.
  destruct (stats_groups_sum w Hd) as [Hm He].
  split; [exact Hm|]. split; [exact He|].
  rewrite Hk. unfold Stats.stats, JSMap.keys. cbn [Stats.groups].
  rewrite map_map. apply map_ext. now intros [k g].
Qed.

(** ** What a search matches *)

Lemma like_star (p s : list ascii) :
  Search.like ("%"%char :: p) s =
  Search.like p s ||
  match s with
  | [] => false
  | _ :: s' => Search.like ("%"%char :: p) s'
  end.
Proof. destruct s; reflexivity. Qed.

Lemma like_any (s : list ascii) : Search.like ["%"%char] s = true.
Proof.
  induction s as [|d s IH]; [reflexivity|].
  rewrite like_star, IH. apply orb_true_r.
Qed.

Lemma like_char (c d : ascii) (p s : list ascii) :
  c <> "%"%char ->
  Search.like (c :: p) (d :: s) =
  (Ascii.eqb c "_" || Ascii.eqb (JS.lowerChar c) (JS.lowerChar d)) &&
  Search.like p s.
Proof.
  intros H. apply Ascii.eqb_neq in H. cbn [Search.like]. now rewrite H.
Qed.

Lemma like_prefix (q s : string) :
  plainQuery q ->
  Search.like (list_ascii_of_string q ++ ["%"%char]) (list_ascii_of_string s) =
  String.prefix (JS.toLowerCase q) (JS.toLowerCase s).
Proof.
  revert s. induction q as [|c q IH]; intros s H.
  - cbn [list_ascii_of_string app JS.toLowerCase]. rewrite like_any.
    now destruct (JS.toLowerCase s).
  - assert (Hc : c <> "%"%char /\ c <> "_"%char) by (apply H; now left).
    assert (Hq : plainQuery q) by (intros x Hx; apply H; now right).
    destruct Hc as [Hp Hu]. destruct s as [|d s].
    + cbn [list_ascii_of_string app JS.toLowerCase String.prefix Search.like].
      apply Ascii.eqb_neq in Hp. now rewrite Hp.
    + cbn [list_ascii_of_string app JS.toLowerCase String.prefix].
      rewrite like_char by assumption. rewrite (IH s Hq).
      apply Ascii.eqb_neq in Hu. rewrite Hu. cbn [orb].
      destruct (ascii_dec (JS.lowerChar c) (JS.lowerChar d)) as [E|E].
      * rewrite E, Ascii.eqb_refl. reflexivity.
      * apply Ascii.eqb_neq in E. now rewrite E.
Qed.

Lemma like_contains (q s : string) :
  plainQuery q ->
  Search.like ("%"%char :: list_ascii_of_string q ++ ["%"%char])
    (list_ascii_of_string s) =
  JS.includes (JS.toLowerCase s) (JS.toLowerCase q).
Proof.
  intros H. induction s as [|d s IH].
  - rewrite like_star, (like_prefix q "" H).
    cbn [JS.toLowerCase JS.includes list_ascii_of_string]. reflexivity.
  - rewrite like_star, (like_prefix q (String d s) H).
    cbn [list_ascii_of_string JS.toLowerCase JS.includes]. now rewrite IH.
Qed.

Lemma list_of_append (a b : string) :
  list_ascii_of_string (a ++ b) = list_ascii_of_string a ++ list_ascii_of_string b.
Proof. induction a as [|c a IH]; simpl; [reflexivity | now rewrite IH]. Qed.

Lemma LIKE_contains (q value : string) :
  plainQuery q ->
  Search.LIKE value ("%" ++ q ++ "%") =
  JS.includes (JS.toLowerCase value) (JS.toLowerCase q).
Proof.
  intros H. unfold Search.LIKE.
  change ("%" ++ q ++ "%")%string with (String "%" (q ++ "%")).
  cbn [list_ascii_of_string]. rewrite list_of_append.
  now apply like_contains.
Qed.

(** X27.  For a query without the wildcards [%] and [_], a message
    matches the search exactly when the query occurs, letter case apart, in
    its text or in its sender, and the message is of the requested group
    when one is given. *)
Theorem search_matches_substring :
  forall (q groupId : string) (r : Msg.row),
    plainQuery q ->
    Search.matches q groupId r =
    (if JS.truthy groupId then (Msg.group_id r =? groupId)%string else true) &&
    (JS.includes (JS.toLowerCase (Msg.message r)) (JS.toLowerCase q) ||
     JS.includes (JS.toLowerCase (Msg.sender r)) (JS.toLowerCase q)).
Proof.
  intros q groupId r H. unfold Search.matches. cbv zeta.
  now rewrite !(LIKE_contains q _ H).
Qed.

Lemma search_matches_substring_witness :
  let r := Sample.messageRow "3EB0A1" "On my way" "2025-03-01T08:00:00.000Z" in
  Search.matches "on" Sample.groupId r =
  (if JS.truthy Sample.groupId
   then (Msg.group_id r =? Sample.groupId)%string else true) &&
  (JS.includes (JS.toLowerCase (Msg.message r)) (JS.toLowerCase "on") ||
   JS.includes (JS.toLowerCase (Msg.sender r)) (JS.toLowerCase "on")).
Proof.
  apply (search_matches_substring "on" Sample.groupId
           (Sample.messageRow "3EB0A1" "On my way" "2025-03-01T08:00:00.000Z")).
  intros c [<- | [<- | []]]; split; discriminate.
Defined.

(** ** After logout *)

Lemma serve_logout cfg r w : serve cfg r (logout w) = logout w.
Proof.
  destruct r as [inputs|inp name|inp chatId rs|inp chatId rs]; cbn [serve];
    try reflexivity.
  unfold addGroup. destruct (JS.trim name =? "")%string; reflexivity.
Qed.

Lemma runServer_logout cfg rs w : runServer cfg rs (logout w) = logout w.
Proof.
  unfold runServer. apply (fold_left_invariant (fun w' => w' = logout w));
    [|reflexivity].
  intros a r _ ->. apply serve_logout.
Qed.

Lemma paginate_nothing {A} (ts : A -> string) (pl po : option Z) :
  Query.rows (Query.paginate ts pl po []) = [].
Proof.
  unfold Query.paginate, Query.sqlOffset, Search.sqlLimit.
  cbn [Query.rows Query.orderDesc fold_right].
  destruct (_ <? 0)%Z, (_ <? 0)%Z; rewrite ?skipn_nil, ?firstn_nil; reflexivity.
Qed.

(** X10.  After logout the server is inert and empty: no sequence of
    ticks, add-group requests and pushed notifications changes the state,
    an add-group request is answered NameRequired or ClientNotReady, a
    removal NotMonitored, and the lists, the group list and the statistics
    are empty.  Nothing is broadcast by the logout itself. *)
Theorem logout_leaves_nothing :
  forall (cfg : Config) (w : World),
    (forall rs, runServer cfg rs (logout w) = logout w) /\
    (forall inp name,
        snd (addGroup cfg inp name (logout w)) = NameRequired \/
        snd (addGroup cfg inp name (logout w)) = ClientNotReady) /\
    (forall groupId, removeGroup groupId (logout w) = (logout w, NotMonitored)) /\
    (forall pl po,
        Query.rows (getMessages pl po (logout w)) = [] /\
        Query.total (getMessages pl po (logout w)) = 0) /\
    (forall date memberId pl po,
        Query.rows (getEvents date memberId pl po (logout w)) = [] /\
        Query.total (getEvents date memberId pl po (logout w)) = 0) /\
    getGroups (logout w) = ([], 0) /\
    Stats.stats (logout w) =
      {| Stats.groups := []; Stats.totalMessages := 0; Stats.totalEvents := 0 |} /\
    outbox (logout w) = outbox w.
Proof.
  intros cfg w.
  split; [intros rs; apply runServer_logout|].
  split.
  { intros inp name. unfold addGroup.
    destruct (JS.trim name =? "")%string; cbn; auto. }
  split; [reflexivity|].
  split; [intros pl po; split; [apply paginate_nothing | reflexivity]|].
  split; [intros date memberId pl po; split;
          [apply paginate_nothing | reflexivity]|].
  repeat split.
Qed.

(** ** The text of a timestamp *)

Lemma civil_range (days : Z) :
  (0 <= days <= 2932896)%Z ->
  (1970 <= fst (fst (JSDate.civil days)) <= 9999)%Z /\
  (1 <= snd (fst (JSDate.civil days)) <= 12)%Z /\
  (1 <= snd (JSDate.civil days) <= 31)%Z.
Proof.
  intros H. unfold JSDate.civil. cbv zeta. cbn [fst snd].
  destruct (_ <? 10)%Z eqn:E1; destruct (_ <=? 2)%Z eqn:E2;
    try apply Z.ltb_lt in E1; try apply Z.ltb_ge in E1;
    try apply Z.leb_le in E2; try apply Z.leb_gt in E2;
    Z.div_mod_to_equations; lia.
Qed.

Lemma year_four_digits (y : Z) :
  (0 <= y <= 9999)%Z -> JSDate.year y = JSDate.pad 4 y.
Proof.
  intros H. unfold JSDate.year.
  assert (E : ((0 <=? y) && (y <=? 9999))%Z = true)
    by (apply andb_true_iff; rewrite !Z.leb_le; lia).
  now rewrite E.
Qed.

(** X24.  For a clock between 1970 and the end of the year 9999 the
    timestamp of an event has 24 characters and its date is the calendar
    date in the form YYYY-MM-DD, with a month from 01 to 12 and a day from
    01 to 31. *)
Theorem event_timestamp_format :
  forall (client : WA.Client) (now : Z) (memberId : string)
         (eventType : EventType) (groupName groupId : string),
    (0 <= now < 253402300800000)%Z ->
    String.length
      (ev_timestamp (createEvent client now memberId eventType groupName groupId))
      = 24 /\
    exists y m d : Z,
      (1970 <= y <= 9999)%Z /\ (1 <= m <= 12)%Z /\ (1 <= d <= 31)%Z /\
      Evt.date
        (eventRow (createEvent client now memberId eventType groupName groupId)) =
      (JSDate.pad 4 y ++ "-" ++ JSDate.pad 2 m ++ "-" ++ JSDate.pad 2 d)%string.
Proof.
  intros client now memberId eventType groupName groupId H.
  unfold eventRow, createEvent. cbn [ev_timestamp Evt.date].
  assert (Hd : (0 <= now / 86400000 <= 2932896)%Z).
  { split; [apply Z.div_pos; lia|].
    apply Z.lt_succ_r, Z.div_lt_upper_bound; lia. }
  pose proof (civil_range _ Hd) as (Hy & Hm & Hday).
  unfold JSDate.isoString.
  destruct (JSDate.civil (now / 86400000)) as [[y m] d]. cbn [fst snd] in *.
  split.
  - rewrite year_four_digits by lia.
    rewrite !length_append, !pad_length. reflexivity.
  - exists y, m, d. repeat split; try lia.
    rewrite first10_date, year_four_digits by lia. now rewrite pad_length.
Qed.

Lemma event_timestamp_format_witness :
  String.length
    (ev_timestamp
       (createEvent (client Sample.offline) Sample.clock Sample.D JOIN
          "Cairo Team" Sample.groupId)) = 24.
Proof.
  exact (proj1 (event_timestamp_format (client Sample.offline) Sample.clock
                  Sample.D JOIN "Cairo Team" Sample.groupId
                  ltac:(unfold Sample.clock; lia))).
Defined.
